(** * Kalman filter, smoother and E-step of the DFM package: a shallow embedding

    The C++ sources [src/KalmanFiltering.cpp] and [src/EM_algorithm.cpp] are
    written against Armadillo.  The embedding keeps Armadillo's run-time view of
    a matrix (a row count, a column count and the cells), so that empty
    matrices such as a 0 x r restriction of [C] keep their shape, and it keeps
    Armadillo's checks: an operation on incompatible shapes, an index out of
    bounds or a singular matrix handed to [.i()] raises, which is the [Err]
    branch of the result type below.

    Scalars are an abstract type with the operations the code uses on
    [double]; the algebraic laws of exact arithmetic are a separate class and
    are only assumed by the statements that need them. *)

From Stdlib Require Import ZArith List Lia Bool QArith Qcanon Reals Lra.
From stdpp Require Import base tactics list.

(** ** Scalars *)

(** The operations of [double] that the two source files use. *)
Class Scalar (F : Type) : Type := {
  zero : F;
  one : F;
  two : F;                       (* the literal 2.0 *)
  half : F;                      (* the literal 0.5 *)
  pi : F;                        (* datum::pi *)
  add : F -> F -> F;
  sub : F -> F -> F;
  mul : F -> F -> F;
  opp : F -> F;
  log : F -> F;
  of_nat : nat -> F;             (* double(n) *)
  gt : F -> F -> bool;           (* a > b *)
  is_finite : F -> bool          (* std::isfinite, what find_finite tests *)
}.

Infix "⊕" := add (at level 50, left associativity).
Infix "⊖" := sub (at level 50, left associativity).
Infix "⊗" := mul (at level 40, left associativity).

(** ** Results of operations that may raise *)

Inductive error : Type :=
| IncompatibleDims    (* "incompatible matrix dimensions", "copy into submatrix",
                         "size is fixed and hence cannot be changed" *)
| IndexOutOfBounds    (* "index out of bounds" *)
| NotSquare           (* "given matrix must be square sized" *)
| SingularMatrix      (* "inv(): matrix is singular" *)
| NotOneElement.      (* conv_to<double>::from on an object of another size *)

Inductive res (A : Type) : Type :=
| Ok (a : A)
| Err (e : error).
Arguments Ok {A} a.
Arguments Err {A} e.

Definition bind {A B : Type} (m : res A) (k : A -> res B) : res B :=
  match m with
  | Ok a => k a
  | Err e => Err e
  end.

Notation "x <- m ;; k" := (bind m (fun x => k))
  (at level 100, m at next level, right associativity).

(** [for (int i = lo; i < hi; ++i) body]: the counter is a C++ [int]. *)
Definition range (lo hi : Z) : list Z :=
  map (fun k => (lo + Z.of_nat k)%Z) (seq 0 (Z.to_nat (hi - lo))).

Fixpoint for_each {S : Type} (idx : list Z) (body : Z -> S -> res S) (s : S) : res S :=
  match idx with
  | [] => Ok s
  | i :: rest => s' <- body i s ;; for_each rest body s'
  end.

Definition for_loop {S : Type} (lo hi : Z) (body : Z -> S -> res S) (s : S) : res S :=
  for_each (range lo hi) body s.

(** ** Armadillo matrices and cubes *)

Section Matrices.
Context {F : Type} {SF : Scalar F}.

(** [arma::mat]: [n_rows], [n_cols] and the cells, here row by row. *)
Record mat : Type := Mat {
  n_rows : nat;
  n_cols : nat;
  mem : list (list F)
}.

(** The [r] x [c] matrix whose cell (i, j) is [f i j]. *)
Definition build (r c : nat) (f : nat -> nat -> F) : mat :=
  Mat r c (map (fun i => map (f i) (seq 0 c)) (seq 0 r)).

(** [M(i, j)] *)
Definition elem (M : mat) (i j : nat) : F :=
  nth j (nth i (mem M) []) zero.

(** The cells agree with the declared shape. *)
Definition wf (M : mat) : bool :=
  (length (mem M) =? n_rows M) && forallb (fun row => length row =? n_cols M) (mem M).

Definition is_square (M : mat) : bool := n_rows M =? n_cols M.

Definition same_size (M N : mat) : bool :=
  (n_rows M =? n_rows N) && (n_cols M =? n_cols N).

(** Every cell is finite. *)
Definition mat_finite (M : mat) : bool :=
  forallb (forallb is_finite) (mem M).

(** [mat(r, c, fill::zeros)] and [eye(r, c)] *)
Definition zeros (r c : nat) : mat := build r c (fun _ _ => zero).
Definition eye (r c : nat) : mat := build r c (fun i j => if i =? j then one else zero).

(** [M.t()] *)
Definition trans (M : mat) : mat :=
  build (n_cols M) (n_rows M) (fun i j => elem M j i).

(** [M.t() == M] *)
Definition symmetric (M : mat) : Prop := trans M = M.

(** The accumulation [acc = 0; for k < n: acc += f k]. *)
Fixpoint sum_n (n : nat) (f : nat -> F) : F :=
  match n with
  | O => zero
  | S k => sum_n k f ⊕ f k
  end.

(** The products, sums and differences without their shape checks. *)
Definition mmul (A B : mat) : mat :=
  build (n_rows A) (n_cols B)
    (fun i j => sum_n (n_cols A) (fun k => elem A i k ⊗ elem B k j)).
Definition madd (A B : mat) : mat :=
  build (n_rows A) (n_cols A) (fun i j => elem A i j ⊕ elem B i j).
Definition msub (A B : mat) : mat :=
  build (n_rows A) (n_cols A) (fun i j => elem A i j ⊖ elem B i j).

(** [A * B], [A + B], [A - B] *)
Definition mtimes (A B : mat) : res mat :=
  if n_cols A =? n_rows B then Ok (mmul A B) else Err IncompatibleDims.
Definition mplus (A B : mat) : res mat :=
  if same_size A B then Ok (madd A B) else Err IncompatibleDims.
Definition mminus (A B : mat) : res mat :=
  if same_size A B then Ok (msub A B) else Err IncompatibleDims.

(** [conv_to<double>::from(M)] *)
Definition as_scalar (M : mat) : res F :=
  if (n_rows M =? 1) && (n_cols M =? 1) then Ok (elem M 0 0) else Err NotOneElement.

(** Element [k] in Armadillo's column-major linear order. *)
Definition elem_linear (M : mat) (k : nat) : F :=
  elem M (k mod n_rows M) (k / n_rows M).

(** [find_finite(M)]: the linear indices of the finite cells, ascending. *)
Definition find_finite (M : mat) : list nat :=
  List.filter (fun k => is_finite (elem_linear M k)) (seq 0 (n_rows M * n_cols M)).

(** [M(find_nonfinite(M)).zeros()] *)
Definition zero_nonfinite (M : mat) : mat :=
  build (n_rows M) (n_cols M)
    (fun i j => if is_finite (elem M i j) then elem M i j else zero).

(** [M.submat(ri, ci)] with index vectors. *)
Definition submat (M : mat) (ri ci : list nat) : res mat :=
  if forallb (fun i => i <? n_rows M) ri && forallb (fun j => j <? n_cols M) ci
  then Ok (build (length ri) (length ci) (fun i j => elem M (nth i ri 0) (nth j ci 0)))
  else Err IndexOutOfBounds.

(** [M.row(i)] read; the index is a C++ [int] converted to [uword], so a
    negative one is out of bounds. *)
Definition row (M : mat) (i : Z) : res mat :=
  if (0 <=? i)%Z && (i <? Z.of_nat (n_rows M))%Z
  then Ok (build 1 (n_cols M) (fun _ j => elem M (Z.to_nat i) j))
  else Err IndexOutOfBounds.

(** [M.row(i) = v] *)
Definition set_row (M : mat) (i : Z) (v : mat) : res mat :=
  if (0 <=? i)%Z && (i <? Z.of_nat (n_rows M))%Z
  then if (n_rows v =? 1) && (n_cols v =? n_cols M)
       then Ok (build (n_rows M) (n_cols M)
                  (fun a b => if a =? Z.to_nat i then elem v 0 b else elem M a b))
       else Err IncompatibleDims
  else Err IndexOutOfBounds.

(** [arma::cube]: slices of one shape. *)
Record cube : Type := Cube {
  c_rows : nat;
  c_cols : nat;
  slices : list mat
}.

Definition n_slices (Q : cube) : nat := length (slices Q).

(** [cube(r, c, s, fill::zeros)] *)
Definition cube_zeros (r c s : nat) : cube := Cube r c (replicate s (zeros r c)).

(** [Q.slice(i)] read *)
Definition slice (Q : cube) (i : Z) : res mat :=
  if (0 <=? i)%Z
  then match slices Q !! Z.to_nat i with
       | Some M => Ok M
       | None => Err IndexOutOfBounds
       end
  else Err IndexOutOfBounds.

(** [Q.slice(i) = M]: a slice has a fixed size *)
Definition set_slice (Q : cube) (i : Z) (M : mat) : res cube :=
  if (0 <=? i)%Z && (i <? Z.of_nat (n_slices Q))%Z
  then if (n_rows M =? c_rows Q) && (n_cols M =? c_cols Q)
       then Ok (Cube (c_rows Q) (c_cols Q) (<[Z.to_nat i := M]> (slices Q)))
       else Err IncompatibleDims
  else Err IndexOutOfBounds.

(** Modelled from the spec: [array2cube] of helper.h, which the sources call
    on the covariance histories handed over from R.  It re-reads a
    three-dimensional R array as a cube without changing a cell. *)
Definition array2cube (Q : cube) : cube := Q.

End Matrices.

Arguments mat F : clear implicits.
Arguments cube F : clear implicits.

(** ** The LAPACK routines behind [.i()] and [det()]

    Armadillo hands the inverse and the determinant of a non-empty square
    matrix to LAPACK.  Neither is part of the repository, so they are
    parameters of the embedding: [lapack_inv M] is [None] when the
    factorisation reports a singular matrix. *)
Class Lapack (F : Type) : Type := {
  lapack_inv : mat F -> option (mat F);
  lapack_det : mat F -> F
}.

Section Programs.
Context {F : Type} {SF : Scalar F} {LA : Lapack F}.

(** [M.i()]: the argument must be square; the inverse of the 0 x 0 matrix is
    the 0 x 0 matrix; a singular matrix raises. *)
Definition inv (M : mat F) : res (mat F) :=
  if is_square M
  then if n_rows M =? 0 then Ok (zeros 0 0)
       else match lapack_inv M with
            | Some N => Ok N
            | None => Err SingularMatrix
            end
  else Err NotSquare.

(** [det(M)]: the argument must be square; the determinant of the 0 x 0
    matrix is 1. *)
Definition det (M : mat F) : res F :=
  if is_square M
  then Ok (if n_rows M =? 0 then one else lapack_det M)
  else Err NotSquare.

(** *** KalmanFiltering.cpp, the forward pass (lines 24-81 and again 178-234) *)

(** The locals that live across iterations of the filter loop.  [C] and [R]
    are the function's own parameters, overwritten at every step with the
    restricted matrices; [tC] and [tR] keep the full ones. *)
Record filter_state : Type := FilterState {
  st_C : mat F;
  st_R : mat F;
  st_fp : mat F;
  st_Pp : mat F;
  st_loglik : F;
  st_PT : mat F;
  st_PpT : cube F;
  st_FT : mat F;
  st_PfT : cube F
}.

(** The likelihood lines 66-69. *)
Definition loglik_update (n : nat) (S xe : mat F) (loglik : F) : res F :=
  d <- det S ;;
  if gt d zero
  then d' <- det S ;;
       xetS <- mtimes (trans xe) S ;;
       q <- mtimes xetS xe ;;
       qs <- as_scalar q ;;
       Ok (loglik ⊕ opp half ⊗ (of_nat n ⊗ log (two ⊗ pi) ⊖ log d' ⊕ qs))
  else Ok loglik.

(** One iteration of the loop at line 45. *)
Definition filter_step (X tC tR A Q : mat F) (nmiss : list nat) (n : nat)
    (t : Z) (st : filter_state) : res filter_state :=
  Xt <- row X t ;;
  let miss := find_finite Xt in
  C <- submat tC miss nmiss ;;
  R <- submat tR miss miss ;;
  let a := [Z.to_nat t] in
  CPp <- mtimes C (st_Pp st) ;;
  CPpCt <- mtimes CPp (trans C) ;;
  Sigma <- mplus CPpCt R ;;
  S <- inv Sigma ;;
  Xs <- submat X a miss ;;
  Cfp <- mtimes C (st_fp st) ;;
  xe <- mminus (trans Xs) Cfp ;;
  PpCt <- mtimes (st_Pp st) (trans C) ;;
  K <- mtimes PpCt S ;;
  Kxe <- mtimes K xe ;;
  ff <- mplus (st_fp st) Kxe ;;
  KC <- mtimes K C ;;
  KCPp <- mtimes KC (st_Pp st) ;;
  Pf <- mminus (st_Pp st) KCPp ;;
  loglik <- loglik_update n S xe (st_loglik st) ;;
  PT <- set_row (st_PT st) t (trans (st_fp st)) ;;
  PpT <- set_slice (st_PpT st) t (st_Pp st) ;;
  FT <- set_row (st_FT st) t (trans ff) ;;
  PfT <- set_slice (st_PfT st) t Pf ;;
  FTt <- row FT t ;;
  fp <- mtimes A (trans FTt) ;;
  PfTt <- slice PfT t ;;
  APf <- mtimes A PfTt ;;
  APfAt <- mtimes APf (trans A) ;;
  Pp <- mplus APfAt Q ;;
  Ok (FilterState C R fp Pp loglik PT PpT FT PfT).

(** Lines 20-43: the locals before the loop. *)
Definition filter_init (X C R A F0 P0 : mat F) : filter_state :=
  let T := Z.of_nat (n_rows X) in
  let rp := n_rows A in
  let PT := zeros (Z.to_nat (T + 1)) rp in
  let PpT := cube_zeros rp rp (Z.to_nat (T + 1)) in
  let FT := zeros (Z.to_nat T) rp in
  let PfT := cube_zeros rp rp (Z.to_nat T) in
  FilterState C R F0 P0 zero PT PpT FT PfT.

(** Lines 20-81: the declarations and the loop. *)
Definition filter_pass (X C Q R A F0 P0 : mat F) : res filter_state :=
  let T := Z.of_nat (n_rows X) in
  let n := n_cols X in
  let tC := C in
  let tR := R in
  A0 <- row A 0 ;;
  let nmiss := find_finite A0 in
  for_loop 0 T (filter_step X tC tR A Q nmiss n) (filter_init X C R A F0 P0).

(** The list [KalmanFilter] returns: F, Pf, P, Pp, loglik. *)
Record filter_out : Type := FilterOut {
  kf_F : mat F;
  kf_Pf : cube F;
  kf_P : mat F;
  kf_Pp : cube F;
  kf_loglik : F
}.

Definition KalmanFilter (X C Q R A F0 P0 : mat F) : res filter_out :=
  st <- filter_pass X C Q R A F0 P0 ;;
  Ok (FilterOut (st_FT st) (st_PfT st) (st_PT st) (st_PpT st) (st_loglik st)).

(** *** KalmanFiltering.cpp, the backward pass (lines 112-153 and again 237-277) *)

Record smoother_state : Type := SmootherState {
  sm_J : cube F;
  sm_L : cube F;
  sm_K : cube F;
  sm_PsTm : cube F;
  sm_FsT : mat F;
  sm_PsT : cube F
}.

(** Line 127 *)
Definition gain_step (A : mat F) (PfT PpT : cube F) (t : Z) (s : smoother_state)
    : res smoother_state :=
  Pf <- slice PfT t ;;
  PfAt <- mtimes Pf (trans A) ;;
  Pp1 <- slice PpT (t + 1) ;;
  Pp1i <- inv Pp1 ;;
  Jt <- mtimes PfAt Pp1i ;;
  J <- set_slice (sm_J s) t Jt ;;
  Ok (SmootherState J (sm_L s) (sm_K s) (sm_PsTm s) (sm_FsT s) (sm_PsT s)).

(** Lines 133-137 *)
Definition smooth_step (T : Z) (FT PT : mat F) (PfT PpT : cube F) (j : Z)
    (s : smoother_state) : res smoother_state :=
  Fj <- row FT (T - j) ;;
  Jj <- slice (sm_J s) (T - j) ;;
  Fs1 <- row (sm_FsT s) (T - j + 1) ;;
  P1 <- row PT (T - j + 1) ;;
  d <- mminus Fs1 P1 ;;
  Jd <- mtimes Jj (trans d) ;;
  Fsj <- mplus Fj (trans Jd) ;;
  FsT <- set_row (sm_FsT s) (T - j) Fsj ;;
  Pfj <- slice PfT (T - j) ;;
  Ps1 <- slice (sm_PsT s) (T - j + 1) ;;
  Pp1 <- slice PpT (T - j + 1) ;;
  D <- mminus Ps1 Pp1 ;;
  JD <- mtimes Jj D ;;
  JDJt <- mtimes JD (trans Jj) ;;
  Psj <- mplus Pfj JDJt ;;
  PsT <- set_slice (sm_PsT s) (T - j) Psj ;;
  Ok (SmootherState (sm_J s) (sm_L s) (sm_K s) (sm_PsTm s) FsT PsT).

(** Lines 143-144 *)
Definition innovation_step (C R : mat F) (PpT : cube F) (i : Z) (s : smoother_state)
    : res smoother_state :=
  Ppi <- slice PpT i ;;
  CPp <- mtimes C Ppi ;;
  CPpCt <- mtimes CPp (trans C) ;;
  Sigma <- mplus CPpCt R ;;
  Li <- inv Sigma ;;
  L <- set_slice (sm_L s) i Li ;;
  PpCt <- mtimes Ppi (trans C) ;;
  Li' <- slice L i ;;
  Ki <- mtimes PpCt Li' ;;
  K <- set_slice (sm_K s) i Ki ;;
  Ok (SmootherState (sm_J s) L K (sm_PsTm s) (sm_FsT s) (sm_PsT s)).

(** Line 147 *)
Definition lag_one_seed (T : Z) (rp : nat) (A C : mat F) (PfT : cube F)
    (s : smoother_state) : res smoother_state :=
  KT <- slice (sm_K s) (T - 1) ;;
  KC <- mtimes KT C ;;
  IKC <- mminus (eye rp rp) KC ;;
  IKCA <- mtimes IKC A ;;
  Pf2 <- slice PfT (T - 2) ;;
  W <- mtimes IKCA Pf2 ;;
  PsTm <- set_slice (sm_PsTm s) (T - 1) W ;;
  Ok (SmootherState (sm_J s) (sm_L s) (sm_K s) PsTm (sm_FsT s) (sm_PsT s)).

(** Lines 150-152 *)
Definition lag_one_step (T : Z) (A : mat F) (PfT : cube F) (j : Z)
    (s : smoother_state) : res smoother_state :=
  Pfj <- slice PfT (T - j) ;;
  Jp <- slice (sm_J s) (T - j - 1) ;;
  PfJt <- mtimes Pfj (trans Jp) ;;
  Jj <- slice (sm_J s) (T - j) ;;
  W1 <- slice (sm_PsTm s) (T - j + 1) ;;
  APf <- mtimes A Pfj ;;
  D <- mminus W1 APf ;;
  JD <- mtimes Jj D ;;
  JDJt <- mtimes JD (trans Jp) ;;
  W <- mplus PfJt JDJt ;;
  PsTm <- set_slice (sm_PsTm s) (T - j) W ;;
  Ok (SmootherState (sm_J s) (sm_L s) (sm_K s) PsTm (sm_FsT s) (sm_PsT s)).

(** Lines 112-153: the declarations, the seed of the smoothed histories and
    the four loops. *)
Definition smoother_pass (T : Z) (rp n : nat) (A C R FT PT : mat F)
    (PfT PpT : cube F) : res smoother_state :=
  let J := cube_zeros rp rp (Z.to_nat T) in
  let L := cube_zeros n n (Z.to_nat T) in
  let K := cube_zeros rp n (Z.to_nat T) in
  let PsTm := cube_zeros rp rp (Z.to_nat T) in
  let FsT := zeros (Z.to_nat T) rp in
  let PsT := cube_zeros rp rp (Z.to_nat T) in
  FTlast <- row FT (T - 1) ;;
  FsT <- set_row FsT (T - 1) FTlast ;;
  PfTlast <- slice PfT (T - 1) ;;
  PsT <- set_slice PsT (T - 1) PfTlast ;;
  s <- for_loop 0 (T - 1) (gain_step A PfT PpT) (SmootherState J L K PsTm FsT PsT) ;;
  s <- for_loop 2 (T + 1) (smooth_step T FT PT PfT PpT) s ;;
  s <- for_loop 0 T (innovation_step C R PpT) s ;;
  s <- lag_one_seed T rp A C PfT s ;;
  for_loop 2 (T - 1) (lag_one_step T A PfT) s.

(** The list [KalmanSmoother] returns: Fs, Ps, PsTm. *)
Record smoother_out : Type := SmootherOut {
  ks_Fs : mat F;
  ks_Ps : cube F;
  ks_PsTm : cube F
}.

Definition KalmanSmoother (A C R FT PT : mat F) (PfT_v PpT_v : cube F)
    : res smoother_out :=
  let T := Z.of_nat (n_rows FT) in
  let rp := n_rows A in
  let n := n_rows C in
  let PfT := array2cube PfT_v in
  let PpT := array2cube PpT_v in
  s <- smoother_pass T rp n A C R FT PT PfT PpT ;;
  Ok (SmootherOut (sm_FsT s) (sm_PsT s) (sm_PsTm s)).

(** The list [KalmanFilterSmoother] returns: Fs, Ps, PsTm, loglik. *)
Record fused_out : Type := FusedOut {
  kfs_Fs : mat F;
  kfs_Ps : cube F;
  kfs_PsTm : cube F;
  kfs_loglik : F
}.

(** Lines 171-284.  The backward pass reads the locals [C] and [R] as the
    forward loop left them. *)
Definition KalmanFilterSmoother (X C Q R A F0 P0 : mat F) : res fused_out :=
  let T := Z.of_nat (n_rows X) in
  let n := n_cols X in
  let rp := n_rows A in
  st <- filter_pass X C Q R A F0 P0 ;;
  s <- smoother_pass T rp n A (st_C st) (st_R st)
         (st_FT st) (st_PT st) (st_PfT st) (st_PpT st) ;;
  Ok (FusedOut (sm_FsT s) (sm_PsT s) (sm_PsTm s) (st_loglik st)).

(** *** EM_algorithm.cpp *)

Record estep_acc : Type := EstepAcc {
  acc_delta : mat F;
  acc_gamma : mat F;
  acc_beta : mat F
}.

(** Lines 37-41 *)
Definition estep_step (X Fs : mat F) (Psmooth Wsmooth : cube F) (t : Z)
    (acc : estep_acc) : res estep_acc :=
  Xt <- row X t ;;
  Fst <- row Fs t ;;
  XF <- mtimes (trans Xt) Fst ;;
  delta <- mplus (acc_delta acc) XF ;;
  FF <- mtimes (trans Fst) Fst ;;
  Pst <- slice Psmooth t ;;
  g <- mplus FF Pst ;;
  gamma <- mplus (acc_gamma acc) g ;;
  beta <- (if (t >? 0)%Z
           then Fsp <- row Fs (t - 1) ;;
                FFp <- mtimes (trans Fst) Fsp ;;
                Wt <- slice Wsmooth t ;;
                b <- mplus FFp Wt ;;
                mplus (acc_beta acc) b
           else Ok (acc_beta acc)) ;;
  Ok (EstepAcc delta gamma beta).

(** The list [Estep] returns. *)
Record estep_out : Type := EstepOut {
  es_beta : mat F;
  es_gamma : mat F;
  es_delta : mat F;
  es_gamma1 : mat F;
  es_gamma2 : mat F;
  es_F0 : mat F;
  es_P0 : mat F;
  es_loglik : F
}.

(** Lines 13-58.  [T] is an [unsigned int] here; the fused smoother has
    already read slice [T-2] when [T-1] is computed, so the subtraction does
    not wrap on a path that reaches it. *)
Definition Estep (X C Q R A F0 P0 : mat F) : res estep_out :=
  let T := Z.of_nat (n_rows X) in
  let n := n_cols X in
  let rp := n_rows A in
  ks <- KalmanFilterSmoother X C Q R A F0 P0 ;;
  let loglik := kfs_loglik ks in
  let Fs := kfs_Fs ks in
  let Psmooth := array2cube (kfs_Ps ks) in
  let Wsmooth := array2cube (kfs_PsTm ks) in
  let X := zero_nonfinite X in
  acc <- for_loop 0 T (estep_step X Fs Psmooth Wsmooth)
           (EstepAcc (zeros n rp) (zeros rp rp) (zeros rp rp)) ;;
  let gamma := acc_gamma acc in
  FsL <- row Fs (T - 1) ;;
  FFL <- mtimes (trans FsL) FsL ;;
  gL <- mminus gamma FFL ;;
  PsL <- slice Psmooth (T - 1) ;;
  gamma1 <- mminus gL PsL ;;
  Fs0 <- row Fs 0 ;;
  FF0 <- mtimes (trans Fs0) Fs0 ;;
  g0 <- mminus gamma FF0 ;;
  Ps0 <- slice Psmooth 0 ;;
  gamma2 <- mminus g0 Ps0 ;;
  let F1 := trans Fs0 in
  let P1 := Ps0 in
  Ok (EstepOut (acc_beta acc) gamma (acc_delta acc) gamma1 gamma2 F1 P1 loglik).

End Programs.

Arguments filter_state F : clear implicits.
Arguments filter_out F : clear implicits.
Arguments smoother_state F : clear implicits.
Arguments smoother_out F : clear implicits.
Arguments fused_out F : clear implicits.
Arguments estep_acc F : clear implicits.
Arguments estep_out F : clear implicits.

(** ** The laws of exact arithmetic

    The laws the proofs below use, stated for a scalar type that may hold
    non-finite values: a non-finite value absorbs, so [0 * x = 0] is only
    asked of a finite [x]. *)
Class ScalarLaws (F : Type) {SF : Scalar F} : Prop := {
  add_comm : forall x y : F, x ⊕ y = y ⊕ x;
  add_assoc : forall x y z : F, x ⊕ (y ⊕ z) = x ⊕ y ⊕ z;
  add_0_r : forall x : F, x ⊕ zero = x;
  sub_0_r : forall x : F, x ⊖ zero = x;
  sub_add_distr : forall x y z : F, x ⊖ y ⊖ z = x ⊖ (y ⊕ z);
  mul_comm : forall x y : F, x ⊗ y = y ⊗ x;
  mul_assoc : forall x y z : F, x ⊗ (y ⊗ z) = x ⊗ y ⊗ z;
  mul_1_r : forall x : F, x ⊗ one = x;
  mul_add_distr_l : forall x y z : F, x ⊗ (y ⊕ z) = x ⊗ y ⊕ x ⊗ z;
  mul_0_r : forall x : F, is_finite x = true -> x ⊗ zero = zero;
  finite_zero : is_finite (zero : F) = true;
  finite_one : is_finite (one : F) = true;
  finite_add : forall x y : F,
    is_finite x = true -> is_finite y = true -> is_finite (x ⊕ y) = true;
  finite_sub : forall x y : F,
    is_finite x = true -> is_finite y = true -> is_finite (x ⊖ y) = true;
  finite_mul : forall x y : F,
    is_finite x = true -> is_finite y = true -> is_finite (x ⊗ y) = true;
  one_gt_zero : gt (one : F) zero = true
}.

(** What [.i()] promises when it returns: a finite two-sided inverse of the
    shape of its argument. *)
Class LapackLaws (F : Type) {SF : Scalar F} {LA : Lapack F} : Prop := {
  lapack_inv_spec : forall M N : mat F,
    lapack_inv M = Some N ->
    wf N = true /\ n_rows N = n_rows M /\ n_cols N = n_rows M /\
    mat_finite N = true /\
    mmul M N = eye (n_rows M) (n_rows M) /\
    mmul N M = eye (n_rows M) (n_rows M)
}.

(** ** An inverse and a determinant by cofactors

    A stand-in for LAPACK on small matrices, for any scalar type with a
    division and an equality test: the determinant by expansion along the
    first row, the inverse as adjugate over determinant.  The inverse is
    returned only if it passes the check that it is finite and a two-sided
    inverse; otherwise the matrix is reported singular. *)
Section Cofactors.
Context {F : Type} {SF : Scalar F}.
Variable fdiv : F -> F -> F.
Variable feqb : F -> F -> bool.

Definition sign (k : nat) : F := if Nat.even k then one else opp one.

Fixpoint det_rows (n : nat) (rows : list (list F)) : F :=
  match n, rows with
  | S n', r0 :: rest =>
      sum_n (S n') (fun j => sign j ⊗ nth j r0 zero ⊗ det_rows n' (map (delete j) rest))
  | _, _ => one
  end.

Definition cofactor_det (M : mat F) : F := det_rows (n_rows M) (mem M).

Definition minor (M : mat F) (i j : nat) : list (list F) :=
  map (delete j) (delete i (mem M)).

Definition adjugate_inverse (M : mat F) : mat F :=
  let n := n_rows M in
  let d := cofactor_det M in
  build n n (fun i j => fdiv (sign (i + j) ⊗ det_rows (n - 1) (minor M j i)) d).

Definition mat_eqb (M N : mat F) : bool :=
  same_size M N &&
  forallb (fun i => forallb (fun j => feqb (elem M i j) (elem N i j))
                      (seq 0 (n_cols M)))
          (seq 0 (n_rows M)).

Definition checked_inverse (M : mat F) : option (mat F) :=
  let n := n_rows M in
  let N := adjugate_inverse M in
  if mat_finite N && mat_eqb (mmul M N) (eye n n) && mat_eqb (mmul N M) (eye n n)
  then Some N
  else None.

Definition cofactor_lapack : Lapack F :=
  {| lapack_inv := checked_inverse; lapack_det := cofactor_det |}.

End Cofactors.

(** ** Exact rational scalars

    Rationals in lowest terms and one non-finite value that absorbs.  The
    logarithm and pi are rational approximations; the statements below hold
    whatever their values. *)
Module Rat.

Inductive dbl : Type :=
| Fin (q : Qc)
| NaN.

Definition lift2 (f : Qc -> Qc -> Qc) (x y : dbl) : dbl :=
  match x, y with
  | Fin a, Fin b => Fin (f a b)
  | _, _ => NaN
  end.

Definition dadd : dbl -> dbl -> dbl := lift2 Qcplus.
Definition dsub : dbl -> dbl -> dbl := lift2 Qcminus.
Definition dmul : dbl -> dbl -> dbl := lift2 Qcmult.

Definition dopp (x : dbl) : dbl :=
  match x with
  | Fin a => Fin (Qcopp a)
  | NaN => NaN
  end.

Definition ddiv (x y : dbl) : dbl :=
  match x, y with
  | Fin a, Fin b => if Qc_eq_dec b (Q2Qc 0) then NaN else Fin (Qcdiv a b)
  | _, _ => NaN
  end.

Definition deqb (x y : dbl) : bool :=
  match x, y with
  | Fin a, Fin b => if Qc_eq_dec a b then true else false
  | _, _ => false
  end.

Definition dgt (x y : dbl) : bool :=
  match x, y with
  | Fin a, Fin b => if Qclt_le_dec b a then true else false
  | _, _ => false
  end.

Definition dfinite (x : dbl) : bool :=
  match x with
  | Fin _ => true
  | NaN => false
  end.

(** 2 * atanh ((a-1)/(a+1)), the series cut after [terms] terms. *)
Fixpoint atanh_series (terms : nat) (y ypow : Qc) (k : positive) : Qc :=
  match terms with
  | O => Q2Qc 0
  | S m => (ypow / Q2Qc (Zpos k # 1) + atanh_series m y (ypow * y * y) (k + 2))%Qc
  end.

Definition dlog (x : dbl) : dbl :=
  match x with
  | Fin a =>
      if Qclt_le_dec (Q2Qc 0) a
      then let y := ((a - Q2Qc 1) / (a + Q2Qc 1))%Qc in
           Fin (Q2Qc 2 * atanh_series 6 y y 1)%Qc
      else NaN
  | NaN => NaN
  end.

#[export] Instance dbl_scalar : Scalar dbl := {|
  zero := Fin (Q2Qc 0);
  one := Fin (Q2Qc 1);
  two := Fin (Q2Qc 2);
  half := Fin (Q2Qc (1 # 2));
  pi := Fin (Q2Qc (355 # 113));
  add := dadd;
  sub := dsub;
  mul := dmul;
  opp := dopp;
  log := dlog;
  of_nat := fun n => Fin (Q2Qc (Z.of_nat n # 1));
  gt := dgt;
  is_finite := dfinite
|}.

#[export] Instance dbl_lapack : Lapack dbl := cofactor_lapack ddiv deqb.

(** Literals for examples. *)
Definition q (n : Z) (d : positive) : dbl := Fin (Q2Qc (n # d)).

End Rat.

(** ** Exact real scalars

    The real numbers with one non-finite value that absorbs; [log] is the
    natural logarithm and [pi] is the real pi. *)
Module Real.

Inductive xreal : Type :=
| RFin (x : R)
| RNaN.

Definition lift2 (f : R -> R -> R) (x y : xreal) : xreal :=
  match x, y with
  | RFin a, RFin b => RFin (f a b)
  | _, _ => RNaN
  end.

Definition xdiv (x y : xreal) : xreal :=
  match x, y with
  | RFin a, RFin b => if Req_dec_T b 0 then RNaN else RFin (a / b)
  | _, _ => RNaN
  end.

Definition xeqb (x y : xreal) : bool :=
  match x, y with
  | RFin a, RFin b => if Req_dec_T a b then true else false
  | _, _ => false
  end.

Definition xgt (x y : xreal) : bool :=
  match x, y with
  | RFin a, RFin b => if Rlt_dec b a then true else false
  | _, _ => false
  end.

Definition xlog (x : xreal) : xreal :=
  match x with
  | RFin a => if Rlt_dec 0 a then RFin (ln a) else RNaN
  | RNaN => RNaN
  end.

#[export] Instance xreal_scalar : Scalar xreal := {|
  zero := RFin 0;
  one := RFin 1;
  two := RFin 2;
  half := RFin (1 / 2);
  pi := RFin PI;
  add := lift2 Rplus;
  sub := lift2 Rminus;
  mul := lift2 Rmult;
  opp := fun x => match x with RFin a => RFin (- a) | RNaN => RNaN end;
  log := xlog;
  of_nat := fun n => RFin (INR n);
  gt := xgt;
  is_finite := fun x => match x with RFin _ => true | RNaN => false end
|}.

#[export] Instance xreal_lapack : Lapack xreal := cofactor_lapack xdiv xeqb.

End Real.

(** ** Exact rational scalars with infinities

    The rationals with the three non-finite values of a [double]: the two
    infinities and not-a-number, with the arithmetic IEEE 754 gives them.
    [std::isfinite] rejects all three. *)
Module Ext.

Inductive ext : Type :=
| Num (q : Qc)
| Inf (s : bool)                 (* +inf when [s], -inf otherwise *)
| Nan.

(** [Some true] for a positive rational, [Some false] for a negative one. *)
Definition sign_of (a : Qc) : option bool :=
  match (a ?= Q2Qc 0)%Qc with
  | Gt => Some true
  | Lt => Some false
  | Eq => None
  end.

Definition eopp (x : ext) : ext :=
  match x with
  | Num a => Num (- a)%Qc
  | Inf s => Inf (negb s)
  | Nan => Nan
  end.

Definition eadd (x y : ext) : ext :=
  match x, y with
  | Num a, Num b => Num (a + b)%Qc
  | Inf s, Num _ | Num _, Inf s => Inf s
  | Inf s, Inf s' => if Bool.eqb s s' then Inf s else Nan
  | _, _ => Nan
  end.

Definition esub (x y : ext) : ext := eadd x (eopp y).

Definition emul (x y : ext) : ext :=
  match x, y with
  | Num a, Num b => Num (a * b)%Qc
  | Inf s, Num a | Num a, Inf s =>
      match sign_of a with
      | Some s' => Inf (Bool.eqb s s')
      | None => Nan
      end
  | Inf s, Inf s' => Inf (Bool.eqb s s')
  | _, _ => Nan
  end.

Definition ediv (x y : ext) : ext :=
  match x, y with
  | Num a, Num b =>
      match sign_of b, sign_of a with
      | Some _, _ => Num (a / b)%Qc
      | None, Some s => Inf s
      | None, None => Nan
      end
  | Num _, Inf _ => Num (Q2Qc 0)
  | Inf s, Num b =>
      match sign_of b with
      | Some s' => Inf (Bool.eqb s s')
      | None => Inf s
      end
  | _, _ => Nan
  end.

Definition eeqb (x y : ext) : bool :=
  match x, y with
  | Num a, Num b => if Qc_eq_dec a b then true else false
  | Inf s, Inf s' => Bool.eqb s s'
  | _, _ => false
  end.

Definition egt (x y : ext) : bool :=
  match x, y with
  | Num a, Num b => if Qclt_le_dec b a then true else false
  | Inf true, Num _ | Inf true, Inf false | Num _, Inf false => true
  | _, _ => false
  end.

Definition elog (x : ext) : ext :=
  match x with
  | Num a =>
      match sign_of a with
      | Some true =>
          match Rat.dlog (Rat.Fin a) with
          | Rat.Fin b => Num b
          | Rat.NaN => Nan
          end
      | Some false => Nan
      | None => Inf false
      end
  | Inf true => Inf true
  | _ => Nan
  end.

Definition efinite (x : ext) : bool :=
  match x with
  | Num _ => true
  | _ => false
  end.

#[export] Instance ext_scalar : Scalar ext := {|
  zero := Num (Q2Qc 0);
  one := Num (Q2Qc 1);
  two := Num (Q2Qc 2);
  half := Num (Q2Qc (1 # 2));
  pi := Num (Q2Qc (355 # 113));
  add := eadd;
  sub := esub;
  mul := emul;
  opp := eopp;
  log := elog;
  of_nat := fun n => Num (Q2Qc (Z.of_nat n # 1));
  gt := egt;
  is_finite := efinite
|}.

#[export] Instance ext_lapack : Lapack ext := cofactor_lapack ediv eeqb.

(** Literals for examples. *)
Definition q (n : Z) (d : positive) : ext := Num (Q2Qc (n # d)).

End Ext.

(** ** Example inputs

    The scalar scenario of the specification: one state, one channel,
    A = 0.9, C = 1, Q = 0.1, R = 0.5, F0 = 0, P0 = 1 and the series
    1.0, NaN, 0.8, 1.2; and a model with two states and two channels. *)
Module Examples.
Import Rat.

Definition m11 (x : dbl) : mat dbl := Mat 1 1 [[x]].
Definition col (xs : list dbl) : mat dbl := Mat (length xs) 1 (map (fun x => [x]) xs).
Definition cube11 (xs : list dbl) : cube dbl := Cube 1 1 (map m11 xs).

Definition X4 : mat dbl := col [q 1 1; NaN; q 8 10; q 12 10].
Definition A1 : mat dbl := m11 (q 9 10).
Definition C1 : mat dbl := m11 (q 1 1).
Definition Q1 : mat dbl := m11 (q 1 10).
Definition R1 : mat dbl := m11 (q 5 10).
Definition F01 : mat dbl := m11 (q 0 1).
Definition P01 : mat dbl := m11 (q 1 1).

(** The histories [KalmanFilter] returns on that scenario. *)
Definition FT4 : mat dbl := col [q 2 3; q 3 5; q 29488 44985; q 630678 779665].
Definition PT4 : mat dbl := col [q 0 1; q 3 5; q 27 50; q 44232 74975; q 0 1].
Definition PfT4 : cube dbl :=
  cube11 [q 1 3; q 37 100; q 3997 17994; q 167899 935598].
Definition PpT4 : cube dbl :=
  cube11 [q 1 1; q 37 100; q 3997 10000; q 167899 599800; q 0 1].

(** A series whose last row has a missing value. *)
Definition X2 : mat dbl := col [q 1 1; NaN].

(** A single time step with nothing observed. *)
Definition Xnan : mat dbl := col [NaN].

(** Two states, two channels, two time steps. *)
Definition I2 : mat dbl := Mat 2 2 [[q 1 1; q 0 1]; [q 0 1; q 1 1]].
Definition A2 : mat dbl := Mat 2 2 [[q 1 1; q 1 1]; [q 0 1; q 1 1]].
Definition X22 : mat dbl := Mat 2 2 [[q 1 1; q 0 1]; [q 0 1; q 1 1]].
Definition F02 : mat dbl := col [q 0 1; q 0 1].

(** A transition matrix with a non-finite cell in its first row. *)
Definition Anan : mat dbl := m11 NaN.
Definition X1 : mat dbl := col [q 1 1].

(** The empty series of one channel. *)
Definition X0 : mat dbl := col [].

(** The series of the scenario with other observed values, with another
    last row, and another initial mean. *)
Definition X4b : mat dbl := col [q 5 1; NaN; q (-3) 1; q 0 1].
Definition X4c : mat dbl := col [q 1 1; NaN; q 8 10; q 7 1].
Definition F01b : mat dbl := m11 (q 2 1).

(** Another loading and another observation-noise variance for one channel. *)
Definition C1b : mat dbl := m11 (q 2 1).
Definition R1b : mat dbl := m11 (q 1 1).

(** Three time steps with nothing observed. *)
Definition Xnan3 : mat dbl := col [NaN; NaN; NaN].

(** The histories of a single time step. *)
Definition FT1 : mat dbl := col [q 2 3].
Definition PT1 : mat dbl := col [q 0 1; q 0 1].
Definition PfT1 : cube dbl := cube11 [q 1 3].
Definition PpT1 : cube dbl := cube11 [q 1 1; q 0 1].

End Examples.

(** The all-missing step over the reals. *)
Module RealExamples.
Import Real.

Definition m11 (x : xreal) : mat xreal := Mat 1 1 [[x]].
Definition Xnan : mat xreal := m11 RNaN.
Definition A1 : mat xreal := m11 (RFin (9 / 10)).
Definition C1 : mat xreal := m11 (RFin 1).
Definition Q1 : mat xreal := m11 (RFin (1 / 10)).
Definition R1 : mat xreal := m11 (RFin (1 / 2)).
Definition F01 : mat xreal := m11 (RFin 0).
Definition P01 : mat xreal := m11 (RFin 1).

End RealExamples.

(** The scalar scenario with the missing observation given once as
    not-a-number and once as an infinity. *)
Module ExtExamples.
Import Ext.

Definition m11 (x : ext) : mat ext := Mat 1 1 [[x]].
Definition col (xs : list ext) : mat ext := Mat (length xs) 1 (map (fun x => [x]) xs).

Definition X4nan : mat ext := col [q 1 1; Nan; q 8 10; q 12 10].
Definition X4inf : mat ext := col [q 1 1; Inf true; q 8 10; q 12 10].
Definition A1 : mat ext := m11 (q 9 10).
Definition C1 : mat ext := m11 (q 1 1).
Definition Q1 : mat ext := m11 (q 1 10).
Definition R1 : mat ext := m11 (q 5 10).
Definition F01 : mat ext := m11 (q 0 1).
Definition P01 : mat ext := m11 (q 1 1).

End ExtExamples.

(** ** Statements

    The predicates in which the properties below are stated. *)
Section Statements.
Context {F : Type} {SF : Scalar F} {LA : Lapack F}.
Implicit Types X C R A Q tC tR FT PT : mat F.
Implicit Types PfT PpT : cube F.
Implicit Types st : filter_state F.

(** Row [t] of [X] holds no finite cell. *)
Definition row_all_missing X (t : Z) : Prop :=
  forall j, j < n_cols X -> is_finite (elem X (Z.to_nat t) j) = false.

(** The restricted matrices, the innovation and the update of step [t],
    with the shapes the products and sums have checked. *)
Definition step_facts X tC tR A Q (nmiss : list nat) (n : nat) (t : Z) st st'
    (C R S xe K ff Pf : mat F) : Prop :=
  let fp := st_fp st in
  let Pp := st_Pp st in
  exists Xt Xs,
    row X t = Ok Xt /\
    submat tC (find_finite Xt) nmiss = Ok C /\
    submat tR (find_finite Xt) (find_finite Xt) = Ok R /\
    inv (madd (mmul (mmul C Pp) (trans C)) R) = Ok S /\
    submat X [Z.to_nat t] (find_finite Xt) = Ok Xs /\
    xe = msub (trans Xs) (mmul C fp) /\
    K = mmul (mmul Pp (trans C)) S /\
    ff = madd fp (mmul K xe) /\
    Pf = msub Pp (mmul (mmul K C) Pp) /\
    loglik_update n S xe (st_loglik st) = Ok (st_loglik st') /\
    set_row (st_PT st) t (trans fp) = Ok (st_PT st') /\
    set_slice (st_PpT st) t Pp = Ok (st_PpT st') /\
    set_row (st_FT st) t (trans ff) = Ok (st_FT st') /\
    set_slice (st_PfT st) t Pf = Ok (st_PfT st') /\
    st_fp st' = mmul A ff /\
    st_Pp st' = madd (mmul (mmul A Pf) (trans A)) Q /\
    st_C st' = C /\ st_R st' = R /\
    (n_cols C = n_rows Pp /\ n_cols Pp = n_cols C /\
     n_rows C = n_rows R /\ n_rows C = n_cols R /\
     n_cols C = n_rows fp /\ n_cols fp = 1 /\ n_rows C = n_rows S /\
     n_rows fp = n_rows Pp /\ n_cols S = n_rows C /\
     n_cols A = n_rows fp /\ n_cols A = n_rows Pp /\
     n_rows A = n_rows Q /\ n_rows A = n_cols Q).

(** What the step adds to the log-likelihood when a row is all missing:
    the constant term for [n] channels, the logarithm of the determinant of
    the empty matrix and an empty quadratic form. *)
Definition all_missing_increment (n : nat) : F :=
  opp half ⊗ (of_nat n ⊗ log (two ⊗ pi) ⊖ log one ⊕ zero).

(** The shapes a state of the filter loop has before step [t], for a model
    with [r] states: the prediction is r x 1 and r x r, the transition and
    state-noise matrices are r x r, the loading has a column for every index
    in [nmiss], and the histories have a slot [t] of the right shape. *)
Definition step_ready X tC A Q (nmiss : list nat) (t : Z) st : Prop :=
  let r := n_rows (st_Pp st) in
  (0 <= t < Z.of_nat (n_rows X))%Z /\
  Forall (fun j => j < n_cols tC) nmiss /\ length nmiss = r /\
  n_cols (st_Pp st) = r /\ n_rows (st_fp st) = r /\ n_cols (st_fp st) = 1 /\
  n_rows A = r /\ n_cols A = r /\ n_rows Q = r /\ n_cols Q = r /\
  (t < Z.of_nat (n_rows (st_PT st)))%Z /\ n_cols (st_PT st) = r /\
  (t < Z.of_nat (n_rows (st_FT st)))%Z /\ n_cols (st_FT st) = r /\
  (t < Z.of_nat (n_slices (st_PpT st)))%Z /\
  c_rows (st_PpT st) = r /\ c_cols (st_PpT st) = r /\
  (t < Z.of_nat (n_slices (st_PfT st)))%Z /\
  c_rows (st_PfT st) = r /\ c_cols (st_PfT st) = r.

(** Slot [t] of the filtered histories holds what slot [t] of the predicted
    histories holds. *)
Definition pure_prediction_at (Fh Ph : mat F) (Pfh Pph : cube F) (t : Z) : Prop :=
  exists f P, row Fh t = Ok f /\ row Ph t = Ok f /\
              slice Pfh t = Ok P /\ slice Pph t = Ok P.

(** [C] is the loading restricted to the channels observed at [t] and the
    states in [nmiss], [S] the inverse of the innovation covariance
    C * Pp * C' + R of those channels and [xe] their innovation. *)
Definition innovation_of X tC tR (nmiss : list nat) (t : Z) st (C S xe : mat F)
    : Prop :=
  exists Xt R Xs,
    row X t = Ok Xt /\
    submat tC (find_finite Xt) nmiss = Ok C /\
    submat tR (find_finite Xt) (find_finite Xt) = Ok R /\
    inv (madd (mmul (mmul C (st_Pp st)) (trans C)) R) = Ok S /\
    submat X [Z.to_nat t] (find_finite Xt) = Ok Xs /\
    xe = msub (trans Xs) (mmul C (st_fp st)).

(** The increment as the code computes it, from the determinant [d] of [S]
    and the quadratic form [qf] = xe' * S * xe. *)
Definition loglik_increment (n : nat) (d qf : F) : F :=
  opp half ⊗ (of_nat n ⊗ log (two ⊗ pi) ⊖ log d ⊕ qf).

(** The increment as the claim writes it, with the quadratic form taken
    through the inverse of [S]. *)
Definition increment_as_claimed (n : nat) (S xe : mat F) : res F :=
  d <- det S ;;
  Sinv <- inv S ;;
  xetSi <- mtimes (trans xe) Sinv ;;
  q <- mtimes xetSi xe ;;
  qs <- as_scalar q ;;
  Ok (loglik_increment n d qs).

(** [J] is the smoother gain of time [t]: Pf_t * A' * (Pp_{t+1})^-1. *)
Definition gain_at A PfT PpT (t : Z) (J : mat F) : Prop :=
  exists Pf Pp1 Pp1i,
    slice PfT t = Ok Pf /\ slice PpT (t + 1) = Ok Pp1 /\ inv Pp1 = Ok Pp1i /\
    J = mmul (mmul Pf (trans A)) Pp1i.

(** The Rauch-Tung-Striebel equations at time [t], for smoothed histories
    [Fs], [Ps] and gains [J]; means are the rows of [FT], [PT] and [Fs], read
    as column vectors. *)
Definition rts_at FT PT PfT PpT (J : cube F) (Fs : mat F) (Ps : cube F) (t : Z)
    : Prop :=
  exists Jt f fs fs1 p1 Pf Pst Ps1 Pp1,
    slice J t = Ok Jt /\
    row FT t = Ok f /\ row Fs t = Ok fs /\ row Fs (t + 1) = Ok fs1 /\
    row PT (t + 1) = Ok p1 /\
    slice PfT t = Ok Pf /\ slice Ps t = Ok Pst /\ slice Ps (t + 1) = Ok Ps1 /\
    slice PpT (t + 1) = Ok Pp1 /\
    trans fs = madd (trans f) (mmul Jt (msub (trans fs1) (trans p1))) /\
    Pst = madd Pf (mmul (mmul Jt (msub Ps1 Pp1)) (trans Jt)).

(** The Rauch-Tung-Striebel equations at time [t] between the filter's
    histories and smoothed histories [Fs], [Ps]: with
    J = Pf_t * A' * (Pp_{t+1})^-1,
    Fs_t = F_t + J * (Fs_{t+1} - P_{t+1}) on the means as column vectors and
    Ps_t = Pf_t + J * (Ps_{t+1} - Pp_{t+1}) * J'. *)
Definition rts_equations (A FT PT : mat F) (PfT PpT : cube F) (Fs : mat F)
    (Ps : cube F) (t : Z) : Prop :=
  exists J f fs fs1 p1 Pf Pst Ps1 Pp1 Pp1i,
    row FT t = Ok f /\ row Fs t = Ok fs /\ row Fs (t + 1) = Ok fs1 /\
    row PT (t + 1) = Ok p1 /\
    slice PfT t = Ok Pf /\ slice Ps t = Ok Pst /\ slice Ps (t + 1) = Ok Ps1 /\
    slice PpT (t + 1) = Ok Pp1 /\ inv Pp1 = Ok Pp1i /\
    J = mmul (mmul Pf (trans A)) Pp1i /\
    trans fs = madd (trans f) (mmul J (msub (trans fs1) (trans p1))) /\
    Pst = madd Pf (mmul (mmul J (msub Ps1 Pp1)) (trans J)).

(** Smoothed histories that start from the last filtered pair and satisfy the
    equations at every earlier time. *)
Definition smoothed_by_rts (A FT PT : mat F) (PfT PpT : cube F) (Fs : mat F)
    (Ps : cube F) : Prop :=
  let T := Z.of_nat (n_rows FT) in
  (exists f, row FT (T - 1) = Ok f /\ row Fs (T - 1) = Ok f) /\
  (exists Pf, slice PfT (T - 1) = Ok Pf /\ slice Ps (T - 1) = Ok Pf) /\
  forall t, (0 <= t <= T - 2)%Z -> rts_equations A FT PT PfT PpT Fs Ps t.

(** The first two lag-one slices are still the zero matrix. *)
Definition lag_one_head_is_zero (rp : nat) (PsTm : cube F) : Prop :=
  slice PsTm 0 = Ok (zeros rp rp) /\ slice PsTm 1 = Ok (zeros rp rp).

(** [g1] is [g] less the term of time [t]: the outer product of the smoothed
    mean with itself plus the smoothed covariance. *)
Definition leaves_out (Fs : mat F) (Ps : cube F) (t : Z) (g g1 : mat F) : Prop :=
  exists f P, row Fs t = Ok f /\ slice Ps t = Ok P /\
              g1 = msub g (madd (mmul (trans f) f) P).

(** A finite symmetric matrix. *)
Definition cov_ok (M : mat F) : Prop := symmetric M /\ mat_finite M = true.

(** Every slice of a history is finite and symmetric. *)
Definition cube_cov_ok (H : cube F) : Prop :=
  forall k M, slice H k = Ok M -> cov_ok M.

(** The model matrices are finite, the loading and the transition matrix are
    well formed, and the two noise covariances are symmetric. *)
Definition model_ok (C Q R A : mat F) : Prop :=
  wf C = true /\ mat_finite C = true /\ wf A = true /\ mat_finite A = true /\
  cov_ok Q /\ cov_ok R.

(** The gains are well formed and finite. *)
Definition cube_finite (H : cube F) : Prop :=
  forall k M, slice H k = Ok M -> wf M = true /\ mat_finite M = true.

(** The composition the specification describes: KalmanFilter, then
    KalmanSmoother on the full [A], [C], [R] and the filter's histories. *)
Definition filter_then_smoother (X C Q R A F0 P0 : mat F) : res (fused_out F) :=
  kf <- KalmanFilter X C Q R A F0 P0 ;;
  sm <- KalmanSmoother A C R (kf_F kf) (kf_P kf) (kf_Pf kf) (kf_Pp kf) ;;
  Ok (FusedOut (ks_Fs sm) (ks_Ps sm) (ks_PsTm sm) (kf_loglik kf)).

(** *** The recursions of the forward pass *)

(** Slot [t+1] of the predicted histories is the one-step forecast from slot
    [t] of the filtered histories: A * F_t on the means as column vectors and
    A * Pf_t * A' + Q. *)
Definition predicted_from_filtered (A Q : mat F) (Fh Ph : mat F) (Pfh Pph : cube F)
    (t : Z) : Prop :=
  exists f Pf, row Fh t = Ok f /\ slice Pfh t = Ok Pf /\
    row Ph (t + 1) = Ok (trans (mmul A (trans f))) /\
    slice Pph (t + 1) = Ok (madd (mmul (mmul A Pf) (trans A)) Q).

(** Slot [t] of the filtered histories is the Kalman update of slot [t] of
    the predicted histories by the channels observed at [t]: with [C] and [R]
    restricted to those channels, S = (C * Pp_t * C' + R)^-1 and
    K = Pp_t * C' * S,
    F_t = P_t + K * (x_t - C * P_t) and Pf_t = Pp_t - K * C * Pp_t. *)
Definition updated_at X tC tR (nmiss : list nat) (Fh Ph : mat F) (Pfh Pph : cube F)
    (t : Z) : Prop :=
  exists Xt Xs C R S p Pp f Pf,
    row X t = Ok Xt /\
    submat tC (find_finite Xt) nmiss = Ok C /\
    submat tR (find_finite Xt) (find_finite Xt) = Ok R /\
    submat X [Z.to_nat t] (find_finite Xt) = Ok Xs /\
    row Ph t = Ok p /\ slice Pph t = Ok Pp /\
    row Fh t = Ok f /\ slice Pfh t = Ok Pf /\
    inv (madd (mmul (mmul C Pp) (trans C)) R) = Ok S /\
    trans f = madd (trans p)
                (mmul (mmul (mmul Pp (trans C)) S)
                   (msub (trans Xs) (mmul C (trans p)))) /\
    Pf = msub Pp (mmul (mmul (mmul (mmul Pp (trans C)) S) C) Pp).

(** The same update with nothing restricted: the full loading [C], the full
    observation-noise covariance [R] and the whole row x_t of [X]. *)
Definition full_update_at X C R (Fh Ph : mat F) (Pfh Pph : cube F) (t : Z) : Prop :=
  exists x p Pp f Pf S,
    row X t = Ok x /\
    row Ph t = Ok p /\ slice Pph t = Ok Pp /\
    row Fh t = Ok f /\ slice Pfh t = Ok Pf /\
    inv (madd (mmul (mmul C Pp) (trans C)) R) = Ok S /\
    trans f = madd (trans p)
                (mmul (mmul (mmul Pp (trans C)) S)
                   (msub (trans x) (mmul C (trans p)))) /\
    Pf = msub Pp (mmul (mmul (mmul (mmul Pp (trans C)) S) C) Pp).

(** The step of time [t] moves the running log-likelihood from [l] to [l']:
    with the restricted [C] and [R] of that time, S the inverse of the
    innovation covariance taken at slot [t] of the predicted histories and
    xe the innovation, it adds -1/2 * (n * log(2 pi) - log det S + xe' S xe)
    when det S > 0 and nothing otherwise. *)
Definition loglik_step_at X tC tR (nmiss : list nat) (Ph : mat F) (Pph : cube F)
    (t : Z) (l l' : F) : Prop :=
  exists Xt Xs C R S p Pp d,
    row X t = Ok Xt /\
    submat tC (find_finite Xt) nmiss = Ok C /\
    submat tR (find_finite Xt) (find_finite Xt) = Ok R /\
    submat X [Z.to_nat t] (find_finite Xt) = Ok Xs /\
    row Ph t = Ok p /\ slice Pph t = Ok Pp /\
    inv (madd (mmul (mmul C Pp) (trans C)) R) = Ok S /\ det S = Ok d /\
    (gt d zero = true /\
     (exists qf,
        as_scalar (mmul (mmul (trans (msub (trans Xs) (mmul C (trans p)))) S)
                     (msub (trans Xs) (mmul C (trans p)))) = Ok qf /\
        l' = l ⊕ loglik_increment (n_cols X) d qf) \/
     gt d zero = false /\ l' = l).

(** Cell (i, j) of slice [t] of a history. *)
Definition cube_elem (H : cube F) (t i j : nat) : F :=
  match slices H !! t with
  | Some M => elem M i j
  | None => zero
  end.

(** A history of [s] slices, each of shape [r] x [c]. *)
Definition cube_shape (H : cube F) (r c s : nat) : Prop :=
  c_rows H = r /\ c_cols H = c /\ n_slices H = s /\
  forall k M, slice H k = Ok M -> n_rows M = r /\ n_cols M = c.

(** A well-formed [r] x [c] matrix. *)
Definition mat_shape (M : mat F) (r c : nat) : Prop :=
  wf M = true /\ n_rows M = r /\ n_cols M = c.

(** The first row of [A], from which the filter takes the state indices it
    keeps, has no non-finite cell. *)
Definition first_row_finite A : Prop :=
  forall j, j < n_cols A -> is_finite (elem A 0 j) = true.

(** A model with [r] states, [r] at least one: the transition matrix, the
    state-noise covariance and the initial covariance are r x r, the initial
    mean is r x 1 and the loading has at least [r] columns. *)
Definition model_shapes (C Q A F0 P0 : mat F) (r : nat) : Prop :=
  1 <= r /\ n_rows A = r /\ n_cols A = r /\ n_rows Q = r /\ n_cols Q = r /\
  n_rows P0 = r /\ n_cols P0 = r /\ n_rows F0 = r /\ n_cols F0 = 1 /\
  r <= n_cols C.

(** A state of the filter loop for a model of [r] states and a series of
    [T] rows: the prediction is a well-formed r x 1 mean and a finite r x r
    covariance, and the histories have the shapes of their declarations. *)
Definition filter_state_ok (r T : nat) st : Prop :=
  mat_shape (st_fp st) r 1 /\ mat_shape (st_Pp st) r r /\
  mat_finite (st_Pp st) = true /\
  mat_shape (st_FT st) T r /\ mat_shape (st_PT st) (S T) r /\
  cube_shape (st_PfT st) r r T /\ cube_shape (st_PpT st) r r (S T).

(** Row [t] of [X] has no missing value. *)
Definition row_observed X (t : Z) : Prop :=
  forall j, j < n_cols X -> is_finite (elem X (Z.to_nat t) j) = true.

(** No row of [X] holds a finite cell. *)
Definition series_all_missing X : Prop :=
  forall t, (0 <= t < Z.of_nat (n_rows X))%Z -> row_all_missing X t.

(** [X'] has the finite cells of [X], with the same values, and non-finite
    cells where [X] has them, whatever they hold. *)
Definition same_observations (X X' : mat F) : Prop :=
  n_rows X' = n_rows X /\ n_cols X' = n_cols X /\
  forall i j, i < n_rows X -> j < n_cols X ->
    is_finite (elem X' i j) = is_finite (elem X i j) /\
    (is_finite (elem X i j) = true -> elem X' i j = elem X i j).

(** [X'] has the shape of [X] and non-finite cells exactly where [X] has
    them; the finite cells may hold other values. *)
Definition same_pattern (X X' : mat F) : Prop :=
  n_rows X' = n_rows X /\ n_cols X' = n_cols X /\
  forall i j, i < n_rows X -> j < n_cols X ->
    is_finite (elem X' i j) = is_finite (elem X i j).

(** [X'] has the shape of [X] and the same rows before row [k]. *)
Definition same_rows_before (X X' : mat F) (k : Z) : Prop :=
  n_rows X' = n_rows X /\ n_cols X' = n_cols X /\
  forall i j, (Z.of_nat i < k)%Z -> i < n_rows X -> j < n_cols X ->
    elem X' i j = elem X i j.

(** The covariances a state of the filter loop carries, and the restricted
    matrices: what does not depend on the observed values. *)
Definition same_covariances (a b : filter_state F) : Prop :=
  st_Pp a = st_Pp b /\ st_C a = st_C b /\ st_R a = st_R b /\
  st_PpT a = st_PpT b /\ st_PfT a = st_PfT b.

(** The same for a state of the backward pass: everything but the smoothed
    means. *)
Definition same_smoothed_covariances (a b : smoother_state F) : Prop :=
  sm_J a = sm_J b /\ sm_L a = sm_L b /\ sm_K a = sm_K b /\
  sm_PsTm a = sm_PsTm b /\ sm_PsT a = sm_PsT b.

(** *** Finite values *)

(** A well-formed matrix without a non-finite cell. *)
Definition mat_ok (M : mat F) : Prop := wf M = true /\ mat_finite M = true.

(** The six matrices of the model are well formed and finite. *)
Definition model_finite (C Q R A F0 P0 : mat F) : Prop :=
  mat_ok C /\ mat_ok Q /\ mat_ok R /\ mat_ok A /\ mat_ok F0 /\ mat_ok P0.

(** Every matrix a state of the filter loop holds is well formed and
    finite. *)
Definition filter_state_finite st : Prop :=
  mat_ok (st_fp st) /\ mat_ok (st_Pp st) /\ mat_ok (st_C st) /\ mat_ok (st_R st) /\
  mat_ok (st_FT st) /\ mat_ok (st_PT st) /\
  cube_finite (st_PfT st) /\ cube_finite (st_PpT st).

(** The same for a state of the backward pass and for the accumulators of
    the E-step. *)
Definition smoother_state_finite (s : smoother_state F) : Prop :=
  cube_finite (sm_J s) /\ cube_finite (sm_L s) /\ cube_finite (sm_K s) /\
  cube_finite (sm_PsTm s) /\ mat_ok (sm_FsT s) /\ cube_finite (sm_PsT s).

Definition estep_acc_finite (acc : estep_acc F) : Prop :=
  mat_ok (acc_delta acc) /\ mat_ok (acc_gamma acc) /\ mat_ok (acc_beta acc).

(** *** The lag-one recursion of the backward pass *)

(** [K] is the Kalman gain of time [t] on the loading [C]:
    Pp_t * C' * (C * Pp_t * C' + R)^-1. *)
Definition kalman_gain_at C R PpT (t : Z) (K : mat F) : Prop :=
  exists Pp L, slice PpT t = Ok Pp /\
    inv (madd (mmul (mmul C Pp) (trans C)) R) = Ok L /\
    K = mmul (mmul Pp (trans C)) L.

(** The last lag-one cross-covariance: (I - K_{T-1} * C) * A * Pf_{T-2}. *)
Definition lag_one_last A C R PfT PpT (rp : nat) (T : Z) (W : cube F) : Prop :=
  exists K Pf2, kalman_gain_at C R PpT (T - 1) K /\ slice PfT (T - 2) = Ok Pf2 /\
    slice W (T - 1) = Ok (mmul (mmul (msub (eye rp rp) (mmul K C)) A) Pf2).

(** The lag-one recursion at time [t] with the gains held in [J]:
    W_t = Pf_t * J_{t-1}' + J_t * (W_{t+1} - A * Pf_t) * J_{t-1}'. *)
Definition lag_at A PfT (J W : cube F) (t : Z) : Prop :=
  exists Pf Jp Jt W1,
    slice PfT t = Ok Pf /\ slice J (t - 1) = Ok Jp /\ slice J t = Ok Jt /\
    slice W (t + 1) = Ok W1 /\
    slice W t = Ok (madd (mmul Pf (trans Jp))
                      (mmul (mmul Jt (msub W1 (mmul A Pf))) (trans Jp))).

(** The same with the gains spelled out: J_t = Pf_t * A' * (Pp_{t+1})^-1. *)
Definition lag_one_at A PfT PpT (W : cube F) (t : Z) : Prop :=
  exists Pf Jp Jt W1,
    slice PfT t = Ok Pf /\
    gain_at A PfT PpT (t - 1) Jp /\ gain_at A PfT PpT t Jt /\
    slice W (t + 1) = Ok W1 /\
    slice W t = Ok (madd (mmul Pf (trans Jp))
                      (mmul (mmul Jt (msub W1 (mmul A Pf))) (trans Jp))).

End Statements.

(** * Properties *)

(** ** Results and loops *)

Lemma bind_Ok {A B : Type} (m : res A) (k : A -> res B) (b : B) :
  bind m k = Ok b -> exists a, m = Ok a /\ k a = Ok b.
Proof. destruct m as [a|e]; simpl; [eauto | discriminate]. Qed.

Lemma Ok_inj {A : Type} (a b : A) : Ok a = Ok b -> a = b.
Proof. by intros [= ->]. Qed.

Lemma bind_Err {A B : Type} (m : res A) (k : A -> res B) (e : error) :
  m = Err e -> bind m k = Err e.
Proof. intros ->. reflexivity. Qed.

(** Take a successful run apart, one operation at a time. *)
Ltac inv_bind H :=
  repeat match type of H with
         | bind _ _ = Ok _ =>
             let x := fresh "x" in
             let Hx := fresh "Hx" in
             apply bind_Ok in H as (x & Hx & H)
         end.

Lemma range_nil (lo hi : Z) : (hi <= lo)%Z -> range lo hi = [].
Proof.
  intros Hle. unfold range.
  replace (Z.to_nat (hi - lo)) with 0%nat by lia. reflexivity.
Qed.

Lemma range_cons (lo hi : Z) :
  (lo < hi)%Z -> range lo hi = lo :: range (lo + 1) hi.
Proof.
  intros Hlt. unfold range.
  replace (Z.to_nat (hi - lo)) with (S (Z.to_nat (hi - (lo + 1)))) by lia.
  rewrite <- cons_seq, <- seq_shift. simpl. rewrite map_map. f_equal; [lia|].
  apply map_ext. intros k. lia.
Qed.

Lemma range_snoc (lo hi : Z) :
  (lo <= hi)%Z -> range lo (hi + 1) = range lo hi ++ [hi].
Proof.
  intros Hle. unfold range.
  replace (Z.to_nat (hi + 1 - lo)) with (S (Z.to_nat (hi - lo))) by lia.
  rewrite seq_S, map_app. simpl. do 2 f_equal. lia.
Qed.

Lemma in_range (lo hi i : Z) : In i (range lo hi) <-> (lo <= i < hi)%Z.
Proof.
  unfold range. rewrite in_map_iff. split.
  - intros (k & <- & Hk). apply in_seq in Hk. lia.
  - intros Hi. exists (Z.to_nat (i - lo)). split; [lia|]. apply in_seq. lia.
Qed.

Lemma for_each_app {S : Type} (l1 l2 : list Z) (body : Z -> S -> res S) (s : S) :
  for_each (l1 ++ l2) body s = (s' <- for_each l1 body s ;; for_each l2 body s').
Proof.
  revert s. induction l1 as [|i l1 IH]; intros s; simpl; [reflexivity|].
  destruct (body i s) as [s1|e]; simpl; [apply IH | reflexivity].
Qed.

(** A property kept by every iteration holds after the loop. *)
Lemma for_each_invariant {S : Type} (P : S -> Prop) (idx : list Z)
    (body : Z -> S -> res S) :
  (forall i s s', In i idx -> P s -> body i s = Ok s' -> P s') ->
  forall s s', P s -> for_each idx body s = Ok s' -> P s'.
Proof.
  induction idx as [|i idx IH]; intros Hstep s s' Hs Hrun; simpl in Hrun.
  - congruence.
  - apply bind_Ok in Hrun as (s1 & H1 & Hrun).
    apply (IH (fun k a b Hk => Hstep k a b (or_intror Hk)) s1 s'); [|exact Hrun].
    apply (Hstep i s s1); [left; reflexivity | exact Hs | exact H1].
Qed.

(** The same for a property that depends on the counter: [P i] holds before
    iteration [i], and [P hi] after the loop. *)
Lemma for_loop_invariant {S : Type} (P : Z -> S -> Prop) (lo hi : Z)
    (body : Z -> S -> res S) :
  (lo <= hi)%Z ->
  (forall i s s', (lo <= i < hi)%Z -> P i s -> body i s = Ok s' -> P (i + 1)%Z s') ->
  forall s s', P lo s -> for_loop lo hi body s = Ok s' -> P hi s'.
Proof.
  intros Hle Hstep. unfold for_loop.
  remember (Z.to_nat (hi - lo)) as n eqn:Hn.
  revert lo Hle Hstep Hn. induction n as [|n IH]; intros lo Hle Hstep Hn s s' Hs Hrun.
  - assert (lo = hi) as -> by lia. rewrite range_nil in Hrun by lia.
    simpl in Hrun. congruence.
  - rewrite range_cons in Hrun by lia. simpl in Hrun.
    apply bind_Ok in Hrun as (s1 & H1 & Hrun).
    apply (IH (lo + 1)%Z) with (s := s1); try lia; [|eauto with lia|exact Hrun].
    intros i a b Hi. apply Hstep. lia.
Qed.

(** The loop succeeds when every iteration does on states that satisfy the
    invariant. *)
Lemma for_loop_total {S : Type} (P : Z -> S -> Prop) (lo hi : Z)
    (body : Z -> S -> res S) :
  (lo <= hi)%Z ->
  (forall i s, (lo <= i < hi)%Z -> P i s ->
     exists s', body i s = Ok s' /\ P (i + 1)%Z s') ->
  forall s, P lo s -> exists s', for_loop lo hi body s = Ok s' /\ P hi s'.
Proof.
  intros Hle Hstep. unfold for_loop.
  remember (Z.to_nat (hi - lo)) as n eqn:Hn.
  revert lo Hle Hstep Hn. induction n as [|n IH]; intros lo Hle Hstep Hn s Hs.
  - assert (lo = hi) as -> by lia. rewrite range_nil by lia. simpl. eauto.
  - rewrite range_cons by lia. simpl.
    destruct (Hstep lo s) as (s1 & -> & H1); [lia | exact Hs |]. simpl.
    apply (IH (lo + 1)%Z); try lia; [|exact H1].
    intros i a Hi. apply Hstep. lia.
Qed.

(** ** Cells and shapes *)

Section MatrixFacts.
Context {F : Type} {SF : Scalar F}.
Implicit Types M N A B : mat F.

Lemma elem_build (r c : nat) (f : nat -> nat -> F) (i j : nat) :
  i < r -> j < c -> elem (build r c f) i j = f i j.
Proof.
  intros Hi Hj. unfold elem, build. simpl.
  rewrite (nth_indep _ [] (map (f 0) (seq 0 c))) by (rewrite length_map, length_seq; lia).
  rewrite (map_nth (fun i => map (f i) (seq 0 c)) (seq 0 r) 0 i), seq_nth by lia.
  simpl.
  rewrite (nth_indep _ zero (f i 0)) by (rewrite length_map, length_seq; lia).
  rewrite (map_nth (f i) (seq 0 c) 0 j), seq_nth by lia. reflexivity.
Qed.

Lemma build_ext (r c : nat) (f g : nat -> nat -> F) :
  (forall i j, i < r -> j < c -> f i j = g i j) -> build r c f = build r c g.
Proof.
  intros Hfg. unfold build. f_equal.
  apply map_ext_in. intros i Hi. apply in_seq in Hi.
  apply map_ext_in. intros j Hj. apply in_seq in Hj.
  apply Hfg; lia.
Qed.

Lemma wf_build (r c : nat) (f : nat -> nat -> F) : wf (build r c f) = true.
Proof.
  unfold wf, build. simpl. rewrite length_map, length_seq, Nat.eqb_refl. simpl.
  apply forallb_forall. intros x Hx. apply in_map_iff in Hx as (i & <- & _).
  rewrite length_map, length_seq. apply Nat.eqb_refl.
Qed.

Lemma wf_length M : wf M = true -> length (mem M) = n_rows M.
Proof. unfold wf. intros H. apply andb_true_iff in H as [H _]. by apply Nat.eqb_eq. Qed.

Lemma wf_row_length M (i : nat) :
  wf M = true -> i < n_rows M -> length (nth i (mem M) []) = n_cols M.
Proof.
  unfold wf. intros H Hi. apply andb_true_iff in H as [Hl H].
  apply Nat.eqb_eq in Hl. rewrite forallb_forall in H.
  apply Nat.eqb_eq, H, nth_In. lia.
Qed.

(** A well-formed matrix is the table of its cells. *)
Lemma build_elem M : wf M = true -> build (n_rows M) (n_cols M) (elem M) = M.
Proof.
  intros Hwf. destruct M as [r c rows]. unfold build. simpl. f_equal.
  pose proof (wf_length _ Hwf) as Hlen. simpl in Hlen.
  apply (nth_ext _ _ [] []); [by rewrite length_map, length_seq|].
  intros i Hi. rewrite length_map, length_seq in Hi.
  rewrite (nth_indep _ [] (map (elem (Mat r c rows) 0) (seq 0 c)))
    by (rewrite length_map, length_seq; lia).
  rewrite (map_nth (fun i => map (elem (Mat r c rows) i) (seq 0 c)) (seq 0 r) 0 i).
  rewrite seq_nth by lia. simpl.
  pose proof (wf_row_length _ i Hwf Hi) as Hrow. simpl in Hrow.
  apply (nth_ext _ _ zero zero); [by rewrite length_map, length_seq|].
  intros j Hj. rewrite length_map, length_seq in Hj.
  rewrite (nth_indep _ zero (elem (Mat r c rows) i 0))
    by (rewrite length_map, length_seq; lia).
  rewrite (map_nth (elem (Mat r c rows) i) (seq 0 c) 0 j), seq_nth by lia.
  reflexivity.
Qed.

(** Two well-formed matrices of one shape with the same cells are equal. *)
Lemma mat_ext M N :
  wf M = true -> wf N = true ->
  n_rows M = n_rows N -> n_cols M = n_cols N ->
  (forall i j, i < n_rows M -> j < n_cols M -> elem M i j = elem N i j) ->
  M = N.
Proof.
  intros HM HN Hr Hc Hcells.
  rewrite <- (build_elem M HM), <- (build_elem N HN), <- Hr, <- Hc.
  by apply build_ext.
Qed.

Lemma mat_finite_build (r c : nat) (f : nat -> nat -> F) :
  (forall i j, i < r -> j < c -> is_finite (f i j) = true) ->
  mat_finite (build r c f) = true.
Proof.
  intros Hf. unfold mat_finite, build. simpl.
  apply forallb_forall. intros x Hx. apply in_map_iff in Hx as (i & <- & Hi).
  apply in_seq in Hi.
  apply forallb_forall. intros y Hy. apply in_map_iff in Hy as (j & <- & Hj).
  apply in_seq in Hj. apply Hf; lia.
Qed.

Lemma mat_finite_elem M (i j : nat) :
  wf M = true -> mat_finite M = true -> i < n_rows M -> j < n_cols M ->
  is_finite (elem M i j) = true.
Proof.
  intros Hwf Hfin Hi Hj. unfold mat_finite in Hfin.
  rewrite forallb_forall in Hfin.
  assert (In (nth i (mem M) []) (mem M)) as Hrow
    by (apply nth_In; rewrite wf_length; [lia | done]).
  specialize (Hfin _ Hrow). rewrite forallb_forall in Hfin.
  apply Hfin. unfold elem. apply nth_In. rewrite wf_row_length; [lia | done | lia].
Qed.

(** *** Transposition *)

Lemma elem_trans M (i j : nat) :
  i < n_cols M -> j < n_rows M -> elem (trans M) i j = elem M j i.
Proof. intros Hi Hj. unfold trans. by rewrite elem_build. Qed.

Lemma trans_trans M : wf M = true -> trans (trans M) = M.
Proof.
  intros Hwf. apply mat_ext; [apply wf_build | done | done | done |].
  simpl. intros i j Hi Hj. rewrite elem_trans by (simpl; lia).
  by rewrite elem_trans.
Qed.

Lemma symmetric_wf M : trans M = M -> wf M = true.
Proof. intros <-. apply wf_build. Qed.

Lemma symmetric_square M : trans M = M -> n_rows M = n_cols M.
Proof. intros H. by rewrite <- H at 1. Qed.

Lemma symmetric_elem M (i j : nat) :
  trans M = M -> i < n_rows M -> j < n_rows M -> elem M i j = elem M j i.
Proof.
  intros H Hi Hj. pose proof (symmetric_square M H) as Hsq.
  rewrite <- H at 1. apply elem_trans; lia.
Qed.

Lemma symmetric_intro M :
  wf M = true -> n_rows M = n_cols M ->
  (forall i j, i < n_rows M -> j < n_rows M -> elem M i j = elem M j i) ->
  trans M = M.
Proof.
  intros Hwf Hsq Hcells. apply mat_ext; [apply wf_build | done | simpl; lia | simpl; lia |].
  simpl. intros i j Hi Hj. rewrite elem_trans by lia. apply Hcells; lia.
Qed.

Lemma trans_zeros (r : nat) : trans (zeros r r) = zeros r r.
Proof.
  apply symmetric_intro; [apply wf_build | done |].
  simpl. intros i j Hi Hj. unfold zeros. by rewrite !elem_build.
Qed.

Lemma trans_madd A B :
  n_rows A = n_rows B -> n_cols A = n_cols B ->
  trans (madd A B) = madd (trans A) (trans B).
Proof.
  intros Hr Hc. unfold madd at 2. simpl. unfold trans at 1. simpl.
  apply build_ext. intros i j Hi Hj.
  unfold madd. rewrite elem_build by lia. rewrite !elem_trans by lia. reflexivity.
Qed.

Lemma trans_msub A B :
  n_rows A = n_rows B -> n_cols A = n_cols B ->
  trans (msub A B) = msub (trans A) (trans B).
Proof.
  intros Hr Hc. unfold msub at 2. simpl. unfold trans at 1. simpl.
  apply build_ext. intros i j Hi Hj.
  unfold msub. rewrite elem_build by lia. rewrite !elem_trans by lia. reflexivity.
Qed.

(** *** What a successful operation says about shapes *)

Lemma mtimes_Ok A B M :
  mtimes A B = Ok M -> n_cols A = n_rows B /\ M = mmul A B.
Proof.
  unfold mtimes. destruct (n_cols A =? n_rows B) eqn:E; [|discriminate].
  apply Nat.eqb_eq in E. intros [= <-]. done.
Qed.

Lemma same_size_true A B :
  same_size A B = true <-> n_rows A = n_rows B /\ n_cols A = n_cols B.
Proof. unfold same_size. rewrite andb_true_iff, !Nat.eqb_eq. done. Qed.

Lemma mplus_Ok A B M :
  mplus A B = Ok M -> n_rows A = n_rows B /\ n_cols A = n_cols B /\ M = madd A B.
Proof.
  unfold mplus. destruct (same_size A B) eqn:E; [|discriminate].
  apply same_size_true in E as [? ?]. intros [= <-]. done.
Qed.

Lemma mminus_Ok A B M :
  mminus A B = Ok M -> n_rows A = n_rows B /\ n_cols A = n_cols B /\ M = msub A B.
Proof.
  unfold mminus. destruct (same_size A B) eqn:E; [|discriminate].
  apply same_size_true in E as [? ?]. intros [= <-]. done.
Qed.

Lemma mtimes_eq A B : n_cols A = n_rows B -> mtimes A B = Ok (mmul A B).
Proof. intros H. unfold mtimes. by rewrite H, Nat.eqb_refl. Qed.

Lemma mplus_eq A B :
  n_rows A = n_rows B -> n_cols A = n_cols B -> mplus A B = Ok (madd A B).
Proof.
  intros Hr Hc. unfold mplus.
  by rewrite (proj2 (same_size_true A B) (conj Hr Hc)).
Qed.

Lemma mminus_eq A B :
  n_rows A = n_rows B -> n_cols A = n_cols B -> mminus A B = Ok (msub A B).
Proof.
  intros Hr Hc. unfold mminus.
  by rewrite (proj2 (same_size_true A B) (conj Hr Hc)).
Qed.

Lemma Z_range_true (i : Z) (n : nat) :
  (0 <=? i)%Z && (i <? Z.of_nat n)%Z = true <-> (0 <= i < Z.of_nat n)%Z.
Proof. rewrite andb_true_iff, Z.leb_le, Z.ltb_lt. done. Qed.

Lemma row_Ok M (i : Z) (v : mat F) :
  row M i = Ok v ->
  (0 <= i < Z.of_nat (n_rows M))%Z /\
  v = build 1 (n_cols M) (fun _ j => elem M (Z.to_nat i) j).
Proof.
  unfold row. destruct (_ && _) eqn:E; [|discriminate].
  apply Z_range_true in E. intros [= <-]. done.
Qed.

Lemma row_eq M (i : Z) :
  (0 <= i < Z.of_nat (n_rows M))%Z ->
  row M i = Ok (build 1 (n_cols M) (fun _ j => elem M (Z.to_nat i) j)).
Proof. intros H. unfold row. by rewrite (proj2 (Z_range_true _ _) H). Qed.

Lemma set_row_Ok M (i : Z) (v M' : mat F) :
  set_row M i v = Ok M' ->
  (0 <= i < Z.of_nat (n_rows M))%Z /\ n_rows v = 1 /\ n_cols v = n_cols M /\
  M' = build (n_rows M) (n_cols M)
         (fun a b => if a =? Z.to_nat i then elem v 0 b else elem M a b).
Proof.
  unfold set_row. destruct (_ && _) eqn:E; [|discriminate].
  apply Z_range_true in E.
  destruct ((n_rows v =? 1) && _) eqn:E2; [|discriminate].
  apply andb_true_iff in E2 as [E2 E3]. apply Nat.eqb_eq in E2, E3.
  intros [= <-]. done.
Qed.

Lemma set_row_eq M (i : Z) (v : mat F) :
  (0 <= i < Z.of_nat (n_rows M))%Z -> n_rows v = 1 -> n_cols v = n_cols M ->
  set_row M i v =
  Ok (build (n_rows M) (n_cols M)
        (fun a b => if a =? Z.to_nat i then elem v 0 b else elem M a b)).
Proof.
  intros H H1 H2. unfold set_row.
  by rewrite (proj2 (Z_range_true _ _) H), H1, H2, !Nat.eqb_refl.
Qed.

(** Reading back the row just written, and any other row. *)
Lemma row_set_row_same M (i : Z) (v M' : mat F) :
  set_row M i v = Ok M' -> wf v = true -> row M' i = Ok v.
Proof.
  intros H Hv. apply set_row_Ok in H as (Hi & Hr & Hc & ->).
  rewrite row_eq by (simpl; lia). f_equal. simpl.
  apply mat_ext; [apply wf_build | done | simpl; lia | simpl; lia |].
  simpl. intros a b Ha Hb. rewrite !elem_build by lia.
  rewrite Nat.eqb_refl. by replace a with 0 by lia.
Qed.

Lemma row_set_row_other M (i k : Z) (v M' : mat F) :
  set_row M i v = Ok M' -> k <> i -> row M' k = row M k.
Proof.
  intros H Hk. apply set_row_Ok in H as (Hi & Hr & Hc & ->).
  unfold row. simpl. destruct (_ && _) eqn:E; [|done].
  apply Z_range_true in E. f_equal. apply build_ext. intros a b Ha Hb.
  rewrite elem_build by lia.
  destruct (Z.to_nat k =? Z.to_nat i) eqn:E2; [|done].
  apply Nat.eqb_eq in E2. lia.
Qed.

Lemma set_row_shape M (i : Z) (v M' : mat F) :
  set_row M i v = Ok M' -> n_rows M' = n_rows M /\ n_cols M' = n_cols M.
Proof. intros H. apply set_row_Ok in H as (_ & _ & _ & ->). done. Qed.

(** *** Cubes *)

Lemma slice_Ok (Q : cube F) (i : Z) M :
  slice Q i = Ok M -> (0 <= i)%Z /\ slices Q !! Z.to_nat i = Some M.
Proof.
  unfold slice. destruct (0 <=? i)%Z eqn:E; [|discriminate].
  apply Z.leb_le in E. destruct (slices Q !! Z.to_nat i) eqn:E2; [|discriminate].
  intros [= <-]. done.
Qed.

Lemma slice_eq (Q : cube F) (i : Z) M :
  (0 <= i)%Z -> slices Q !! Z.to_nat i = Some M -> slice Q i = Ok M.
Proof. intros H H2. unfold slice. apply Z.leb_le in H. by rewrite H, H2. Qed.

Lemma slice_in_bounds (Q : cube F) (i : Z) M :
  slice Q i = Ok M -> (0 <= i < Z.of_nat (n_slices Q))%Z.
Proof.
  intros H. apply slice_Ok in H as [H0 H]. apply lookup_lt_Some in H.
  unfold n_slices. lia.
Qed.

Lemma set_slice_Ok (Q Q' : cube F) (i : Z) M :
  set_slice Q i M = Ok Q' ->
  (0 <= i < Z.of_nat (n_slices Q))%Z /\ n_rows M = c_rows Q /\ n_cols M = c_cols Q /\
  Q' = Cube (c_rows Q) (c_cols Q) (<[Z.to_nat i := M]> (slices Q)).
Proof.
  unfold set_slice. destruct (_ && _) eqn:E; [|discriminate].
  apply Z_range_true in E.
  destruct ((n_rows M =? c_rows Q) && _) eqn:E2; [|discriminate].
  apply andb_true_iff in E2 as [E2 E3]. apply Nat.eqb_eq in E2, E3.
  intros [= <-]. done.
Qed.

Lemma set_slice_eq (Q : cube F) (i : Z) M :
  (0 <= i < Z.of_nat (n_slices Q))%Z -> n_rows M = c_rows Q -> n_cols M = c_cols Q ->
  set_slice Q i M = Ok (Cube (c_rows Q) (c_cols Q) (<[Z.to_nat i := M]> (slices Q))).
Proof.
  intros H H1 H2. unfold set_slice.
  by rewrite (proj2 (Z_range_true _ _) H), H1, H2, !Nat.eqb_refl.
Qed.

Lemma slice_set_slice_same (Q Q' : cube F) (i : Z) M :
  set_slice Q i M = Ok Q' -> slice Q' i = Ok M.
Proof.
  intros H. apply set_slice_Ok in H as (Hi & _ & _ & ->).
  apply slice_eq; [lia|]. simpl. apply list_lookup_insert_eq.
  unfold n_slices in Hi. lia.
Qed.

Lemma slice_set_slice_other (Q Q' : cube F) (i k : Z) M :
  set_slice Q i M = Ok Q' -> k <> i -> slice Q' k = slice Q k.
Proof.
  intros H Hk. apply set_slice_Ok in H as (Hi & _ & _ & ->).
  unfold slice. simpl. destruct (0 <=? k)%Z eqn:E; [|done].
  apply Z.leb_le in E. rewrite list_lookup_insert_ne by lia. done.
Qed.

Lemma set_slice_shape (Q Q' : cube F) (i : Z) M :
  set_slice Q i M = Ok Q' ->
  c_rows Q' = c_rows Q /\ c_cols Q' = c_cols Q /\ n_slices Q' = n_slices Q.
Proof.
  intros H. apply set_slice_Ok in H as (_ & _ & _ & ->).
  unfold n_slices. simpl. by rewrite length_insert.
Qed.

Lemma slice_cube_zeros (r c s : nat) (i : Z) :
  (0 <= i < Z.of_nat s)%Z -> slice (cube_zeros r c s) i = Ok (zeros r c).
Proof.
  intros Hi. apply slice_eq; [lia|]. simpl. apply lookup_replicate. split; [done | lia].
Qed.

Lemma n_slices_cube_zeros (r c s : nat) : n_slices (cube_zeros r c s) = s.
Proof. unfold n_slices. simpl. apply length_replicate. Qed.

End MatrixFacts.

(** *** Shapes of the results, as rewrite rules *)

Section Shapes.
Context {F : Type} {SF : Scalar F}.
Implicit Types M A B : mat F.

Lemma n_rows_build (r c : nat) (f : nat -> nat -> F) : n_rows (build r c f) = r.
Proof. reflexivity. Qed.
Lemma n_cols_build (r c : nat) (f : nat -> nat -> F) : n_cols (build r c f) = c.
Proof. reflexivity. Qed.
Lemma n_rows_trans M : n_rows (trans M) = n_cols M.
Proof. reflexivity. Qed.
Lemma n_cols_trans M : n_cols (trans M) = n_rows M.
Proof. reflexivity. Qed.
Lemma n_rows_mmul A B : n_rows (mmul A B) = n_rows A.
Proof. reflexivity. Qed.
Lemma n_cols_mmul A B : n_cols (mmul A B) = n_cols B.
Proof. reflexivity. Qed.
Lemma n_rows_madd A B : n_rows (madd A B) = n_rows A.
Proof. reflexivity. Qed.
Lemma n_cols_madd A B : n_cols (madd A B) = n_cols A.
Proof. reflexivity. Qed.
Lemma n_rows_msub A B : n_rows (msub A B) = n_rows A.
Proof. reflexivity. Qed.
Lemma n_cols_msub A B : n_cols (msub A B) = n_cols A.
Proof. reflexivity. Qed.
Lemma n_rows_zeros (r c : nat) : n_rows (zeros r c : mat F) = r.
Proof. reflexivity. Qed.
Lemma n_cols_zeros (r c : nat) : n_cols (zeros r c : mat F) = c.
Proof. reflexivity. Qed.
Lemma n_rows_eye (r c : nat) : n_rows (eye r c : mat F) = r.
Proof. reflexivity. Qed.
Lemma n_cols_eye (r c : nat) : n_cols (eye r c : mat F) = c.
Proof. reflexivity. Qed.

Lemma wf_trans M : wf (trans M) = true.
Proof. apply wf_build. Qed.
Lemma wf_mmul A B : wf (mmul A B) = true.
Proof. apply wf_build. Qed.
Lemma wf_madd A B : wf (madd A B) = true.
Proof. apply wf_build. Qed.
Lemma wf_msub A B : wf (msub A B) = true.
Proof. apply wf_build. Qed.
Lemma wf_zeros (r c : nat) : wf (zeros r c : mat F) = true.
Proof. apply wf_build. Qed.
Lemma wf_eye (r c : nat) : wf (eye r c : mat F) = true.
Proof. apply wf_build. Qed.

End Shapes.

Create Rewrite HintDb shape.
Create HintDb wf.

#[export] Hint Rewrite @n_rows_build @n_cols_build @n_rows_trans @n_cols_trans
  @n_rows_mmul @n_cols_mmul @n_rows_madd @n_cols_madd @n_rows_msub @n_cols_msub
  : shape.

#[export] Hint Resolve wf_build wf_trans wf_mmul wf_madd wf_msub wf_zeros wf_eye : wf.

(** Normalise every shape in sight. *)
Ltac shapes := autorewrite with shape in *.

(** ** Matrix algebra in exact arithmetic *)

Section MatrixAlgebra.
Context {F : Type} {SF : Scalar F} {SL : ScalarLaws F}.
Implicit Types M N A B C : mat F.

Lemma add_0_l (x : F) : zero ⊕ x = x.
Proof. rewrite add_comm. apply add_0_r. Qed.

Lemma mul_0_l (x : F) : is_finite x = true -> zero ⊗ x = zero.
Proof. intros H. rewrite mul_comm. by apply mul_0_r. Qed.

Lemma mul_add_distr_r (x y z : F) : (x ⊕ y) ⊗ z = x ⊗ z ⊕ y ⊗ z.
Proof. by rewrite (mul_comm _ z), mul_add_distr_l, !(mul_comm z). Qed.

Lemma sum_n_ext (n : nat) (f g : nat -> F) :
  (forall k, k < n -> f k = g k) -> sum_n n f = sum_n n g.
Proof.
  induction n as [|n IH]; intros H; simpl; [done|].
  rewrite IH by (intros; apply H; lia). by rewrite H by lia.
Qed.

Lemma sum_n_zero (n : nat) : sum_n n (fun _ => zero : F) = zero.
Proof. induction n as [|n IH]; simpl; [done|]. by rewrite IH, add_0_r. Qed.

Lemma sum_n_finite (n : nat) (f : nat -> F) :
  (forall k, k < n -> is_finite (f k) = true) -> is_finite (sum_n n f) = true.
Proof.
  induction n as [|n IH]; intros H; simpl; [apply finite_zero|].
  apply finite_add; [apply IH; intros; apply H; lia | apply H; lia].
Qed.

Lemma sum_n_add (n : nat) (f g : nat -> F) :
  sum_n n (fun k => f k ⊕ g k) = sum_n n f ⊕ sum_n n g.
Proof.
  induction n as [|n IH]; simpl; [by rewrite add_0_r|].
  rewrite IH. rewrite <- !add_assoc. f_equal.
  rewrite !add_assoc. f_equal. apply add_comm.
Qed.

Lemma sum_n_mul_r (n : nat) (f : nat -> F) (c : F) :
  is_finite c = true -> sum_n n f ⊗ c = sum_n n (fun k => f k ⊗ c).
Proof.
  intros Hc. induction n as [|n IH]; simpl; [by apply mul_0_l|].
  by rewrite mul_add_distr_r, IH.
Qed.

Lemma sum_n_mul_l (n : nat) (f : nat -> F) (c : F) :
  is_finite c = true -> c ⊗ sum_n n f = sum_n n (fun k => c ⊗ f k).
Proof.
  intros Hc. induction n as [|n IH]; simpl; [by apply mul_0_r|].
  by rewrite mul_add_distr_l, IH.
Qed.

Lemma sum_n_swap (n m : nat) (f : nat -> nat -> F) :
  sum_n n (fun i => sum_n m (fun j => f i j)) =
  sum_n m (fun j => sum_n n (fun i => f i j)).
Proof.
  induction n as [|n IH]; simpl; [by rewrite sum_n_zero|].
  by rewrite IH, sum_n_add.
Qed.

(** *** Shapes and finiteness of the results *)

Lemma mmul_finite A B :
  wf A = true -> wf B = true -> mat_finite A = true -> mat_finite B = true ->
  n_cols A = n_rows B -> mat_finite (mmul A B) = true.
Proof.
  intros HA HB HfA HfB Hd. apply mat_finite_build. intros i j Hi Hj.
  apply sum_n_finite. intros k Hk.
  apply finite_mul; apply mat_finite_elem; try done; lia.
Qed.

Lemma madd_finite A B :
  wf A = true -> wf B = true -> mat_finite A = true -> mat_finite B = true ->
  n_rows A = n_rows B -> n_cols A = n_cols B -> mat_finite (madd A B) = true.
Proof.
  intros HA HB HfA HfB Hr Hc. apply mat_finite_build. intros i j Hi Hj.
  apply finite_add; apply mat_finite_elem; try done; lia.
Qed.

Lemma msub_finite A B :
  wf A = true -> wf B = true -> mat_finite A = true -> mat_finite B = true ->
  n_rows A = n_rows B -> n_cols A = n_cols B -> mat_finite (msub A B) = true.
Proof.
  intros HA HB HfA HfB Hr Hc. apply mat_finite_build. intros i j Hi Hj.
  apply finite_sub; apply mat_finite_elem; try done; lia.
Qed.

Lemma trans_finite A :
  wf A = true -> mat_finite A = true -> mat_finite (trans A) = true.
Proof.
  intros HA HfA. apply mat_finite_build. intros i j Hi Hj.
  by apply mat_finite_elem.
Qed.

Lemma zeros_finite (r c : nat) : mat_finite (zeros r c : mat F) = true.
Proof. apply mat_finite_build. intros. apply finite_zero. Qed.

(** *** Products *)

Lemma elem_mmul A B (i j : nat) :
  i < n_rows A -> j < n_cols B ->
  elem (mmul A B) i j = sum_n (n_cols A) (fun k => elem A i k ⊗ elem B k j).
Proof. intros Hi Hj. unfold mmul. by rewrite elem_build. Qed.

Lemma mmul_assoc A B C :
  wf A = true -> wf C = true -> mat_finite A = true -> mat_finite C = true ->
  n_cols A = n_rows B -> n_cols B = n_rows C ->
  mmul (mmul A B) C = mmul A (mmul B C).
Proof.
  intros HA HC HfA HfC Hab Hbc. unfold mmul at 1 3. simpl.
  apply build_ext. intros i j Hi Hj.
  transitivity (sum_n (n_cols B) (fun l =>
                  sum_n (n_cols A) (fun k => elem A i k ⊗ elem B k l ⊗ elem C l j))).
  { apply sum_n_ext. intros l Hl. rewrite elem_mmul by lia.
    apply sum_n_mul_r. apply mat_finite_elem; try done; lia. }
  rewrite sum_n_swap. apply sum_n_ext. intros k Hk.
  rewrite elem_mmul by lia.
  rewrite sum_n_mul_l by (apply mat_finite_elem; try done; lia).
  apply sum_n_ext. intros l Hl. by rewrite mul_assoc.
Qed.

Lemma trans_mmul A B :
  n_cols A = n_rows B -> trans (mmul A B) = mmul (trans B) (trans A).
Proof.
  intros Hab. unfold trans at 1. unfold mmul at 2. simpl.
  apply build_ext. intros i j Hi Hj. shapes. rewrite elem_mmul by lia.
  rewrite <- Hab. apply sum_n_ext. intros k Hk. rewrite !elem_trans by lia. apply mul_comm.
Qed.

(** The product with an identity is the other factor. *)
Lemma sum_n_delta (n i : nat) (f : nat -> F) :
  (forall k, k < n -> is_finite (f k) = true) ->
  sum_n n (fun k => (if i =? k then one else zero) ⊗ f k) =
  if i <? n then f i else zero.
Proof.
  induction n as [|n IH]; intros Hf; simpl; [done|].
  rewrite IH by (intros; apply Hf; lia).
  destruct (i =? n) eqn:E.
  - apply Nat.eqb_eq in E. subst i.
    rewrite (proj2 (Nat.ltb_ge n n)) by lia.
    rewrite (proj2 (Nat.ltb_lt n (S n))) by lia.
    by rewrite add_0_l, mul_comm, mul_1_r.
  - apply Nat.eqb_neq in E. rewrite mul_0_l by (apply Hf; lia). rewrite add_0_r.
    destruct (i <? n) eqn:E2.
    + apply Nat.ltb_lt in E2. by rewrite (proj2 (Nat.ltb_lt i (S n))) by lia.
    + apply Nat.ltb_ge in E2. by rewrite (proj2 (Nat.ltb_ge i (S n))) by lia.
Qed.

Lemma eye_mmul (n : nat) N :
  wf N = true -> mat_finite N = true -> n_rows N = n -> mmul (eye n n) N = N.
Proof.
  intros HN HfN Hn. apply mat_ext; [apply wf_build | done | simpl; lia | done |].
  simpl. intros i j Hi Hj. rewrite elem_mmul by (simpl; lia). simpl.
  transitivity (sum_n n (fun k => (if i =? k then one else zero) ⊗ elem N k j)).
  { apply sum_n_ext. intros k Hk. unfold eye. by rewrite elem_build by lia. }
  rewrite sum_n_delta by (intros; apply mat_finite_elem; try done; lia).
  by rewrite (proj2 (Nat.ltb_lt i n)) by lia.
Qed.

(** A symmetric matrix has a symmetric inverse. *)
Lemma inverse_symmetric M N :
  trans M = M -> wf N = true -> mat_finite M = true -> mat_finite N = true ->
  n_rows N = n_rows M -> n_cols N = n_rows M ->
  mmul M N = eye (n_rows M) (n_rows M) ->
  mmul N M = eye (n_rows M) (n_rows M) ->
  trans N = N.
Proof.
  intros HM HN HfM HfN Hr Hc HMN HNM.
  pose proof (symmetric_wf M HM) as HwM.
  pose proof (symmetric_square M HM) as Hsq.
  assert (mmul (trans N) M = eye (n_rows M) (n_rows M)) as HtNM.
  { rewrite <- HM at 1. rewrite <- trans_mmul by lia. rewrite HMN.
    apply symmetric_intro; [apply wf_build | done |].
    simpl. intros i j Hi Hj. unfold eye. rewrite !elem_build by lia.
    by rewrite (Nat.eqb_sym j i). }
  rewrite <- (eye_mmul (n_rows M) N) at 2 by done.
  rewrite <- HtNM. rewrite mmul_assoc; try done; simpl; try lia.
  - rewrite HMN.
    apply mat_ext; [apply wf_build | apply wf_build | done | done |].
    simpl. intros i j Hi Hj. rewrite elem_mmul by (simpl; lia). simpl.
    transitivity (sum_n (n_rows N) (fun k =>
                    (if j =? k then one else zero) ⊗ elem N k i)).
    { rewrite sum_n_delta by (intros; apply mat_finite_elem; try done; lia).
      rewrite (proj2 (Nat.ltb_lt j (n_rows N))) by lia.
      by rewrite elem_trans by lia. }
    apply sum_n_ext. intros k Hk. rewrite elem_trans by lia.
    unfold eye. rewrite elem_build by lia. rewrite (Nat.eqb_sym k j).
    apply mul_comm.
  - apply wf_build.
  - by apply trans_finite.
Qed.

End MatrixAlgebra.

(** ** The two scalar models satisfy the laws *)

Section CofactorFacts.
Context {F : Type} {SF : Scalar F}.
Variable fdiv : F -> F -> F.
Variable feqb : F -> F -> bool.
Hypothesis feqb_eq : forall x y : F, feqb x y = true -> x = y.

Lemma mat_eqb_eq (M N : mat F) :
  wf M = true -> wf N = true -> mat_eqb feqb M N = true -> M = N.
Proof.
  intros HM HN H. unfold mat_eqb in H. apply andb_true_iff in H as [Hs H].
  apply same_size_true in Hs as [Hr Hc].
  apply mat_ext; try done. intros i j Hi Hj.
  rewrite forallb_forall in H. specialize (H i). rewrite forallb_forall in H.
  apply feqb_eq, H; apply in_seq; lia.
Qed.

Lemma checked_inverse_spec (M N : mat F) :
  checked_inverse fdiv feqb M = Some N ->
  wf N = true /\ n_rows N = n_rows M /\ n_cols N = n_rows M /\
  mat_finite N = true /\
  mmul M N = eye (n_rows M) (n_rows M) /\
  mmul N M = eye (n_rows M) (n_rows M).
Proof.
  unfold checked_inverse. destruct (_ && _) eqn:E; [|discriminate].
  intros [= <-]. apply andb_true_iff in E as [E E3].
  apply andb_true_iff in E as [E1 E2].
  split; [apply wf_build|]. split; [done|]. split; [done|]. split; [done|].
  split; apply mat_eqb_eq; auto with wf.
Qed.

End CofactorFacts.

Module RatFacts.
Import Rat.

Lemma deqb_eq (x y : dbl) : deqb x y = true -> x = y.
Proof.
  destruct x as [a|], y as [b|]; simpl; try discriminate.
  destruct (Qc_eq_dec a b); [congruence | discriminate].
Qed.

#[export] Instance dbl_laws : ScalarLaws dbl.
Proof.
  split; simpl.
  - intros [a|] [b|]; simpl; try done. f_equal. ring.
  - intros [a|] [b|] [c|]; simpl; try done. f_equal. ring.
  - intros [a|]; simpl; try done. f_equal. ring.
  - intros [a|]; simpl; try done. f_equal. ring.
  - intros [a|] [b|] [c|]; simpl; try done. f_equal. ring.
  - intros [a|] [b|]; simpl; try done. f_equal. ring.
  - intros [a|] [b|] [c|]; simpl; try done. f_equal. ring.
  - intros [a|]; simpl; try done. f_equal. ring.
  - intros [a|] [b|] [c|]; simpl; try done. f_equal. ring.
  - intros [a|]; simpl; try done. intros _. f_equal. ring.
  - done.
  - done.
  - intros [a|] [b|]; simpl; done.
  - intros [a|] [b|]; simpl; done.
  - intros [a|] [b|]; simpl; done.
  - reflexivity.
Qed.

#[export] Instance dbl_lapack_laws : LapackLaws dbl.
Proof. split. intros M N. apply checked_inverse_spec, deqb_eq. Qed.

End RatFacts.

Module RealFacts.
Import Real.
Local Open Scope R_scope.

Lemma xeqb_eq (x y : xreal) : xeqb x y = true -> x = y.
Proof.
  destruct x as [a|], y as [b|]; simpl; try discriminate.
  destruct (Req_dec_T a b); [congruence | discriminate].
Qed.

#[export] Instance xreal_laws : ScalarLaws xreal.
Proof.
  split; simpl.
  - intros [a|] [b|]; simpl; try done. f_equal. ring.
  - intros [a|] [b|] [c|]; simpl; try done. f_equal. ring.
  - intros [a|]; simpl; try done. f_equal. ring.
  - intros [a|]; simpl; try done. f_equal. ring.
  - intros [a|] [b|] [c|]; simpl; try done. f_equal. ring.
  - intros [a|] [b|]; simpl; try done. f_equal. ring.
  - intros [a|] [b|] [c|]; simpl; try done. f_equal. ring.
  - intros [a|]; simpl; try done. f_equal. ring.
  - intros [a|] [b|] [c|]; simpl; try done. f_equal. ring.
  - intros [a|]; simpl; try done. intros _. f_equal. ring.
  - done.
  - done.
  - intros [a|] [b|]; simpl; done.
  - intros [a|] [b|]; simpl; done.
  - intros [a|] [b|]; simpl; done.
  - unfold xgt. destruct (Rlt_dec 0 1) as [_|H]; [done | exfalso; apply H; lra].
Qed.

#[export] Instance xreal_lapack_laws : LapackLaws xreal.
Proof. split. intros M N. apply checked_inverse_spec, xeqb_eq. Qed.

End RealFacts.

(** ** The backward pass, loop by loop *)

(** The shape facts and the value of every arithmetic step of a run that
    succeeded. *)
Ltac inv_ops :=
  repeat match goal with
         | H : mtimes _ _ = Ok ?M |- _ =>
             apply mtimes_Ok in H; destruct H as [? H]; try subst M
         | H : mplus _ _ = Ok ?M |- _ =>
             apply mplus_Ok in H; destruct H as (? & ? & H); try subst M
         | H : mminus _ _ = Ok ?M |- _ =>
             apply mminus_Ok in H; destruct H as (? & ? & H); try subst M
         | H : Ok _ = Ok _ |- _ => injection H as H; try subst
         end.

Ltac split_all := repeat match goal with |- _ /\ _ => split end.

Lemma for_loop_empty {S : Type} (lo hi : Z) (body : Z -> S -> res S) (s : S) :
  (hi <= lo)%Z -> for_loop lo hi body s = Ok s.
Proof. intros H. unfold for_loop. by rewrite range_nil. Qed.

Lemma for_loop_invariant_max {S : Type} (P : Z -> S -> Prop) (lo hi : Z)
    (body : Z -> S -> res S) :
  (forall i s s', (lo <= i < hi)%Z -> P i s -> body i s = Ok s' -> P (i + 1)%Z s') ->
  forall s s', P lo s -> for_loop lo hi body s = Ok s' -> P (Z.max lo hi) s'.
Proof.
  intros Hstep s s' Hs Hrun. destruct (Z_le_gt_dec lo hi) as [Hle|Hgt].
  - rewrite Z.max_r by lia. by eapply for_loop_invariant.
  - rewrite Z.max_l by lia. rewrite for_loop_empty in Hrun by lia. congruence.
Qed.

(** A loop that succeeded can be cut before any of its iterations. *)
Lemma for_loop_split {St : Type} (lo hi t : Z) (body : Z -> St -> res St)
    (s s' : St) :
  (lo <= t < hi)%Z -> for_loop lo hi body s = Ok s' ->
  exists s1 s2, for_loop lo t body s = Ok s1 /\ body t s1 = Ok s2 /\
                for_loop (t + 1) hi body s2 = Ok s'.
Proof.
  intros Ht. unfold for_loop.
  remember (Z.to_nat (t - lo)) as n eqn:Hn.
  revert lo s Ht Hn. induction n as [|n IH]; intros lo s Ht Hn Hrun.
  - assert (lo = t) as -> by lia.
    rewrite range_cons in Hrun by lia. simpl in Hrun.
    apply bind_Ok in Hrun as (s2 & H2 & Hrun).
    exists s, s2. rewrite range_nil by lia. done.
  - rewrite range_cons in Hrun by lia. simpl in Hrun.
    apply bind_Ok in Hrun as (sa & Ha & Hrun).
    destruct (IH (lo + 1)%Z sa) as (s1 & s2 & H1 & H2 & H3); [lia | lia | done |].
    exists s1, s2. rewrite (range_cons lo t) by lia. simpl. rewrite Ha. done.
Qed.

Section SmootherFacts.
Context {F : Type} {SF : Scalar F} {LA : Lapack F}.
Implicit Types A C R FT PT : mat F.
Implicit Types PfT PpT : cube F.
Implicit Types s : smoother_state F.

Lemma gain_step_Ok A PfT PpT (t : Z) s s' :
  gain_step A PfT PpT t s = Ok s' ->
  exists Jt, gain_at A PfT PpT t Jt /\ set_slice (sm_J s) t Jt = Ok (sm_J s') /\
    sm_L s' = sm_L s /\ sm_K s' = sm_K s /\ sm_PsTm s' = sm_PsTm s /\
    sm_FsT s' = sm_FsT s /\ sm_PsT s' = sm_PsT s.
Proof.
  unfold gain_step. intros H. inv_bind H. inv_ops. simpl.
  eexists. split; [|done]. unfold gain_at. eauto 10.
Qed.

Lemma gain_loop_Ok A PfT PpT (T : Z) s s' :
  for_loop 0 (T - 1) (gain_step A PfT PpT) s = Ok s' ->
  (forall t, (0 <= t < T - 1)%Z ->
     exists Jt, slice (sm_J s') t = Ok Jt /\ gain_at A PfT PpT t Jt) /\
  sm_L s' = sm_L s /\ sm_K s' = sm_K s /\ sm_PsTm s' = sm_PsTm s /\
  sm_FsT s' = sm_FsT s /\ sm_PsT s' = sm_PsT s.
Proof.
  intros Hrun.
  pose (P := fun (i : Z) (a : smoother_state F) =>
    (forall t, (0 <= t < i)%Z ->
       exists Jt, slice (sm_J a) t = Ok Jt /\ gain_at A PfT PpT t Jt) /\
    sm_L a = sm_L s /\ sm_K a = sm_K s /\ sm_PsTm a = sm_PsTm s /\
    sm_FsT a = sm_FsT s /\ sm_PsT a = sm_PsT s).
  assert (P (Z.max 0 (T - 1)) s') as (HJ & Hrest).
  { apply (for_loop_invariant_max P 0 (T - 1) (gain_step A PfT PpT)) with (s := s);
      [|split; [intros; lia | done]|done].
    intros i a a' Hi (HJ & HL & HK & HW & HFs & HPs) Hstep.
    apply gain_step_Ok in Hstep as (Jt & Hg & Hset & HL' & HK' & HW' & HFs' & HPs').
    split; [|repeat split; congruence].
    intros t Ht. destruct (decide (t = i)) as [->|Hne].
    - exists Jt. split; [|done]. by eapply slice_set_slice_same.
    - destruct (HJ t) as (Jt' & HJt' & Hg'); [lia|]. exists Jt'. split; [|done].
      by rewrite (slice_set_slice_other _ _ _ _ _ Hset Hne). }
  split; [|done]. intros t Ht. apply HJ. lia.
Qed.

Lemma smooth_step_Ok (T : Z) FT PT PfT PpT (j : Z) s s' :
  smooth_step T FT PT PfT PpT j s = Ok s' ->
  exists Jt f fs fs1 p1 Pf Pst Ps1 Pp1,
    slice (sm_J s) (T - j) = Ok Jt /\
    row FT (T - j) = Ok f /\ row (sm_FsT s) (T - j + 1) = Ok fs1 /\
    row PT (T - j + 1) = Ok p1 /\
    slice PfT (T - j) = Ok Pf /\ slice (sm_PsT s) (T - j + 1) = Ok Ps1 /\
    slice PpT (T - j + 1) = Ok Pp1 /\
    wf fs = true /\
    trans fs = madd (trans f) (mmul Jt (msub (trans fs1) (trans p1))) /\
    Pst = madd Pf (mmul (mmul Jt (msub Ps1 Pp1)) (trans Jt)) /\
    set_row (sm_FsT s) (T - j) fs = Ok (sm_FsT s') /\
    set_slice (sm_PsT s) (T - j) Pst = Ok (sm_PsT s') /\
    sm_J s' = sm_J s /\ sm_L s' = sm_L s /\ sm_K s' = sm_K s /\
    sm_PsTm s' = sm_PsTm s.
Proof.
  unfold smooth_step. intros H. inv_bind H. inv_ops. simpl.
  do 9 eexists.
  split_all; try first [eassumption | reflexivity | apply wf_madd].
  rewrite trans_madd by done. rewrite trans_trans by apply wf_mmul.
  by rewrite trans_msub.
Qed.

Lemma rts_at_frame FT PT PfT PpT (J : cube F) (Fs Fs' : mat F) (Ps Ps' : cube F)
    (t : Z) :
  rts_at FT PT PfT PpT J Fs Ps t ->
  row Fs' t = row Fs t -> row Fs' (t + 1) = row Fs (t + 1) ->
  slice Ps' t = slice Ps t -> slice Ps' (t + 1) = slice Ps (t + 1) ->
  rts_at FT PT PfT PpT J Fs' Ps' t.
Proof.
  intros (Jt & f & fs & fs1 & p1 & Pf & Pst & Ps1 & Pp1 & H) E1 E2 E3 E4.
  exists Jt, f, fs, fs1, p1, Pf, Pst, Ps1, Pp1. rewrite E1, E2, E3, E4. exact H.
Qed.

Lemma smooth_loop_Ok (T : Z) FT PT PfT PpT s s' :
  (1 <= T)%Z ->
  for_loop 2 (T + 1) (smooth_step T FT PT PfT PpT) s = Ok s' ->
  (forall t, (0 <= t <= T - 2)%Z ->
     rts_at FT PT PfT PpT (sm_J s) (sm_FsT s') (sm_PsT s') t) /\
  row (sm_FsT s') (T - 1) = row (sm_FsT s) (T - 1) /\
  slice (sm_PsT s') (T - 1) = slice (sm_PsT s) (T - 1) /\
  sm_J s' = sm_J s /\ sm_L s' = sm_L s /\ sm_K s' = sm_K s /\
  sm_PsTm s' = sm_PsTm s.
Proof.
  intros HT Hrun.
  pose (P := fun (j : Z) (a : smoother_state F) =>
    (forall t, (T - j + 1 <= t <= T - 2)%Z ->
       rts_at FT PT PfT PpT (sm_J s) (sm_FsT a) (sm_PsT a) t) /\
    row (sm_FsT a) (T - 1) = row (sm_FsT s) (T - 1) /\
    slice (sm_PsT a) (T - 1) = slice (sm_PsT s) (T - 1) /\
    sm_J a = sm_J s /\ sm_L a = sm_L s /\ sm_K a = sm_K s /\
    sm_PsTm a = sm_PsTm s).
  assert (P (T + 1)%Z s') as (Hrts & Hrest).
  { apply (for_loop_invariant P 2 (T + 1) (smooth_step T FT PT PfT PpT)) with (s := s);
      [lia| |split; [intros; lia | done]|done].
    intros j a a' Hj (Hrts & HF & HP & HJ & HL & HK & HW) Hstep.
    apply smooth_step_Ok in Hstep
      as (Jt & f & fs & fs1 & p1 & Pf & Pst & Ps1 & Pp1 & HJt & Hf & Hfs1 & Hp1 &
          HPf & HPs1 & HPp1 & Hwf & Hmean & Hcov & HsetF & HsetP &
          HJ' & HL' & HK' & HW').
    split; [|split_all; try congruence].
    - intros t Ht. destruct (decide (t = T - j)%Z) as [->|Hne].
      + exists Jt, f, fs, fs1, p1, Pf, Pst, Ps1, Pp1.
        split_all; try done.
        * congruence.
        * by eapply row_set_row_same.
        * rewrite (row_set_row_other _ _ _ _ _ HsetF) by lia. done.
        * by eapply slice_set_slice_same.
        * rewrite (slice_set_slice_other _ _ _ _ _ HsetP) by lia. done.
      + apply (rts_at_frame _ _ _ _ _ (sm_FsT a) _ (sm_PsT a)).
        * apply Hrts. lia.
        * apply (row_set_row_other _ _ _ _ _ HsetF). lia.
        * apply (row_set_row_other _ _ _ _ _ HsetF). lia.
        * apply (slice_set_slice_other _ _ _ _ _ HsetP). lia.
        * apply (slice_set_slice_other _ _ _ _ _ HsetP). lia.
    - rewrite (row_set_row_other _ _ _ _ _ HsetF) by lia. done.
    - rewrite (slice_set_slice_other _ _ _ _ _ HsetP) by lia. done. }
  split; [|done]. intros t Ht. apply Hrts. lia.
Qed.

Lemma innovation_step_Ok C R PpT (i : Z) s s' :
  innovation_step C R PpT i s = Ok s' ->
  sm_J s' = sm_J s /\ sm_PsTm s' = sm_PsTm s /\
  sm_FsT s' = sm_FsT s /\ sm_PsT s' = sm_PsT s.
Proof. unfold innovation_step. intros H. inv_bind H. inv_ops. done. Qed.

Lemma innovation_loop_Ok C R PpT (T : Z) s s' :
  for_loop 0 T (innovation_step C R PpT) s = Ok s' ->
  sm_J s' = sm_J s /\ sm_PsTm s' = sm_PsTm s /\
  sm_FsT s' = sm_FsT s /\ sm_PsT s' = sm_PsT s.
Proof.
  apply (for_each_invariant
    (fun a => sm_J a = sm_J s /\ sm_PsTm a = sm_PsTm s /\
              sm_FsT a = sm_FsT s /\ sm_PsT a = sm_PsT s)); [|done].
  intros i a a' _ (HJ & HW & HF & HP) Hstep.
  apply innovation_step_Ok in Hstep as (HJ' & HW' & HF' & HP').
  split_all; congruence.
Qed.

Lemma lag_one_seed_Ok (T : Z) (rp : nat) A C PfT s s' :
  lag_one_seed T rp A C PfT s = Ok s' ->
  (exists W Pf2, set_slice (sm_PsTm s) (T - 1) W = Ok (sm_PsTm s') /\
                 slice PfT (T - 2) = Ok Pf2) /\
  sm_J s' = sm_J s /\ sm_FsT s' = sm_FsT s /\ sm_PsT s' = sm_PsT s.
Proof. unfold lag_one_seed. intros H. inv_bind H. inv_ops. simpl. eauto 10. Qed.

Lemma lag_one_step_Ok (T : Z) A PfT (j : Z) s s' :
  lag_one_step T A PfT j s = Ok s' ->
  (exists W, set_slice (sm_PsTm s) (T - j) W = Ok (sm_PsTm s')) /\
  sm_J s' = sm_J s /\ sm_FsT s' = sm_FsT s /\ sm_PsT s' = sm_PsT s.
Proof. unfold lag_one_step. intros H. inv_bind H. inv_ops. simpl. eauto 10. Qed.

(** The lag-one loop writes slices [T-2] down to [2] only. *)
Lemma lag_one_loop_Ok (T : Z) A PfT s s' :
  for_loop 2 (T - 1) (lag_one_step T A PfT) s = Ok s' ->
  (forall k, (k < 2 \/ T - 2 < k)%Z -> slice (sm_PsTm s') k = slice (sm_PsTm s) k) /\
  sm_J s' = sm_J s /\ sm_FsT s' = sm_FsT s /\ sm_PsT s' = sm_PsT s.
Proof.
  apply (for_each_invariant
    (fun a => (forall k, (k < 2 \/ T - 2 < k)%Z ->
                 slice (sm_PsTm a) k = slice (sm_PsTm s) k) /\
              sm_J a = sm_J s /\ sm_FsT a = sm_FsT s /\ sm_PsT a = sm_PsT s)); [|done].
  intros j a a' Hj (HW & HJ & HF & HP) Hstep. apply in_range in Hj.
  apply lag_one_step_Ok in Hstep as ((W & Hset) & HJ' & HF' & HP').
  split; [|split_all; congruence].
  intros k Hk. rewrite (slice_set_slice_other _ _ _ _ _ Hset) by lia. by apply HW.
Qed.

(** What a successful backward pass leaves behind. *)
Lemma smoother_pass_Ok (T : Z) (rp n : nat) A C R FT PT PfT PpT s :
  smoother_pass T rp n A C R FT PT PfT PpT = Ok s ->
  (2 <= T)%Z /\
  (exists f, row FT (T - 1) = Ok f /\ row (sm_FsT s) (T - 1) = Ok f) /\
  (exists Pf, slice PfT (T - 1) = Ok Pf /\ slice (sm_PsT s) (T - 1) = Ok Pf) /\
  (forall t, (0 <= t <= T - 2)%Z ->
     (exists Jt, slice (sm_J s) t = Ok Jt /\ gain_at A PfT PpT t Jt) /\
     rts_at FT PT PfT PpT (sm_J s) (sm_FsT s) (sm_PsT s) t) /\
  (forall k, (0 <= k < T - 1)%Z -> (k < 2 \/ T - 2 < k)%Z ->
     slice (sm_PsTm s) k = Ok (zeros rp rp)).
Proof.
  unfold smoother_pass. intros H. inv_bind H.
  rename x into f, Hx into Hf, x0 into Fs0, Hx0 into HFs0, x1 into Pf, Hx1 into HPf,
    x2 into Ps0, Hx2 into HPs0, x3 into s1, Hx3 into H1, x4 into s2, Hx4 into H2,
    x5 into s3, Hx5 into H3, x6 into s4, Hx6 into H4.
  assert (1 <= T)%Z as HT1 by (apply row_Ok in Hf as [? _]; lia).
  apply gain_loop_Ok in H1 as (HJ1 & _ & _ & HW1 & HF1 & HP1). simpl in *.
  apply smooth_loop_Ok in H2 as (Hrts & HF2 & HP2 & HJ2 & _ & _ & HW2); [|done].
  apply innovation_loop_Ok in H3 as (HJ3 & HW3 & HF3 & HP3).
  apply lag_one_seed_Ok in H4 as ((W & Pf2 & Hseed & HPf2) & HJ4 & HF4 & HP4).
  apply lag_one_loop_Ok in H as (HW5 & HJ5 & HF5 & HP5).
  assert (2 <= T)%Z as HT2.
  { apply slice_in_bounds in HPf2. lia. }
  split; [done|]. split_all.
  - exists f. split; [done|]. rewrite HF5, HF4, HF3, HF2, HF1.
    eapply row_set_row_same; [done|]. apply row_Ok in Hf as [_ ->]. apply wf_build.
  - exists Pf. split; [done|]. rewrite HP5, HP4, HP3, HP2, HP1.
    by eapply slice_set_slice_same.
  - intros t Ht. rewrite HJ5, HJ4, HJ3, HJ2, HF5, HF4, HF3, HP5, HP4, HP3.
    split; [apply HJ1; lia | apply Hrts; lia].
  - intros k Hk Hk2. rewrite HW5 by done.
    rewrite (slice_set_slice_other _ _ _ _ _ Hseed) by lia.
    rewrite HW3, HW2, HW1. apply slice_cube_zeros. lia.
Qed.

End SmootherFacts.

(** ** The smoother's outputs (claims C7 and C10) *)

Section SmootherClaims.
Context {F : Type} {SF : Scalar F} {LA : Lapack F}.

Lemma rts_equations_intro (A FT PT : mat F) (PfT PpT J : cube F) (Fs : mat F)
    (Ps : cube F) (t : Z) (Jt : mat F) :
  slice J t = Ok Jt -> gain_at A PfT PpT t Jt ->
  rts_at FT PT PfT PpT J Fs Ps t ->
  rts_equations A FT PT PfT PpT Fs Ps t.
Proof.
  intros HJt (Pf & Pp1 & Pp1i & HPf & HPp1 & Hinv & ->)
    (Jt' & f & fs & fs1 & p1 & Pf' & Pst & Ps1 & Pp1' &
     HJt' & Hf & Hfs & Hfs1 & Hp1 & HPf' & HPst & HPs1 & HPp1' & Hmean & Hcov).
  assert (Jt' = mmul (mmul Pf (trans A)) Pp1i) as -> by congruence.
  assert (Pf' = Pf) as -> by congruence.
  assert (Pp1' = Pp1) as -> by congruence.
  exists (mmul (mmul Pf (trans A)) Pp1i), f, fs, fs1, p1, Pf, Pst, Ps1, Pp1, Pp1i.
  split_all; done.
Qed.

(** C7: the smoothed mean and covariance histories returned by
    KalmanSmoother equal the filtered ones at the last time T-1 and satisfy
    the Rauch-Tung-Striebel equations with gain
    J_t = Pf_t * A' * (Pp_{t+1})^-1 at every t from T-2 down to 0. *)
Theorem C7_smoother_satisfies_rts (A C R FT PT : mat F) (PfT PpT : cube F)
    (out : smoother_out F) :
  KalmanSmoother A C R FT PT PfT PpT = Ok out ->
  smoothed_by_rts A FT PT PfT PpT (ks_Fs out) (ks_Ps out).
Proof.
  unfold KalmanSmoother, array2cube. intros H.
  apply bind_Ok in H as (s & Hpass & [= <-]). simpl.
  apply smoother_pass_Ok in Hpass as (HT & Hlast & Hlastcov & Hrts & _).
  unfold smoothed_by_rts. split; [done|]. split; [done|].
  intros t Ht. destruct (Hrts t Ht) as ((Jt & HJt & Hgain) & Hat).
  by eapply rts_equations_intro.
Qed.

(** C10: for a series of at least three time steps, slices 0 and 1 of the
    lag-one cross-covariance history returned by KalmanSmoother and by
    KalmanFilterSmoother are the zero matrix (the backward loop writes
    slices T-1 down to 2 only), so the slice the E-step reads for t = 1 is
    zero. *)
Theorem C10_lag_one_head_is_zero :
  (forall (A C R FT PT : mat F) (PfT PpT : cube F) (out : smoother_out F),
     KalmanSmoother A C R FT PT PfT PpT = Ok out ->
     (3 <= Z.of_nat (n_rows FT))%Z ->
     lag_one_head_is_zero (n_rows A) (ks_PsTm out)) /\
  (forall (X C Q R A F0 P0 : mat F) (out : fused_out F),
     KalmanFilterSmoother X C Q R A F0 P0 = Ok out ->
     (3 <= Z.of_nat (n_rows X))%Z ->
     lag_one_head_is_zero (n_rows A) (kfs_PsTm out) /\
     slice (array2cube (kfs_PsTm out)) 1 = Ok (zeros (n_rows A) (n_rows A))).
Proof.
  split.
  - intros A C R FT PT PfT PpT out H HT. unfold KalmanSmoother, array2cube in H.
    apply bind_Ok in H as (s & Hpass & [= <-]). simpl.
    apply smoother_pass_Ok in Hpass as (_ & _ & _ & _ & Hzero).
    split; apply Hzero; lia.
  - intros X C Q R A F0 P0 out H HT. unfold KalmanFilterSmoother in H.
    apply bind_Ok in H as (st & Hfilter & H).
    apply bind_Ok in H as (s & Hpass & [= <-]). simpl.
    apply smoother_pass_Ok in Hpass as (_ & _ & _ & _ & Hzero).
    unfold lag_one_head_is_zero, array2cube. split_all; apply Hzero; lia.
Qed.

End SmootherClaims.

Module SmootherWitnesses.
Import Rat Examples RatFacts.

Lemma C7_witness :
  exists out, KalmanSmoother A1 C1 R1 FT4 PT4 PfT4 PpT4 = Ok out /\
    smoothed_by_rts A1 FT4 PT4 PfT4 PpT4 (ks_Fs out) (ks_Ps out).
Proof.
  destruct (KalmanSmoother A1 C1 R1 FT4 PT4 PfT4 PpT4) as [out|e] eqn:E.
  - exists out. split; [reflexivity|].
    exact (C7_smoother_satisfies_rts A1 C1 R1 FT4 PT4 PfT4 PpT4 out E).
  - vm_compute in E. discriminate E.
Defined.

Lemma C10_witness :
  (exists out, KalmanSmoother A1 C1 R1 FT4 PT4 PfT4 PpT4 = Ok out /\
     lag_one_head_is_zero (n_rows A1) (ks_PsTm out)) /\
  (exists out, KalmanFilterSmoother X4 C1 Q1 R1 A1 F01 P01 = Ok out /\
     lag_one_head_is_zero (n_rows A1) (kfs_PsTm out)).
Proof.
  split.
  - destruct (KalmanSmoother A1 C1 R1 FT4 PT4 PfT4 PpT4) as [out|e] eqn:E.
    + exists out. split; [reflexivity|].
      apply (proj1 C10_lag_one_head_is_zero A1 C1 R1 FT4 PT4 PfT4 PpT4 out E).
      vm_compute. discriminate.
    + vm_compute in E. discriminate E.
  - destruct (KalmanFilterSmoother X4 C1 Q1 R1 A1 F01 P01) as [out|e] eqn:E.
    + exists out. split; [reflexivity|].
      apply (proj2 C10_lag_one_head_is_zero X4 C1 Q1 R1 A1 F01 P01 out E).
      vm_compute. discriminate.
    + vm_compute in E. discriminate E.
Defined.

End SmootherWitnesses.

(** ** The forward pass, step by step *)

Section FilterFacts.
Context {F : Type} {SF : Scalar F} {LA : Lapack F}.
Implicit Types X C R A Q tC tR : mat F.
Implicit Types st : filter_state F.

(** *** Finite cells of a row *)

Lemma find_finite_row X (t : Z) (Xt : mat F) :
  row X t = Ok Xt ->
  find_finite Xt =
  List.filter (fun j => is_finite (elem X (Z.to_nat t) j)) (seq 0 (n_cols X)).
Proof.
  intros H. apply row_Ok in H as (Ht & ->). unfold find_finite. shapes.
  rewrite Nat.mul_1_l. apply filter_ext_in. intros j Hj. apply in_seq in Hj.
  unfold elem_linear. shapes.
  rewrite Nat.mod_1_r, Nat.div_1_r. by rewrite elem_build by lia.
Qed.

Lemma filter_none {A : Type} (f : A -> bool) (l : list A) :
  (forall x, In x l -> f x = false) -> List.filter f l = [].
Proof.
  induction l as [|x l IH]; intros H; simpl; [done|].
  rewrite (H x) by (by left). apply IH. intros y Hy. apply H. by right.
Qed.

Lemma filter_all {A : Type} (f : A -> bool) (l : list A) :
  (forall x, In x l -> f x = true) -> List.filter f l = l.
Proof.
  induction l as [|x l IH]; intros H; simpl; [done|].
  rewrite (H x) by (by left). f_equal. apply IH. intros y Hy. apply H. by right.
Qed.

Lemma find_finite_all_missing X (t : Z) (Xt : mat F) :
  row X t = Ok Xt -> row_all_missing X t -> find_finite Xt = [].
Proof.
  intros H Hmiss. rewrite (find_finite_row X t Xt H).
  apply filter_none. intros j Hj. apply in_seq in Hj. apply Hmiss. lia.
Qed.

Lemma find_finite_all_finite X (t : Z) (Xt : mat F) :
  row X t = Ok Xt ->
  (forall j, j < n_cols X -> is_finite (elem X (Z.to_nat t) j) = true) ->
  find_finite Xt = seq 0 (n_cols X).
Proof.
  intros H Hfin. rewrite (find_finite_row X t Xt H).
  apply filter_all. intros j Hj. apply in_seq in Hj. apply Hfin. lia.
Qed.

Lemma submat_Ok (M : mat F) (ri ci : list nat) (N : mat F) :
  submat M ri ci = Ok N ->
  Forall (fun i => i < n_rows M) ri /\ Forall (fun j => j < n_cols M) ci /\
  N = build (length ri) (length ci) (fun i j => elem M (nth i ri 0) (nth j ci 0)).
Proof.
  unfold submat. destruct (_ && _) eqn:E; [|discriminate]. intros [= <-].
  apply andb_true_iff in E as [E1 E2].
  rewrite forallb_forall in E1, E2.
  split_all; [| |done]; apply List.Forall_forall; intros k Hk.
  - by apply Nat.ltb_lt, E1.
  - by apply Nat.ltb_lt, E2.
Qed.

Lemma submat_eq (M : mat F) (ri ci : list nat) :
  Forall (fun i => i < n_rows M) ri -> Forall (fun j => j < n_cols M) ci ->
  submat M ri ci =
  Ok (build (length ri) (length ci) (fun i j => elem M (nth i ri 0) (nth j ci 0))).
Proof.
  intros H1 H2. unfold submat.
  rewrite List.Forall_forall in H1, H2.
  assert (forallb (fun i => i <? n_rows M) ri = true) as ->
    by (apply forallb_forall; intros k Hk; by apply Nat.ltb_lt, H1).
  assert (forallb (fun j => j <? n_cols M) ci = true) as ->
    by (apply forallb_forall; intros k Hk; by apply Nat.ltb_lt, H2).
  done.
Qed.

(** Restricting to every row and every column changes nothing. *)
Lemma submat_full (M : mat F) :
  wf M = true -> submat M (seq 0 (n_rows M)) (seq 0 (n_cols M)) = Ok M.
Proof.
  intros Hwf. rewrite submat_eq.
  - f_equal. rewrite !length_seq.
    transitivity (build (n_rows M) (n_cols M) (elem M)); [|by apply build_elem].
    apply build_ext. intros i j Hi Hj. by rewrite !seq_nth by lia.
  - apply List.Forall_forall. intros k Hk. apply in_seq in Hk. lia.
  - apply List.Forall_forall. intros k Hk. apply in_seq in Hk. lia.
Qed.

Lemma inv_Ok (M N : mat F) :
  inv M = Ok N ->
  n_rows M = n_cols M /\
  (n_rows M = 0 /\ N = zeros 0 0 \/ n_rows M <> 0 /\ lapack_inv M = Some N).
Proof.
  unfold inv, is_square. destruct (n_rows M =? n_cols M) eqn:E; [|discriminate].
  apply Nat.eqb_eq in E. split; [done|].
  destruct (n_rows M =? 0) eqn:E0.
  - apply Nat.eqb_eq in E0. left. by injection H as <-.
  - apply Nat.eqb_neq in E0. right. destruct (lapack_inv M); [|discriminate].
    by injection H as <-.
Qed.

Lemma inv_empty (M : mat F) :
  n_rows M = 0 -> n_cols M = 0 -> inv M = Ok (zeros 0 0).
Proof. intros Hr Hc. unfold inv, is_square. by rewrite Hr, Hc. Qed.

Lemma det_empty (M : mat F) : n_rows M = 0 -> n_cols M = 0 -> det M = Ok one.
Proof. intros Hr Hc. unfold det, is_square. by rewrite Hr, Hc. Qed.

(** *** One filter step that succeeded *)

Lemma filter_step_Ok X tC tR A Q (nmiss : list nat) (n : nat) (t : Z) st st' :
  filter_step X tC tR A Q nmiss n t st = Ok st' ->
  exists C R S xe K ff Pf, step_facts X tC tR A Q nmiss n t st st' C R S xe K ff Pf.
Proof.
  unfold filter_step. intros H. inv_bind H.
  match goal with
  | H1 : set_row (st_FT st) t _ = Ok ?FT, H2 : row ?FT t = Ok _ |- _ =>
      rewrite (row_set_row_same _ _ _ _ H1 (wf_trans _)) in H2
  end.
  match goal with
  | H1 : set_slice (st_PfT st) t _ = Ok ?PfT, H2 : slice ?PfT t = Ok _ |- _ =>
      rewrite (slice_set_slice_same _ _ _ _ H1) in H2
  end.
  inv_ops. simpl. shapes.
  do 7 eexists. unfold step_facts. do 2 eexists.
  split_all; try first [eassumption | reflexivity | lia].
  - by rewrite trans_trans by apply wf_madd.
  - match goal with H : submat X _ _ = Ok ?Xs |- _ =>
      apply submat_Ok in H as (_ & _ & ->) end.
    shapes. simpl in *. lia.
Qed.

End FilterFacts.

(** *** A step at which nothing is observed *)

Section MissingStep.
Context {F : Type} {SF : Scalar F} {LA : Lapack F} {SL : ScalarLaws F}.
Implicit Types X C R A Q tC tR S xe : mat F.
Implicit Types st : filter_state F.

Lemma loglik_update_empty (n : nat) S xe (l : F) :
  n_rows S = 0 -> n_cols S = 0 -> n_rows xe = 0 -> n_cols xe = 1 ->
  loglik_update n S xe l = Ok (l ⊕ all_missing_increment n).
Proof.
  intros HSr HSc Hxr Hxc. unfold loglik_update.
  rewrite det_empty by done. cbn [bind]. rewrite one_gt_zero. cbn [bind].
  rewrite mtimes_eq by (shapes; lia). cbn [bind].
  rewrite mtimes_eq by (shapes; lia). cbn [bind].
  unfold as_scalar. shapes. rewrite Hxc. cbn [Nat.eqb andb bind].
  rewrite elem_mmul by (shapes; lia). shapes. rewrite HSc. done.
Qed.

(** The restricted matrices of such a step are empty. *)
Lemma all_missing_shapes X tC tR A Q (nmiss : list nat) (n : nat) (t : Z) st st'
    (C R S xe K ff Pf : mat F) :
  row_all_missing X t ->
  step_facts X tC tR A Q nmiss n t st st' C R S xe K ff Pf ->
  n_rows C = 0 /\ S = zeros 0 0 /\ n_rows xe = 0 /\ n_cols xe = 1.
Proof.
  intros Hmiss (Xt & Xs & HXt & HC & HR & HS & HXs & -> & _).
  rewrite (find_finite_all_missing X t Xt HXt Hmiss) in *.
  apply submat_Ok in HC as (_ & _ & ->), HR as (_ & _ & ->), HXs as (_ & _ & ->).
  split; [done|]. split.
  - apply inv_Ok in HS as [_ [[_ ->]|[Hne _]]]; [done|]. by shapes.
  - by shapes.
Qed.

Lemma mmul_empty_inner (A B : mat F) :
  n_cols A = 0 -> mmul A B = zeros (n_rows A) (n_cols B).
Proof. intros H. unfold mmul, zeros. apply build_ext. intros. by rewrite H. Qed.

Lemma zeros_mmul (r c : nat) (B : mat F) :
  wf B = true -> mat_finite B = true -> n_rows B = c ->
  mmul (zeros r c) B = zeros r (n_cols B).
Proof.
  intros Hwf Hfin Hr. unfold mmul, zeros at 2. shapes. apply build_ext.
  intros i j Hi Hj. simpl.
  rewrite (sum_n_ext _ _ (fun _ => zero)); [apply sum_n_zero|].
  intros k Hk. unfold zeros. rewrite elem_build by lia.
  apply mul_0_l, mat_finite_elem; try done; lia.
Qed.

Lemma madd_zeros (M : mat F) :
  wf M = true -> madd M (zeros (n_rows M) (n_cols M)) = M.
Proof.
  intros Hwf. apply mat_ext; [apply wf_madd | done | done | done |].
  shapes. intros i j Hi Hj. unfold madd, zeros.
  rewrite !elem_build by lia. apply add_0_r.
Qed.

Lemma msub_zeros (M : mat F) :
  wf M = true -> msub M (zeros (n_rows M) (n_cols M)) = M.
Proof.
  intros Hwf. apply mat_ext; [apply wf_msub | done | done | done |].
  shapes. intros i j Hi Hj. unfold msub, zeros.
  rewrite !elem_build by lia. apply sub_0_r.
Qed.

(** With nothing observed the update returns the prediction. *)
Lemma all_missing_update X tC tR A Q (nmiss : list nat) (n : nat) (t : Z) st st'
    (C R S xe K ff Pf : mat F) :
  row_all_missing X t ->
  step_facts X tC tR A Q nmiss n t st st' C R S xe K ff Pf ->
  wf (st_fp st) = true -> wf (st_Pp st) = true -> mat_finite (st_Pp st) = true ->
  ff = st_fp st /\ Pf = st_Pp st.
Proof.
  intros Hmiss Hfacts Hwfp HwPp HfPp.
  destruct (all_missing_shapes _ _ _ _ _ _ _ _ _ _ _ _ _ _ _ _ _ Hmiss Hfacts)
    as (HC0 & -> & Hxr & Hxc).
  destruct Hfacts as (Xt & Xs & _ & _ & _ & _ & _ & Hxe & -> & -> & -> & _ & _ & _ &
                      _ & _ & _ & _ & _ & _ & Hshapes).
  destruct Hshapes as (H1 & H2 & H3 & H4 & H5 & H6 & H7 & H8 & H9 & _).
  split.
  - rewrite mmul_empty_inner by done. shapes. rewrite Hxc, <- H8, <- H6.
    by apply madd_zeros.
  - rewrite (mmul_empty_inner _ C) by done. shapes.
    rewrite zeros_mmul by done. by apply msub_zeros.
Qed.

End MissingStep.

(** *** The all-missing step cannot fail on a well-shaped state *)

Section MissingStepTotal.
Context {F : Type} {SF : Scalar F} {LA : Lapack F} {SL : ScalarLaws F}.
Implicit Types X C R A Q tC tR : mat F.
Implicit Types st : filter_state F.

Lemma all_missing_step_total X tC tR A Q (nmiss : list nat) (n : nat) (t : Z) st :
  step_ready X tC A Q nmiss t st -> row_all_missing X t ->
  exists st', filter_step X tC tR A Q nmiss n t st = Ok st'.
Proof.
  intros (Ht & Hnm & Hlen & HPc & Hfr & Hfc & HAr & HAc & HQr & HQc &
          HPT & HPTc & HFT & HFTc & HPpT & HPpTr & HPpTc & HPfT & HPfTr & HPfTc)
         Hmiss.
  set (r := n_rows (st_Pp st)) in *.
  unfold filter_step.
  pose proof (row_eq X t Ht) as HXt. rewrite HXt. cbn [bind].
  rewrite (find_finite_all_missing X t _ HXt Hmiss).
  rewrite (submat_eq tC [] nmiss) by (done || constructor). cbn [bind].
  rewrite (submat_eq tR [] []) by constructor. cbn [bind].
  rewrite mtimes_eq by (shapes; simpl; lia). cbn [bind].
  rewrite mtimes_eq by (shapes; simpl; lia). cbn [bind].
  rewrite mplus_eq by (shapes; simpl; lia). cbn [bind].
  rewrite inv_empty by (shapes; simpl; lia). cbn [bind].
  rewrite (submat_eq X [Z.to_nat t] [])
    by (repeat constructor; lia). cbn [bind].
  rewrite mtimes_eq by (shapes; simpl; lia). cbn [bind].
  rewrite mminus_eq by (shapes; simpl; lia). cbn [bind].
  rewrite mtimes_eq by (shapes; simpl; lia). cbn [bind].
  rewrite mtimes_eq by (shapes; simpl; lia). cbn [bind].
  rewrite mtimes_eq by (shapes; simpl; lia). cbn [bind].
  rewrite mplus_eq by (shapes; simpl; lia). cbn [bind].
  rewrite mtimes_eq by (shapes; simpl; lia). cbn [bind].
  rewrite mtimes_eq by (shapes; simpl; lia). cbn [bind].
  rewrite mminus_eq by (shapes; simpl; lia). cbn [bind].
  rewrite loglik_update_empty by (shapes; simpl; lia). cbn [bind].
  rewrite set_row_eq by (shapes; simpl; lia). cbn [bind].
  rewrite set_slice_eq by (shapes; simpl; lia). cbn [bind].
  rewrite set_row_eq by (shapes; simpl; lia). cbn [bind].
  rewrite set_slice_eq by (shapes; simpl; lia). cbn [bind].
  rewrite row_eq by (shapes; simpl; lia). cbn [bind].
  rewrite mtimes_eq by (shapes; simpl; lia). cbn [bind].
  erewrite slice_eq; [| lia |]; cycle 1.
  { cbn [slices]. apply list_lookup_insert_eq. unfold n_slices in HPfT. lia. }
  cbn [bind].
  rewrite mtimes_eq by (shapes; simpl; lia). cbn [bind].
  rewrite mtimes_eq by (shapes; simpl; lia). cbn [bind].
  rewrite mplus_eq by (shapes; simpl; lia). cbn [bind].
  eexists. reflexivity.
Qed.

End MissingStepTotal.

(** *** What the filter loop leaves alone *)

Section FilterLoop.
Context {F : Type} {SF : Scalar F} {LA : Lapack F}.
Implicit Types X C R A Q tC tR : mat F.
Implicit Types st : filter_state F.

(** Step [t] writes slot [t] of the four histories and no other slot, and it
    keeps their shapes. *)
Lemma filter_step_frame X tC tR A Q (nmiss : list nat) (n : nat) (t : Z) st st' :
  filter_step X tC tR A Q nmiss n t st = Ok st' ->
  (forall k, k <> t ->
     row (st_PT st') k = row (st_PT st) k /\
     row (st_FT st') k = row (st_FT st) k /\
     slice (st_PpT st') k = slice (st_PpT st) k /\
     slice (st_PfT st') k = slice (st_PfT st) k) /\
  n_rows (st_PT st') = n_rows (st_PT st) /\
  n_cols (st_PT st') = n_cols (st_PT st) /\
  n_slices (st_PpT st') = n_slices (st_PpT st) /\
  wf (st_fp st') = true /\ wf (st_Pp st') = true.
Proof.
  intros H. apply filter_step_Ok in H as (C & R & S & xe & K & ff & Pf & Hfacts).
  destruct Hfacts as (Xt & Xs & _ & _ & _ & _ & _ & _ & _ & _ & _ & _ &
                      HPT & HPpT & HFT & HPfT & Hfp & HPp & _).
  split_all.
  - intros k Hk. split_all.
    + by apply (row_set_row_other _ _ _ _ _ HPT).
    + by apply (row_set_row_other _ _ _ _ _ HFT).
    + by apply (slice_set_slice_other _ _ _ _ _ HPpT).
    + by apply (slice_set_slice_other _ _ _ _ _ HPfT).
  - by apply set_row_shape in HPT as [? ?].
  - by apply set_row_shape in HPT as [? ?].
  - by apply set_slice_shape in HPpT as (? & ? & ?).
  - rewrite Hfp. apply wf_mmul.
  - rewrite HPp. apply wf_madd.
Qed.

(** The loop from [lo] on leaves every slot before [lo] and every slot from
    [hi] on as it was. *)
Lemma filter_loop_frame X tC tR A Q (nmiss : list nat) (n : nat) (lo hi : Z) st st' :
  for_loop lo hi (filter_step X tC tR A Q nmiss n) st = Ok st' ->
  (forall k, (k < lo \/ hi <= k)%Z ->
     row (st_PT st') k = row (st_PT st) k /\
     row (st_FT st') k = row (st_FT st) k /\
     slice (st_PpT st') k = slice (st_PpT st) k /\
     slice (st_PfT st') k = slice (st_PfT st) k) /\
  n_rows (st_PT st') = n_rows (st_PT st) /\
  n_cols (st_PT st') = n_cols (st_PT st) /\
  n_slices (st_PpT st') = n_slices (st_PpT st).
Proof.
  apply (for_each_invariant (fun a =>
    (forall k, (k < lo \/ hi <= k)%Z ->
       row (st_PT a) k = row (st_PT st) k /\
       row (st_FT a) k = row (st_FT st) k /\
       slice (st_PpT a) k = slice (st_PpT st) k /\
       slice (st_PfT a) k = slice (st_PfT st) k) /\
    n_rows (st_PT a) = n_rows (st_PT st) /\
    n_cols (st_PT a) = n_cols (st_PT st) /\
    n_slices (st_PpT a) = n_slices (st_PpT st))); [|done].
  intros i a a' Hi (Hk & Hr & Hc & Hs) Hstep. apply in_range in Hi.
  apply filter_step_frame in Hstep as (Hk' & Hr' & Hc' & Hs' & _).
  split_all; try congruence.
  intros k Hlt. destruct (Hk' k) as (E1 & E2 & E3 & E4); [lia|].
  destruct (Hk k Hlt) as (E1' & E2' & E3' & E4').
  split_all; congruence.
Qed.

(** Every prediction the loop carries is a well-formed matrix. *)
Lemma filter_loop_wf X tC tR A Q (nmiss : list nat) (n : nat) (lo hi : Z) st st' :
  wf (st_fp st) = true -> wf (st_Pp st) = true ->
  for_loop lo hi (filter_step X tC tR A Q nmiss n) st = Ok st' ->
  wf (st_fp st') = true /\ wf (st_Pp st') = true.
Proof.
  intros Hfp HPp.
  apply (for_each_invariant (fun a => wf (st_fp a) = true /\ wf (st_Pp a) = true));
    [|done].
  intros i a a' _ _ Hstep.
  by apply filter_step_frame in Hstep as (_ & _ & _ & _ & ? & ?).
Qed.

Lemma row_zeros (r c : nat) (k : Z) :
  (0 <= k < Z.of_nat r)%Z -> row (zeros r c : mat F) k = Ok (zeros 1 c).
Proof.
  intros Hk. rewrite row_eq by (simpl; lia). f_equal. apply build_ext.
  intros i j Hi Hj. unfold zeros. rewrite elem_build by lia. done.
Qed.

(** The last slot of the predicted histories is never written. *)
Lemma filter_pass_last_slot X C Q R A F0 P0 st :
  filter_pass X C Q R A F0 P0 = Ok st ->
  let T := Z.of_nat (n_rows X) in
  n_rows (st_PT st) = S (n_rows X) /\ n_slices (st_PpT st) = S (n_rows X) /\
  row (st_PT st) T = Ok (zeros 1 (n_rows A)) /\
  slice (st_PpT st) T = Ok (zeros (n_rows A) (n_rows A)).
Proof.
  unfold filter_pass. intros H. apply bind_Ok in H as (A0 & HA0 & H).
  apply filter_loop_frame in H as (Hk & Hr & _ & Hs). unfold filter_init in *.
  simpl in *.
  replace (Z.to_nat (Z.of_nat (n_rows X) + 1)) with (S (n_rows X)) in * by lia.
  destruct (Hk (Z.of_nat (n_rows X))) as (E1 & _ & E3 & _); [lia|].
  split_all.
  - by rewrite Hr.
  - by rewrite Hs, n_slices_cube_zeros.
  - rewrite E1. apply row_zeros. lia.
  - rewrite E3. apply slice_cube_zeros. lia.
Qed.

End FilterLoop.

(** ** A time step with nothing observed (claims C1 and C6) *)

Section MissingStepClaims.
Context {F : Type} {SF : Scalar F} {LA : Lapack F} {SL : ScalarLaws F}.
Implicit Types X C R A Q tC tR : mat F.
Implicit Types st : filter_state F.

(** Every step stores the prediction it started from. *)
Lemma filter_step_stores_prediction X tC tR A Q (nmiss : list nat) (n : nat) (t : Z)
    st st' :
  filter_step X tC tR A Q nmiss n t st = Ok st' ->
  row (st_PT st') t = Ok (trans (st_fp st)) /\
  slice (st_PpT st') t = Ok (st_Pp st).
Proof.
  intros H. apply filter_step_Ok in H as (C & R & S & xe & K & ff & Pf & Hfacts).
  destruct Hfacts as (Xt & Xs & _ & _ & _ & _ & _ & _ & _ & _ & _ & _ &
                      HPT & HPpT & _).
  split.
  - eapply row_set_row_same; [done | apply wf_trans].
  - by eapply slice_set_slice_same.
Qed.

Lemma all_missing_step_stores X tC tR A Q (nmiss : list nat) (n : nat) (t : Z) st st' :
  row_all_missing X t ->
  filter_step X tC tR A Q nmiss n t st = Ok st' ->
  wf (st_fp st) = true -> wf (st_Pp st) = true -> mat_finite (st_Pp st) = true ->
  row (st_FT st') t = Ok (trans (st_fp st)) /\
  slice (st_PfT st') t = Ok (st_Pp st).
Proof.
  intros Hmiss H Hwfp HwPp HfPp.
  apply filter_step_Ok in H as (C & R & S & xe & K & ff & Pf & Hfacts).
  destruct (all_missing_update _ _ _ _ _ _ _ _ _ _ _ _ _ _ _ _ _
              Hmiss Hfacts Hwfp HwPp HfPp) as (-> & ->).
  destruct Hfacts as (Xt & Xs & _ & _ & _ & _ & _ & _ & _ & _ & _ & _ &
                      _ & _ & HFT & HPfT & _).
  split.
  - eapply row_set_row_same; [done | apply wf_trans].
  - by eapply slice_set_slice_same.
Qed.

(** C1, as amended: at a time step whose row of X is entirely not-a-number
    the running log-likelihood is not left as it was; the step adds
    -1/2 * (n * log(2 pi) - log 1 + 0), the constant term for the full
    channel count n, while the determinant and the quadratic form
    contribute nothing. *)
Theorem C1_all_missing_step_adds_constant_term X tC tR A Q (nmiss : list nat)
    (n : nat) (t : Z) st st' :
  row_all_missing X t ->
  filter_step X tC tR A Q nmiss n t st = Ok st' ->
  st_loglik st' = st_loglik st ⊕ all_missing_increment n.
Proof.
  intros Hmiss H.
  apply filter_step_Ok in H as (C & R & S & xe & K & ff & Pf & Hfacts).
  destruct (all_missing_shapes _ _ _ _ _ _ _ _ _ _ _ _ _ _ _ _ _ Hmiss Hfacts)
    as (_ & -> & Hxr & Hxc).
  destruct Hfacts as (Xt & Xs & _ & _ & _ & _ & _ & _ & _ & _ & _ & Hll & _).
  rewrite loglik_update_empty in Hll by done. by injection Hll.
Qed.

(** C6: at a time step whose row of X is entirely not-a-number the filter
    step does not fail on a well-shaped state, and the filtered mean and
    covariance it stores equal the predicted mean and covariance; so do the
    histories KalmanFilter returns, whenever the predicted covariance of
    that step is finite. *)
Theorem C6_all_missing_step_is_pure_prediction :
  (forall X tC tR A Q (nmiss : list nat) (n : nat) (t : Z) st,
     step_ready X tC A Q nmiss t st ->
     wf (st_fp st) = true -> wf (st_Pp st) = true ->
     mat_finite (st_Pp st) = true ->
     row_all_missing X t ->
     exists st', filter_step X tC tR A Q nmiss n t st = Ok st' /\
       row (st_FT st') t = Ok (trans (st_fp st)) /\
       row (st_PT st') t = Ok (trans (st_fp st)) /\
       slice (st_PfT st') t = Ok (st_Pp st) /\
       slice (st_PpT st') t = Ok (st_Pp st)) /\
  (forall X C Q R A F0 P0 (out : filter_out F) (t : Z),
     KalmanFilter X C Q R A F0 P0 = Ok out ->
     wf F0 = true -> wf P0 = true ->
     (0 <= t < Z.of_nat (n_rows X))%Z ->
     row_all_missing X t ->
     (forall Ppt, slice (kf_Pp out) t = Ok Ppt -> mat_finite Ppt = true) ->
     pure_prediction_at (kf_F out) (kf_P out) (kf_Pf out) (kf_Pp out) t).
Proof.
  split.
  - intros X tC tR A Q nmiss n t st Hready Hwfp HwPp HfPp Hmiss.
    destruct (all_missing_step_total X tC tR A Q nmiss n t st Hready Hmiss)
      as (st' & Hstep).
    exists st'. split; [done|].
    destruct (filter_step_stores_prediction _ _ _ _ _ _ _ _ _ _ Hstep) as (HPT & HPpT).
    destruct (all_missing_step_stores _ _ _ _ _ _ _ _ _ _ Hmiss Hstep Hwfp HwPp HfPp)
      as (HFT & HPfT).
    done.
  - intros X C Q R A F0 P0 out t Hrun HwF0 HwP0 Ht Hmiss Hfin.
    unfold KalmanFilter in Hrun. apply bind_Ok in Hrun as (sT & Hpass & [= <-]).
    simpl in *. unfold filter_pass in Hpass.
    apply bind_Ok in Hpass as (A0 & HA0 & Hloop).
    apply (for_loop_split 0 _ t) in Hloop as (s1 & s2 & Hbefore & Hstep & Hafter);
      [|lia].
    apply filter_loop_wf in Hbefore as (Hwfp & HwPp); [|done|done].
    apply filter_loop_frame in Hafter as (Hframe & _).
    destruct (Hframe t) as (EPT & EFT & EPpT & EPfT); [lia|].
    destruct (filter_step_stores_prediction _ _ _ _ _ _ _ _ _ _ Hstep) as (HPT & HPpT).
    assert (mat_finite (st_Pp s1) = true) as HfPp
      by (apply Hfin; by rewrite EPpT).
    destruct (all_missing_step_stores _ _ _ _ _ _ _ _ _ _ Hmiss Hstep Hwfp HwPp HfPp)
      as (HFT & HPfT).
    exists (trans (st_fp s1)), (st_Pp s1).
    rewrite EPT, EFT, EPpT, EPfT. done.
Qed.

End MissingStepClaims.

Module MissingStepWitnesses.
Import Rat Examples RatFacts.

Lemma Xnan_all_missing : row_all_missing Xnan 0.
Proof. intros j Hj. destruct j; [reflexivity | simpl in Hj; lia]. Qed.

Lemma X4_row1_all_missing : row_all_missing X4 1.
Proof. intros j Hj. destruct j; [reflexivity | simpl in Hj; lia]. Qed.

Lemma C1_witness :
  row_all_missing Xnan 0 /\
  exists st',
    filter_step Xnan C1 R1 A1 Q1 [0] 1 0 (filter_init Xnan C1 R1 A1 F01 P01) = Ok st' /\
    st_loglik st' =
    st_loglik (filter_init Xnan C1 R1 A1 F01 P01) ⊕ all_missing_increment 1.
Proof.
  split; [exact Xnan_all_missing|].
  destruct (filter_step Xnan C1 R1 A1 Q1 [0] 1 0 (filter_init Xnan C1 R1 A1 F01 P01))
    as [st'|e] eqn:E.
  - exists st'. split; [reflexivity|].
    exact (C1_all_missing_step_adds_constant_term Xnan C1 R1 A1 Q1 [0] 1 0 _ st'
             Xnan_all_missing E).
  - vm_compute in E. discriminate E.
Defined.

Lemma Xnan_step_ready :
  step_ready Xnan C1 A1 Q1 [0] 0 (filter_init Xnan C1 R1 A1 F01 P01).
Proof. unfold step_ready. simpl. split_all; try lia; try done. repeat constructor. Qed.

Lemma C6_witness :
  (exists st',
     filter_step Xnan C1 R1 A1 Q1 [0] 1 0 (filter_init Xnan C1 R1 A1 F01 P01) = Ok st' /\
     row (st_FT st') 0 = Ok (trans F01) /\ row (st_PT st') 0 = Ok (trans F01) /\
     slice (st_PfT st') 0 = Ok P01 /\ slice (st_PpT st') 0 = Ok P01) /\
  (exists out, KalmanFilter X4 C1 Q1 R1 A1 F01 P01 = Ok out /\
     pure_prediction_at (kf_F out) (kf_P out) (kf_Pf out) (kf_Pp out) 1).
Proof.
  split.
  - apply (proj1 C6_all_missing_step_is_pure_prediction
             Xnan C1 R1 A1 Q1 [0] 1 0%Z (filter_init Xnan C1 R1 A1 F01 P01)).
    + exact Xnan_step_ready.
    + reflexivity.
    + reflexivity.
    + reflexivity.
    + exact Xnan_all_missing.
  - destruct (KalmanFilter X4 C1 Q1 R1 A1 F01 P01) as [out|e] eqn:E.
    + exists out. split; [reflexivity|].
      apply (proj2 C6_all_missing_step_is_pure_prediction
               X4 C1 Q1 R1 A1 F01 P01 out 1%Z E).
      * reflexivity.
      * reflexivity.
      * simpl. lia.
      * exact X4_row1_all_missing.
      * intros Ppt HPpt. vm_compute in E. injection E as <-.
        vm_compute in HPpt. injection HPpt as <-. reflexivity.
    + vm_compute in E. discriminate E.
Defined.

End MissingStepWitnesses.

Module MissingStepOverReals.
Import Real RealExamples RealFacts.
Local Open Scope R_scope.

Lemma Xnan_all_missing_real : row_all_missing Xnan 0.
Proof. intros j Hj. destruct j; [reflexivity | simpl in Hj; lia]. Qed.

Lemma Xnan_step_ready_real :
  step_ready Xnan C1 A1 Q1 [0%nat] 0 (filter_init Xnan C1 R1 A1 F01 P01).
Proof. unfold step_ready. simpl. split_all; try lia; try done. repeat constructor. Qed.

(** Over the reals the increment of an all-missing step with one channel is
    -1/2 * log(2 pi), which is not zero. *)
Lemma all_missing_increment_real :
  exists x : R, all_missing_increment 1 = RFin x /\ x < 0.
Proof.
  assert (0 < 2 * PI) as Hpos by (pose proof PI_RGT_0; lra).
  assert (0 < ln (2 * PI)) as Hln.
  { rewrite <- ln_1. apply ln_increasing; [lra|]. pose proof PI2_1. lra. }
  unfold all_missing_increment. cbn [opp half of_nat log two pi mul sub add zero one
    xreal_scalar lift2 xlog].
  destruct (Rlt_dec 0 (2 * PI)) as [_|Hn]; [|contradiction].
  destruct (Rlt_dec 0 1) as [_|Hn]; [|exfalso; apply Hn; lra].
  cbn [lift2]. eexists. split; [reflexivity|].
  rewrite ln_1. simpl INR. lra.
Qed.

Lemma A1_nmiss : forall A0, row A1 0 = Ok A0 -> find_finite A0 = [0%nat].
Proof.
  intros A0 H. rewrite (find_finite_all_finite A1 0 A0 H); [reflexivity|].
  intros j Hj. destruct j; [reflexivity | simpl in Hj; lia].
Qed.

(** C1 fails as stated: on the one-channel model of the specification with
    the single observation missing, over the reals, the only step moves the
    running log-likelihood from 0 to -1/2 * log(2 pi), and that is what
    KalmanFilter returns. *)
Lemma C1_counterexample :
  row_all_missing Xnan 0 /\
  exists st' out x,
    filter_step Xnan C1 R1 A1 Q1 [0%nat] 1 0 (filter_init Xnan C1 R1 A1 F01 P01)
      = Ok st' /\
    st_loglik (filter_init Xnan C1 R1 A1 F01 P01) = RFin 0 /\
    st_loglik st' = RFin x /\
    KalmanFilter Xnan C1 Q1 R1 A1 F01 P01 = Ok out /\
    kf_loglik out = RFin x /\ x < 0.
Proof.
  split; [exact Xnan_all_missing_real|].
  destruct (all_missing_step_total Xnan C1 R1 A1 Q1 [0%nat] 1 0%Z _
              Xnan_step_ready_real Xnan_all_missing_real) as (st' & Hstep).
  destruct all_missing_increment_real as (x & Hx & Hneg).
  assert (st_loglik st' = RFin x) as Hll.
  { pose proof Hstep as Hfacts.
    apply filter_step_Ok in Hfacts as (C & R & S & xe & K & ff & Pf & Hfacts).
    destruct (all_missing_shapes _ _ _ _ _ _ _ _ _ _ _ _ _ _ _ _ _
                Xnan_all_missing_real Hfacts) as (_ & -> & Hxr & Hxc).
    destruct Hfacts as (Xt & Xs & _ & _ & _ & _ & _ & _ & _ & _ & _ & Hll & _).
    rewrite loglik_update_empty in Hll by done.
    apply Ok_inj in Hll. rewrite <- Hll, Hx. cbn. f_equal. lra. }
  exists st', (FilterOut (st_FT st') (st_PfT st') (st_PT st') (st_PpT st') (st_loglik st')), x.
  split; [exact Hstep|]. split; [reflexivity|]. split; [exact Hll|].
  split; [|split; [exact Hll | exact Hneg]].
  unfold KalmanFilter, filter_pass.
  destruct (row A1 0) as [A0|e] eqn:HA0; [|discriminate HA0].
  cbn [bind]. rewrite (A1_nmiss A0 HA0).
  change (Z.of_nat (n_rows Xnan)) with 1%Z.
  unfold for_loop. change (range 0 1) with [0%Z]. cbn [for_each n_cols Xnan m11].
  rewrite Hstep. reflexivity.
Qed.

End MissingStepOverReals.

(** ** The log-likelihood increment (claim C5) *)

Section LoglikClaims.
Context {F : Type} {SF : Scalar F} {LA : Lapack F}.
Implicit Types X C R A Q tC tR S xe : mat F.
Implicit Types st : filter_state F.

Lemma loglik_update_Ok (n : nat) S xe (l l' : F) :
  loglik_update n S xe l = Ok l' ->
  exists d, det S = Ok d /\
    (gt d zero = true /\
     (exists qf, as_scalar (mmul (mmul (trans xe) S) xe) = Ok qf /\
                 l' = l ⊕ loglik_increment n d qf) \/
     gt d zero = false /\ l' = l).
Proof.
  unfold loglik_update. intros H. apply bind_Ok in H as (d & Hd & H).
  exists d. split; [done|]. destruct (gt d zero) eqn:Hgt.
  - left. split; [done|]. rewrite Hd in H. cbn [bind] in H.
    inv_bind H. inv_ops. eauto.
  - right. split; [done|]. by injection H.
Qed.

(** C5, as amended: at every time step the increment is added if and only
    if det(S) > 0, and it equals
    -1/2 * (n * log(2 pi) - log det(S) + xe' * S * xe),
    where S is the inverse of the innovation covariance of the observed
    channels, the quadratic form is taken through S itself, and n is the
    number of columns of X, whatever the number of observed channels. *)
Theorem C5_loglik_increment X tC tR A Q (nmiss : list nat) (t : Z) st st' :
  filter_step X tC tR A Q nmiss (n_cols X) t st = Ok st' ->
  exists C S xe d,
    innovation_of X tC tR nmiss t st C S xe /\ det S = Ok d /\
    (gt d zero = true /\
     (exists qf, as_scalar (mmul (mmul (trans xe) S) xe) = Ok qf /\
        st_loglik st' = st_loglik st ⊕ loglik_increment (n_cols X) d qf) \/
     gt d zero = false /\ st_loglik st' = st_loglik st).
Proof.
  intros H. apply filter_step_Ok in H as (C & R & S & xe & K & ff & Pf & Hfacts).
  destruct Hfacts as (Xt & Xs & HXt & HC & HR & HS & HXs & Hxe & _ & _ & _ & Hll & _).
  apply loglik_update_Ok in Hll as (d & Hd & Hcases).
  exists C, S, xe, d. split; [|done].
  exists Xt, R, Xs. done.
Qed.

End LoglikClaims.

Module LoglikWitnesses.
Import Rat Examples RatFacts.

Lemma C5_witness :
  exists st' C S xe d,
    filter_step X1 C1 R1 A1 Q1 [0] (n_cols X1) 0 (filter_init X1 C1 R1 A1 F01 P01)
      = Ok st' /\
    innovation_of X1 C1 R1 [0] 0 (filter_init X1 C1 R1 A1 F01 P01) C S xe /\
    det S = Ok d /\
    (gt d zero = true /\
     (exists qf, as_scalar (mmul (mmul (trans xe) S) xe) = Ok qf /\
        st_loglik st' =
        st_loglik (filter_init X1 C1 R1 A1 F01 P01) ⊕ loglik_increment (n_cols X1) d qf) \/
     gt d zero = false /\
     st_loglik st' = st_loglik (filter_init X1 C1 R1 A1 F01 P01)).
Proof.
  destruct (filter_step X1 C1 R1 A1 Q1 [0] (n_cols X1) 0
              (filter_init X1 C1 R1 A1 F01 P01)) as [st'|e] eqn:E.
  - destruct (C5_loglik_increment X1 C1 R1 A1 Q1 [0] 0 _ st' E)
      as (C & S & xe & d & H).
    exists st', C, S, xe, d. split; [reflexivity | exact H].
  - vm_compute in E. discriminate E.
Defined.

(** C5 fails as stated: with S the inverted innovation covariance, the
    quadratic form of the code is xe' * S * xe, not xe' * S^-1 * xe.  On the
    one-channel model with X = 1 the first step has S = 2/3 and xe = 1: the
    code adds -1/2 * (log(2 pi) - log(2/3) + 2/3), the formula of the claim
    gives -1/2 * (log(2 pi) - log(2/3) + 3/2). *)
Lemma C5_counterexample :
  exists st' C S xe d inc,
    filter_step X1 C1 R1 A1 Q1 [0] (n_cols X1) 0 (filter_init X1 C1 R1 A1 F01 P01)
      = Ok st' /\
    innovation_of X1 C1 R1 [0] 0 (filter_init X1 C1 R1 A1 F01 P01) C S xe /\
    det S = Ok d /\ gt d zero = true /\
    increment_as_claimed (n_cols X1) S xe = Ok inc /\
    st_loglik st' <> st_loglik (filter_init X1 C1 R1 A1 F01 P01) ⊕ inc.
Proof.
  do 6 eexists. split; [vm_compute; reflexivity|]. split.
  { unfold innovation_of. do 3 eexists.
    split; [vm_compute; reflexivity|]. split; [vm_compute; reflexivity|].
    split; [vm_compute; reflexivity|]. split; [vm_compute; reflexivity|].
    split; [vm_compute; reflexivity | reflexivity]. }
  split; [vm_compute; reflexivity|]. split; [vm_compute; reflexivity|].
  split; [vm_compute; reflexivity|].
  intros H. vm_compute in H. congruence.
Qed.

End LoglikWitnesses.

(** ** The leave-one-out moments of the E-step (claim C8) *)

Section EstepClaims.
Context {F : Type} {SF : Scalar F} {LA : Lapack F} {SL : ScalarLaws F}.

Lemma msub_msub (G A B : mat F) :
  n_rows G = n_rows A -> n_cols G = n_cols A ->
  n_rows G = n_rows B -> n_cols G = n_cols B ->
  msub (msub G A) B = msub G (madd A B).
Proof.
  intros Hr Hc Hr' Hc'. unfold msub at 1 3. shapes. apply build_ext.
  intros i j Hi Hj. unfold msub, madd. rewrite !elem_build by lia.
  apply sub_add_distr.
Qed.

(** C8: gamma1 is gamma minus (smoothed mean outer smoothed mean + smoothed
    covariance) of the last time step T-1, and gamma2 is gamma minus the same
    term of the first time step 0. *)
Theorem C8_gamma_leave_one_out (X C Q R A F0 P0 : mat F) (out : estep_out F) :
  Estep X C Q R A F0 P0 = Ok out ->
  exists ks, KalmanFilterSmoother X C Q R A F0 P0 = Ok ks /\
    leaves_out (kfs_Fs ks) (kfs_Ps ks) (Z.of_nat (n_rows X) - 1)
      (es_gamma out) (es_gamma1 out) /\
    leaves_out (kfs_Fs ks) (kfs_Ps ks) 0 (es_gamma out) (es_gamma2 out).
Proof.
  unfold Estep, array2cube. intros H. inv_bind H. inv_ops. simpl.
  eexists. split; [done|]. split.
  - do 2 eexists. split; [eassumption|]. split; [eassumption|].
    apply msub_msub; shapes; lia.
  - do 2 eexists. split; [eassumption|]. split; [eassumption|].
    apply msub_msub; shapes; lia.
Qed.

End EstepClaims.

Module EstepWitnesses.
Import Rat Examples RatFacts.

Lemma C8_witness :
  exists out ks, Estep X4 C1 Q1 R1 A1 F01 P01 = Ok out /\
    KalmanFilterSmoother X4 C1 Q1 R1 A1 F01 P01 = Ok ks /\
    leaves_out (kfs_Fs ks) (kfs_Ps ks) (Z.of_nat (n_rows X4) - 1)
      (es_gamma out) (es_gamma1 out) /\
    leaves_out (kfs_Fs ks) (kfs_Ps ks) 0 (es_gamma out) (es_gamma2 out).
Proof.
  destruct (Estep X4 C1 Q1 R1 A1 F01 P01) as [out|e] eqn:E.
  - destruct (C8_gamma_leave_one_out X4 C1 Q1 R1 A1 F01 P01 out E) as (ks & H).
    exists out, ks. split; [reflexivity | exact H].
  - vm_compute in E. discriminate E.
Defined.

End EstepWitnesses.

(** ** Where the code departs from the specification (claims C2, C4, C9) *)

Section RestrictedLoading.
Context {F : Type} {SF : Scalar F} {LA : Lapack F}.

Lemma filter_length_lt {A : Type} (f : A -> bool) (l : list A) (x : A) :
  In x l -> f x = false -> length (List.filter f l) < length l.
Proof.
  induction l as [|y l IH]; intros Hin Hx; [destruct Hin|]. simpl.
  destruct Hin as [->|Hin].
  - rewrite Hx. pose proof (filter_length_le f l). lia.
  - specialize (IH Hin Hx). destruct (f y); simpl; lia.
Qed.

Lemma find_finite_row_bound (X : mat F) (t : Z) (Xt : mat F) :
  row X t = Ok Xt -> Forall (fun j => j < n_cols X) (find_finite Xt).
Proof.
  intros H. rewrite (find_finite_row X t Xt H). apply List.Forall_forall.
  intros j Hj. apply filter_In in Hj as [Hj _]. apply in_seq in Hj. lia.
Qed.

Lemma mtimes_Err (A B : mat F) :
  n_cols A <> n_rows B -> mtimes A B = Err IncompatibleDims.
Proof. intros H. unfold mtimes. by rewrite (proj2 (Nat.eqb_neq _ _) H). Qed.

(** C9: the claim says the update stays well-defined when the first row of
    A has a non-finite cell.  It does not: the loading is restricted to
    fewer columns than the prediction has rows, and on a model of valid
    shapes the first product C * Pp of the first step raises. *)
Theorem C9_nonfinite_first_row_fails (X C Q R A F0 P0 : mat F) (j : nat) :
  1 <= n_rows X -> 1 <= n_rows A ->
  n_rows C = n_cols X -> n_cols C = n_cols A ->
  n_rows R = n_cols X -> n_cols R = n_cols X ->
  n_rows P0 = n_cols A ->
  j < n_cols A -> is_finite (elem A 0 j) = false ->
  KalmanFilter X C Q R A F0 P0 = Err IncompatibleDims.
Proof.
  intros HT HA HCr HCc HRr HRc HP0 Hj Hnonfin.
  unfold KalmanFilter, filter_pass.
  pose proof (row_eq A 0 ltac:(lia)) as HA0. rewrite HA0. cbn [bind].
  set (A0 := build 1 (n_cols A) _) in *.
  assert (Forall (fun k => k < n_cols A) (find_finite A0)) as Hnm
    by apply (find_finite_row_bound A 0 A0 HA0).
  assert (length (find_finite A0) < n_cols A) as Hlen.
  { rewrite (find_finite_row A 0 A0 HA0).
    pose proof (filter_length_lt (fun k => is_finite (elem A (Z.to_nat 0) k))
                  (seq 0 (n_cols A)) j) as H.
    rewrite length_seq in H. apply H; [apply in_seq; lia | exact Hnonfin]. }
  unfold for_loop. rewrite range_cons by lia. cbn [for_each].
  apply bind_Err. apply bind_Err. unfold filter_step.
  pose proof (row_eq X 0 ltac:(lia)) as HXt. rewrite HXt. cbn [bind].
  set (Xt := build 1 (n_cols X) _) in *.
  pose proof (find_finite_row_bound X 0 Xt HXt) as Hmiss.
  rewrite submat_eq; [| by rewrite HCr | by rewrite HCc]. cbn [bind].
  rewrite submat_eq; [| by rewrite HRr | by rewrite HRc]. cbn [bind].
  rewrite mtimes_Err; [reflexivity|]. unfold filter_init. shapes. simpl. lia.
Qed.

End RestrictedLoading.

Module CodeBugExamples.
Import Rat Examples RatFacts.

Lemma C9_witness : KalmanFilter X1 C1 Q1 R1 Anan F01 P01 = Err IncompatibleDims.
Proof.
  apply (C9_nonfinite_first_row_fails X1 C1 Q1 R1 Anan F01 P01 0);
    simpl; try lia; reflexivity.
Defined.

(** C4: on the scenario of the specification the predicted histories have
    T+1 = 5 slots, and slot 4 holds zeros, not the forecasts A * ff_3 and
    A * Pf_3 * A' + Q. *)
Theorem C4_last_slot_is_zero_not_forecast :
  exists out f3 Pf3,
    KalmanFilter X4 C1 Q1 R1 A1 F01 P01 = Ok out /\
    n_rows (kf_P out) = 5 /\ n_slices (kf_Pp out) = 5 /\
    row (kf_F out) 3 = Ok f3 /\ slice (kf_Pf out) 3 = Ok Pf3 /\
    row (kf_P out) 4 = Ok (zeros 1 1) /\
    slice (kf_Pp out) 4 = Ok (zeros 1 1) /\
    row (kf_P out) 4 <> Ok (trans (mmul A1 (trans f3))) /\
    slice (kf_Pp out) 4 <> Ok (madd (mmul (mmul A1 Pf3) (trans A1)) Q1).
Proof.
  do 3 eexists. split; [vm_compute; reflexivity|].
  split; [reflexivity|]. split; [reflexivity|].
  split; [vm_compute; reflexivity|]. split; [vm_compute; reflexivity|].
  split; [vm_compute; reflexivity|]. split; [vm_compute; reflexivity|].
  split; intros H; vm_compute in H; congruence.
Qed.

(** C2: on a series whose last row has a missing value the fused function
    raises, while KalmanFilter followed by KalmanSmoother on the full C and R
    returns. *)
Theorem C2_fused_fails_where_composition_returns :
  KalmanFilterSmoother X2 C1 Q1 R1 A1 F01 P01 = Err IncompatibleDims /\
  exists kf sm out,
    KalmanFilter X2 C1 Q1 R1 A1 F01 P01 = Ok kf /\
    KalmanSmoother A1 C1 R1 (kf_F kf) (kf_P kf) (kf_Pf kf) (kf_Pp kf) = Ok sm /\
    filter_then_smoother X2 C1 Q1 R1 A1 F01 P01 = Ok out.
Proof.
  split; [vm_compute; reflexivity|].
  do 3 eexists. split_all; vm_compute; reflexivity.
Qed.

End CodeBugExamples.

(** ** Symmetry of the covariances (claim C3) *)

Section SymmetryAlgebra.
Context {F : Type} {SF : Scalar F} {SL : ScalarLaws F}.
Implicit Types M N A B P : mat F.

(** B * P * B' is symmetric when P is. *)
Lemma sandwich_symmetric B P :
  wf B = true -> mat_finite B = true ->
  trans P = P -> mat_finite P = true ->
  n_cols B = n_rows P ->
  trans (mmul (mmul B P) (trans B)) = mmul (mmul B P) (trans B).
Proof.
  intros HwB HfB HP HfP Hshape.
  pose proof (symmetric_square P HP) as Hsq.
  rewrite trans_mmul by (shapes; lia).
  rewrite trans_trans by done.
  rewrite trans_mmul by done. rewrite HP.
  symmetry. apply mmul_assoc; shapes; try done; try lia.
  - apply wf_trans.
  - by apply trans_finite.
Qed.

Lemma sandwich_finite B P :
  wf B = true -> mat_finite B = true ->
  wf P = true -> mat_finite P = true ->
  n_cols B = n_rows P -> n_cols P = n_cols B ->
  mat_finite (mmul (mmul B P) (trans B)) = true.
Proof.
  intros HwB HfB HwP HfP H1 H2.
  apply mmul_finite; shapes; try done; try lia.
  - apply wf_mmul.
  - apply wf_trans.
  - by apply mmul_finite.
  - by apply trans_finite.
Qed.

Lemma madd_symmetric A B :
  trans A = A -> trans B = B -> n_rows A = n_rows B ->
  trans (madd A B) = madd A B.
Proof.
  intros HA HB Hr.
  pose proof (symmetric_square A HA). pose proof (symmetric_square B HB).
  rewrite trans_madd by lia. by rewrite HA, HB.
Qed.

Lemma msub_symmetric A B :
  trans A = A -> trans B = B -> n_rows A = n_rows B ->
  trans (msub A B) = msub A B.
Proof.
  intros HA HB Hr.
  pose proof (symmetric_square A HA). pose proof (symmetric_square B HB).
  rewrite trans_msub by lia. by rewrite HA, HB.
Qed.

(** A principal restriction of a symmetric matrix is symmetric. *)
Lemma submat_symmetric M (idx : list nat) N :
  trans M = M -> submat M idx idx = Ok N -> trans N = N.
Proof.
  intros HM H. apply submat_Ok in H as (Hidx & _ & ->).
  rewrite List.Forall_forall in Hidx.
  apply symmetric_intro; [apply wf_build | done |]. shapes.
  intros i j Hi Hj. rewrite !elem_build by lia.
  apply symmetric_elem; [done | |]; apply Hidx, nth_In; lia.
Qed.

Lemma submat_finite M (ri ci : list nat) N :
  wf M = true -> mat_finite M = true -> submat M ri ci = Ok N ->
  mat_finite N = true.
Proof.
  intros Hwf Hfin H. apply submat_Ok in H as (Hri & Hci & ->).
  rewrite List.Forall_forall in Hri, Hci.
  apply mat_finite_build. intros i j Hi Hj.
  apply mat_finite_elem; try done; [apply Hri | apply Hci]; apply nth_In; lia.
Qed.

Lemma submat_wf M (ri ci : list nat) N : submat M ri ci = Ok N -> wf N = true.
Proof. intros H. apply submat_Ok in H as (_ & _ & ->). apply wf_build. Qed.

End SymmetryAlgebra.

Section SymmetryInverse.
Context {F : Type} {SF : Scalar F} {LA : Lapack F}.
Context {SL : ScalarLaws F} {LL : LapackLaws F}.

(** [.i()] of a finite symmetric matrix is finite and symmetric. *)
Lemma inv_symmetric (M N : mat F) :
  trans M = M -> mat_finite M = true -> inv M = Ok N ->
  trans N = N /\ mat_finite N = true /\ n_rows N = n_rows M /\ n_cols N = n_rows M.
Proof.
  intros HM HfM H. apply inv_Ok in H as (Hsq & [[H0 ->]|[Hne Hlap]]).
  - split; [apply trans_zeros|]. split; [apply zeros_finite|]. shapes. simpl. lia.
  - apply lapack_inv_spec in Hlap as (HwN & Hr & Hc & HfN & HMN & HNM).
    split; [|done]. by apply (inverse_symmetric M N).
Qed.

(** [.i()] of a finite matrix is well formed and finite. *)
Lemma inv_finite (M N : mat F) :
  inv M = Ok N ->
  wf N = true /\ mat_finite N = true /\ n_rows N = n_rows M /\ n_cols N = n_rows M.
Proof.
  intros H. apply inv_Ok in H as (Hsq & [[H0 ->]|[Hne Hlap]]).
  - split; [apply wf_zeros|]. split; [apply zeros_finite|]. shapes. simpl. lia.
  - by apply lapack_inv_spec in Hlap as (HwN & Hr & Hc & HfN & _).
Qed.

End SymmetryInverse.

Section FilterSymmetry.
Context {F : Type} {SF : Scalar F} {LA : Lapack F}.
Context {SL : ScalarLaws F} {LL : LapackLaws F}.
Implicit Types X C R A Q tC tR : mat F.
Implicit Types st : filter_state F.

Lemma cov_ok_zeros (r : nat) : cov_ok (zeros r r : mat F).
Proof. split; [apply trans_zeros | apply zeros_finite]. Qed.

Lemma cube_cov_ok_zeros (r s : nat) : cube_cov_ok (cube_zeros r r s : cube F).
Proof.
  intros k M H. apply slice_Ok in H as (_ & H). simpl in H.
  apply lookup_replicate in H as [-> _]. apply cov_ok_zeros.
Qed.

Lemma cube_cov_ok_set (H H' : cube F) (i : Z) (M : mat F) :
  cube_cov_ok H -> cov_ok M -> set_slice H i M = Ok H' -> cube_cov_ok H'.
Proof.
  intros HH HM Hset k N HN. destruct (decide (k = i)) as [->|Hne].
  - rewrite (slice_set_slice_same _ _ _ _ Hset) in HN. by injection HN as <-.
  - rewrite (slice_set_slice_other _ _ _ _ _ Hset Hne) in HN. by apply (HH k).
Qed.

(** The sandwich B * P * B' of a finite symmetric P. *)
Lemma sandwich_cov_ok (B P : mat F) :
  wf B = true -> mat_finite B = true -> cov_ok P -> n_cols B = n_rows P ->
  cov_ok (mmul (mmul B P) (trans B)).
Proof.
  intros HwB HfB (HP & HfP) Hshape.
  pose proof (symmetric_square P HP). pose proof (symmetric_wf P HP).
  split; [by apply sandwich_symmetric | apply sandwich_finite; try done; lia].
Qed.

Lemma madd_cov_ok (A B : mat F) :
  cov_ok A -> cov_ok B -> n_rows A = n_rows B -> cov_ok (madd A B).
Proof.
  intros (HA & HfA) (HB & HfB) Hr.
  pose proof (symmetric_square A HA). pose proof (symmetric_square B HB).
  split; [by apply madd_symmetric|].
  apply madd_finite; try done; try lia; by apply symmetric_wf.
Qed.

Lemma msub_cov_ok (A B : mat F) :
  cov_ok A -> cov_ok B -> n_rows A = n_rows B -> cov_ok (msub A B).
Proof.
  intros (HA & HfA) (HB & HfB) Hr.
  pose proof (symmetric_square A HA). pose proof (symmetric_square B HB).
  split; [by apply msub_symmetric|].
  apply msub_finite; try done; try lia; by apply symmetric_wf.
Qed.

(** One step keeps the covariances finite and symmetric. *)
Lemma filter_step_cov_ok X tC tR A Q (nmiss : list nat) (n : nat) (t : Z) st st'
    (C R S xe K ff Pf : mat F) :
  model_ok tC Q tR A -> cov_ok (st_Pp st) ->
  step_facts X tC tR A Q nmiss n t st st' C R S xe K ff Pf ->
  cov_ok Pf /\ cov_ok (st_Pp st').
Proof.
  intros (HwC & HfC & HwA & HfA & HQ & HR) HPp Hfacts.
  destruct Hfacts as (Xt & Xs & HXt & HC & HRs & HS & HXs & Hxe & HK & Hff & HPf &
                      _ & _ & _ & _ & _ & _ & HPp' & _ & _ & Hshapes).
  destruct Hshapes as (H1 & H2 & H3 & H4 & H5 & H6 & H7 & H8 & H9 & H10 & H11 &
                       H12 & H13).
  set (Pp := st_Pp st) in *.
  pose proof HPp as (HsPp & HfPp).
  pose proof (symmetric_wf Pp HsPp) as HwPp.
  pose proof (symmetric_square Pp HsPp) as HsqPp.
  pose proof (submat_wf _ _ _ _ HC) as HwC'.
  pose proof (submat_finite _ _ _ _ HwC HfC HC) as HfC'.
  assert (cov_ok R) as HR'.
  { destruct HR as (HsR & HfR). split.
    - by apply (submat_symmetric tR (find_finite Xt) R).
    - apply (submat_finite tR (find_finite Xt) (find_finite Xt) R);
        [by apply symmetric_wf | done | done]. }
  assert (cov_ok (madd (mmul (mmul C Pp) (trans C)) R)) as (HsSig & HfSig).
  { apply madd_cov_ok; [by apply sandwich_cov_ok | done | by shapes]. }
  apply inv_symmetric in HS as (HsS & HfS & HSr & HSc); [|done|done].
  shapes.
  set (B := mmul C Pp) in *.
  assert (wf B = true) as HwB by apply wf_mmul.
  assert (mat_finite B = true) as HfB by (by apply mmul_finite).
  assert (mmul Pp (trans C) = trans B) as HtB.
  { unfold B. rewrite trans_mmul by done. by rewrite HsPp. }
  assert (cov_ok (mmul (mmul K C) Pp)) as HKCP.
  { rewrite HK, HtB.
    rewrite mmul_assoc; shapes; try done; try lia.
    - fold B. rewrite <- (trans_trans B HwB) at 2.
      apply sandwich_cov_ok; shapes; try done; try lia.
      + apply wf_trans.
      + by apply trans_finite.
    - apply wf_mmul.
    - apply mmul_finite; shapes; try done; try lia.
      + apply wf_trans.
      + by apply symmetric_wf.
      + by apply trans_finite. }
  assert (cov_ok Pf) as HcPf.
  { rewrite HPf. apply msub_cov_ok; [done | done | rewrite HK; by shapes]. }
  split; [done|]. rewrite HPp'.
  apply madd_cov_ok; [|done|by shapes].
  apply sandwich_cov_ok; try done. rewrite HPf. shapes. lia.
Qed.

End FilterSymmetry.

Section PassSymmetry.
Context {F : Type} {SF : Scalar F} {LA : Lapack F}.
Context {SL : ScalarLaws F} {LL : LapackLaws F}.
Implicit Types X C R A Q tC tR : mat F.

Lemma filter_loop_cov_ok X tC tR A Q (nmiss : list nat) (n : nat) (lo hi : Z)
    (st st' : filter_state F) :
  model_ok tC Q tR A ->
  cov_ok (st_Pp st) -> cube_cov_ok (st_PpT st) -> cube_cov_ok (st_PfT st) ->
  for_loop lo hi (filter_step X tC tR A Q nmiss n) st = Ok st' ->
  cov_ok (st_Pp st') /\ cube_cov_ok (st_PpT st') /\ cube_cov_ok (st_PfT st').
Proof.
  intros Hmodel HPp HPpT HPfT.
  apply (for_each_invariant (fun a =>
    cov_ok (st_Pp a) /\ cube_cov_ok (st_PpT a) /\ cube_cov_ok (st_PfT a))); [|done].
  intros i a a' _ (Ha & HaPp & HaPf) Hstep.
  apply filter_step_Ok in Hstep as (C & R & S & xe & K & ff & Pf & Hfacts).
  destruct (filter_step_cov_ok _ _ _ _ _ _ _ _ _ _ _ _ _ _ _ _ _ Hmodel Ha Hfacts)
    as (HcPf & HcPp').
  destruct Hfacts as (Xt & Xs & _ & _ & _ & _ & _ & _ & _ & _ & _ & _ &
                      _ & HsetPp & _ & HsetPf & _).
  split; [done|]. split.
  - by apply (cube_cov_ok_set _ _ _ _ HaPp Ha HsetPp).
  - by apply (cube_cov_ok_set _ _ _ _ HaPf HcPf HsetPf).
Qed.

Lemma filter_pass_cov_ok X C Q R A F0 P0 (st : filter_state F) :
  model_ok C Q R A -> cov_ok P0 ->
  filter_pass X C Q R A F0 P0 = Ok st ->
  cube_cov_ok (st_PpT st) /\ cube_cov_ok (st_PfT st).
Proof.
  intros Hmodel HP0 H. unfold filter_pass in H.
  apply bind_Ok in H as (A0 & _ & H).
  apply filter_loop_cov_ok in H as (_ & ? & ?); try done;
    unfold filter_init; simpl; apply cube_cov_ok_zeros.
Qed.

Lemma cube_finite_zeros (r c s : nat) : cube_finite (cube_zeros r c s : cube F).
Proof.
  intros k M H. apply slice_Ok in H as (_ & H). simpl in H.
  apply lookup_replicate in H as [-> _]. split; [apply wf_zeros | apply zeros_finite].
Qed.

Lemma gain_step_finite A (PfT PpT : cube F) (t : Z) (s s' : smoother_state F) :
  wf A = true -> mat_finite A = true -> cube_cov_ok PfT ->
  cube_finite (sm_J s) ->
  gain_step A PfT PpT t s = Ok s' ->
  cube_finite (sm_J s') /\ sm_PsT s' = sm_PsT s.
Proof.
  intros HwA HfA HPfT HJ H. unfold gain_step in H. inv_bind H.
  match goal with H : inv _ = Ok _ |- _ =>
    apply inv_finite in H as (Hwi & Hfi & Hri & Hci) end.
  match goal with H : slice PfT t = Ok _ |- _ =>
    apply HPfT in H as (HsPf & HfPf) end.
  inv_ops. simpl. split; [|done].
  match goal with H : set_slice (sm_J s) t _ = Ok _ |- _ => rename H into Hset end.
  intros k M HM. destruct (decide (k = t)) as [->|Hne].
  - rewrite (slice_set_slice_same _ _ _ _ Hset) in HM. injection HM as <-.
    split; [apply wf_mmul|].
    apply mmul_finite; shapes; try done; try lia.
    + apply wf_mmul.
    + apply mmul_finite; shapes; try done.
      * by apply symmetric_wf.
      * apply wf_trans.
      * by apply trans_finite.
  - rewrite (slice_set_slice_other _ _ _ _ _ Hset Hne) in HM. by apply (HJ k).
Qed.

Lemma smooth_step_cov_ok (T : Z) FT PT (PfT PpT : cube F) (j : Z)
    (s s' : smoother_state F) :
  cube_cov_ok PfT -> cube_cov_ok PpT ->
  cube_finite (sm_J s) -> cube_cov_ok (sm_PsT s) ->
  smooth_step T FT PT PfT PpT j s = Ok s' ->
  cube_finite (sm_J s') /\ cube_cov_ok (sm_PsT s').
Proof.
  intros HPfT HPpT HJ HPs H. unfold smooth_step in H. inv_bind H.
  match goal with H : slice (sm_J s) _ = Ok _ |- _ =>
    apply HJ in H as (HwJ & HfJ) end.
  match goal with H : slice PfT _ = Ok _ |- _ => apply HPfT in H end.
  match goal with H : slice PpT _ = Ok _ |- _ => apply HPpT in H end.
  match goal with H : slice (sm_PsT s) _ = Ok _ |- _ => apply HPs in H end.
  inv_ops. simpl. split; [done|].
  eapply cube_cov_ok_set; [exact HPs | | eassumption].
  apply madd_cov_ok; [done | | by shapes].
  apply sandwich_cov_ok; try done.
  by apply msub_cov_ok.
Qed.

Lemma smoother_pass_cov_ok (T : Z) (rp n : nat) A C R FT PT (PfT PpT : cube F)
    (s : smoother_state F) :
  wf A = true -> mat_finite A = true ->
  cube_cov_ok PfT -> cube_cov_ok PpT ->
  smoother_pass T rp n A C R FT PT PfT PpT = Ok s ->
  cube_cov_ok (sm_PsT s).
Proof.
  intros HwA HfA HPfT HPpT H. unfold smoother_pass in H. inv_bind H.
  rename x1 into Pf, Hx1 into HPf, x2 into Ps0, Hx2 into HPs0,
    x3 into s1, Hx3 into H1, x4 into s2, Hx4 into H2,
    x5 into s3, Hx5 into H3, x6 into s4, Hx6 into H4.
  assert (cube_cov_ok Ps0) as HPs0ok.
  { eapply cube_cov_ok_set; [apply cube_cov_ok_zeros | | exact HPs0].
    by apply (HPfT _ _ HPf). }
  assert (cube_finite (sm_J s1) /\ sm_PsT s1 = Ps0) as (HJ1 & HP1).
  { revert H1. apply (for_each_invariant (fun a =>
      cube_finite (sm_J a) /\ sm_PsT a = Ps0)).
    - intros i a a' _ (HJa & HPa) Hstep.
      apply gain_step_finite in Hstep as (? & ?); try done. split; [done | congruence].
    - split; [apply cube_finite_zeros | done]. }
  assert (cube_finite (sm_J s2) /\ cube_cov_ok (sm_PsT s2)) as (_ & HP2).
  { revert H2. apply (for_each_invariant (fun a =>
      cube_finite (sm_J a) /\ cube_cov_ok (sm_PsT a))).
    - intros i a a' _ (HJa & HPa) Hstep.
      by apply smooth_step_cov_ok in Hstep.
    - split; [done | by rewrite HP1]. }
  apply innovation_loop_Ok in H3 as (_ & _ & _ & HP3).
  apply lag_one_seed_Ok in H4 as (_ & _ & _ & HP4).
  apply lag_one_loop_Ok in H as (_ & _ & _ & HP5).
  by rewrite HP5, HP4, HP3.
Qed.

(** C3, as amended: for a model with finite matrices and symmetric Q, R and
    P0, every predicted and every filtered covariance KalmanFilter returns,
    and every smoothed covariance KalmanSmoother and KalmanFilterSmoother
    return, is symmetric (and finite).  Nothing is said of the lag-one
    cross-covariances, which are not symmetric in general. *)
Theorem C3_covariances_symmetric :
  (forall X C Q R A F0 P0 (out : filter_out F),
     model_ok C Q R A -> cov_ok P0 ->
     KalmanFilter X C Q R A F0 P0 = Ok out ->
     cube_cov_ok (kf_Pp out) /\ cube_cov_ok (kf_Pf out)) /\
  (forall A C R FT PT (PfT PpT : cube F) (out : smoother_out F),
     wf A = true -> mat_finite A = true ->
     cube_cov_ok PfT -> cube_cov_ok PpT ->
     KalmanSmoother A C R FT PT PfT PpT = Ok out ->
     cube_cov_ok (ks_Ps out)) /\
  (forall X C Q R A F0 P0 (out : fused_out F),
     model_ok C Q R A -> cov_ok P0 ->
     KalmanFilterSmoother X C Q R A F0 P0 = Ok out ->
     cube_cov_ok (kfs_Ps out)).
Proof.
  split_all.
  - intros X C Q R A F0 P0 out Hmodel HP0 H. unfold KalmanFilter in H.
    apply bind_Ok in H as (st & Hpass & [= <-]). simpl.
    by apply (filter_pass_cov_ok X C Q R A F0 P0).
  - intros A C R FT PT PfT PpT out HwA HfA HPfT HPpT H.
    unfold KalmanSmoother, array2cube in H.
    apply bind_Ok in H as (s & Hpass & [= <-]). simpl.
    by apply (smoother_pass_cov_ok _ _ _ A C R FT PT PfT PpT s HwA HfA HPfT HPpT Hpass).
  - intros X C Q R A F0 P0 out Hmodel HP0 H. unfold KalmanFilterSmoother in H.
    apply bind_Ok in H as (st & Hpass & H).
    apply bind_Ok in H as (s & Hsm & [= <-]). simpl.
    destruct (filter_pass_cov_ok X C Q R A F0 P0 st Hmodel HP0 Hpass) as (HPp & HPf).
    destruct Hmodel as (_ & _ & HwA & HfA & _).
    by apply (smoother_pass_cov_ok _ _ _ _ _ _ _ _ _ _ s HwA HfA HPf HPp) in Hsm.
Qed.

End PassSymmetry.

Lemma cube_cov_ok_Forall {F : Type} {SF : Scalar F} (H : cube F) :
  Forall cov_ok (slices H) -> cube_cov_ok H.
Proof.
  intros Hall k M HM. apply slice_Ok in HM as (_ & HM).
  rewrite List.Forall_forall in Hall. apply Hall.
  apply list_elem_of_In. by apply (list_elem_of_lookup_2 _ (Z.to_nat k)).
Qed.

Module SymmetryWitnesses.
Import Rat Examples RatFacts.

Lemma I2_cov_ok : cov_ok I2.
Proof. split; reflexivity. Qed.

Lemma model2_ok : model_ok I2 I2 I2 A2.
Proof. unfold model_ok. split_all; try reflexivity; exact I2_cov_ok. Qed.

Lemma PfT4_cov_ok : cube_cov_ok PfT4.
Proof. apply cube_cov_ok_Forall. repeat constructor. Qed.

Lemma PpT4_cov_ok : cube_cov_ok PpT4.
Proof. apply cube_cov_ok_Forall. repeat constructor. Qed.

Lemma C3_witness :
  (exists out, KalmanFilter X22 I2 I2 I2 A2 F02 I2 = Ok out /\
     cube_cov_ok (kf_Pp out) /\ cube_cov_ok (kf_Pf out)) /\
  (exists out, KalmanSmoother A1 C1 R1 FT4 PT4 PfT4 PpT4 = Ok out /\
     cube_cov_ok (ks_Ps out)) /\
  (exists out, KalmanFilterSmoother X22 I2 I2 I2 A2 F02 I2 = Ok out /\
     cube_cov_ok (kfs_Ps out)).
Proof.
  split_all.
  - destruct (KalmanFilter X22 I2 I2 I2 A2 F02 I2) as [out|e] eqn:E.
    + exists out. split; [reflexivity|].
      exact (proj1 C3_covariances_symmetric X22 I2 I2 I2 A2 F02 I2 out
               model2_ok I2_cov_ok E).
    + vm_compute in E. discriminate E.
  - destruct (KalmanSmoother A1 C1 R1 FT4 PT4 PfT4 PpT4) as [out|e] eqn:E.
    + exists out. split; [reflexivity|].
      refine (proj1 (proj2 C3_covariances_symmetric) A1 C1 R1 FT4 PT4 PfT4 PpT4 out
                _ _ PfT4_cov_ok PpT4_cov_ok E); reflexivity.
    + vm_compute in E. discriminate E.
  - destruct (KalmanFilterSmoother X22 I2 I2 I2 A2 F02 I2) as [out|e] eqn:E.
    + exists out. split; [reflexivity|].
      exact (proj2 (proj2 C3_covariances_symmetric) X22 I2 I2 I2 A2 F02 I2 out
               model2_ok I2_cov_ok E).
    + vm_compute in E. discriminate E.
Defined.

(** C3 fails for the lag-one cross-covariance: two states, two channels,
    A = [1 1; 0 1], C = Q = R = P0 = I, T = 2.  Slice 1 of PsTm is
    [5/29 4/29; -1/29 5/29]. *)
Lemma C3_counterexample :
  model_ok I2 I2 I2 A2 /\ cov_ok I2 /\
  exists out W,
    KalmanFilterSmoother X22 I2 I2 I2 A2 F02 I2 = Ok out /\
    slice (kfs_PsTm out) 1 = Ok W /\
    elem W 0 1 = q 4 29 /\ elem W 1 0 = q (-1) 29 /\
    trans W <> W.
Proof.
  split; [exact model2_ok|]. split; [exact I2_cov_ok|].
  do 2 eexists. split; [vm_compute; reflexivity|].
  split; [vm_compute; reflexivity|].
  split; [apply deqb_eq; vm_compute; reflexivity|].
  split; [apply deqb_eq; vm_compute; reflexivity|].
  intros H. vm_compute in H. congruence.
Qed.

End SymmetryWitnesses.

(** ** When the fused function agrees with the composition *)

Section FusedAgreement.
Context {F : Type} {SF : Scalar F} {LA : Lapack F}.
Implicit Types X C R A Q tC tR : mat F.

Lemma filter_loop_FT_rows X tC tR A Q (nmiss : list nat) (n : nat) (lo hi : Z)
    (st st' : filter_state F) :
  for_loop lo hi (filter_step X tC tR A Q nmiss n) st = Ok st' ->
  n_rows (st_FT st') = n_rows (st_FT st).
Proof.
  apply (for_each_invariant (fun a => n_rows (st_FT a) = n_rows (st_FT st)));
    [|done].
  intros i a a' _ Ha Hstep.
  apply filter_step_Ok in Hstep as (C & R & S & xe & K & ff & Pf & Hfacts).
  destruct Hfacts as (Xt & Xs & _ & _ & _ & _ & _ & _ & _ & _ & _ & _ &
                      _ & _ & HFT & _).
  apply set_row_shape in HFT as [-> _]. done.
Qed.

(** After a pass over a series whose last row is fully observed, with a
    finite first row of [A], the locals [C] and [R] hold the full
    matrices again. *)
Lemma filter_pass_restores_C_R X C Q R A F0 P0 (st : filter_state F) :
  wf C = true -> wf R = true ->
  n_rows C = n_cols X -> n_cols C = n_cols A ->
  n_rows R = n_cols X -> n_cols R = n_cols X ->
  (forall j, j < n_cols A -> is_finite (elem A 0 j) = true) ->
  (forall j, j < n_cols X ->
     is_finite (elem X (Z.to_nat (Z.of_nat (n_rows X) - 1)) j) = true) ->
  filter_pass X C Q R A F0 P0 = Ok st ->
  st_C st = C /\ st_R st = R /\ n_rows (st_FT st) = n_rows X.
Proof.
  intros HwC HwR HCr HCc HRr HRc HA HX H. unfold filter_pass in H.
  apply bind_Ok in H as (A0 & HA0 & H).
  pose proof (filter_loop_FT_rows _ _ _ _ _ _ _ _ _ _ _ H) as HFT.
  unfold filter_init in HFT. simpl in HFT.
  split_all; [| |lia].
  - destruct (n_rows X) as [|T'] eqn:HT.
    + rewrite for_loop_empty in H by lia. by injection H as <-.
    + apply (for_loop_split 0 _ (Z.of_nat (S T') - 1)) in H
        as (s1 & s2 & _ & Hstep & Hrest); [|lia].
      rewrite for_loop_empty in Hrest by lia. injection Hrest as <-.
      apply filter_step_Ok in Hstep as (C' & R' & S & xe & K & ff & Pf & Hfacts).
      destruct Hfacts as (Xt & Xs & HXt & HC & _ & _ & _ & _ & _ & _ & _ & _ &
                          _ & _ & _ & _ & _ & _ & -> & _).
      rewrite (find_finite_all_finite X _ Xt HXt) in HC by exact HX.
      rewrite (find_finite_all_finite A 0 A0 HA0 HA) in HC.
      rewrite <- HCr, <- HCc, submat_full in HC by done. by injection HC.
  - destruct (n_rows X) as [|T'] eqn:HT.
    + rewrite for_loop_empty in H by lia. by injection H as <-.
    + apply (for_loop_split 0 _ (Z.of_nat (S T') - 1)) in H
        as (s1 & s2 & _ & Hstep & Hrest); [|lia].
      rewrite for_loop_empty in Hrest by lia. injection Hrest as <-.
      apply filter_step_Ok in Hstep as (C' & R' & S & xe & K & ff & Pf & Hfacts).
      destruct Hfacts as (Xt & Xs & HXt & _ & HR & _ & _ & _ & _ & _ & _ & _ &
                          _ & _ & _ & _ & _ & _ & _ & -> & _).
      rewrite (find_finite_all_finite X _ Xt HXt) in HR by exact HX.
      rewrite <- HRr in HR at 1. rewrite <- HRc in HR.
      rewrite submat_full in HR by done. by injection HR.
Qed.

(** X1: on a model of valid shapes with a finite first row of A, and a
    series whose last row has no missing value, KalmanFilterSmoother returns
    (or raises) exactly as KalmanFilter followed by KalmanSmoother does. *)
Theorem fused_agrees_when_last_row_observed X C Q R A F0 P0 :
  wf C = true -> wf R = true ->
  n_rows C = n_cols X -> n_cols C = n_cols A ->
  n_rows R = n_cols X -> n_cols R = n_cols X ->
  (forall j, j < n_cols A -> is_finite (elem A 0 j) = true) ->
  (forall j, j < n_cols X ->
     is_finite (elem X (Z.to_nat (Z.of_nat (n_rows X) - 1)) j) = true) ->
  KalmanFilterSmoother X C Q R A F0 P0 = filter_then_smoother X C Q R A F0 P0.
Proof.
  intros HwC HwR HCr HCc HRr HRc HA HX.
  unfold KalmanFilterSmoother, filter_then_smoother, KalmanFilter, KalmanSmoother,
    array2cube.
  destruct (filter_pass X C Q R A F0 P0) as [st|e] eqn:Hpass; [|reflexivity].
  cbn [bind kf_F kf_P kf_Pf kf_Pp kf_loglik].
  destruct (filter_pass_restores_C_R X C Q R A F0 P0 st HwC HwR HCr HCc HRr HRc
              HA HX Hpass) as (-> & -> & ->).
  rewrite HCr.
  destruct (smoother_pass _ _ _ _ _ _ _ _ _ _) as [s|e]; reflexivity.
Qed.

End FusedAgreement.

Module FusedWitness.
Import Rat Examples.

Lemma fused_agrees_witness :
  KalmanFilterSmoother X4 C1 Q1 R1 A1 F01 P01 =
  filter_then_smoother X4 C1 Q1 R1 A1 F01 P01.
Proof.
  apply (fused_agrees_when_last_row_observed X4 C1 Q1 R1 A1 F01 P01);
    try reflexivity;
    intros j Hj; (destruct j; [reflexivity | simpl in Hj; lia]).
Defined.

End FusedWitness.

(** ** The histories the forward pass returns *)

Section FilterHistories.
Context {F : Type} {SF : Scalar F} {LA : Lapack F}.
Implicit Types X C R A Q tC tR : mat F.
Implicit Types st : filter_state F.

Lemma cube_shape_zeros (r c s : nat) : cube_shape (cube_zeros r c s : cube F) r c s.
Proof.
  unfold cube_shape. split_all; try done.
  - apply n_slices_cube_zeros.
  - intros k M H. apply slice_Ok in H as (_ & H). simpl in H.
    apply lookup_replicate in H as [-> _]. done.
Qed.

Lemma cube_shape_set (H H' : cube F) (i : Z) (M : mat F) (r c s : nat) :
  cube_shape H r c s -> set_slice H i M = Ok H' -> cube_shape H' r c s.
Proof.
  intros (Hr & Hc & Hs & Hall) Hset.
  pose proof (set_slice_shape _ _ _ _ Hset) as (Hr' & Hc' & Hs').
  pose proof (set_slice_Ok _ _ _ _ Hset) as (_ & HMr & HMc & _).
  unfold cube_shape. split_all; try congruence.
  intros k N HN. destruct (decide (k = i)) as [->|Hne].
  - rewrite (slice_set_slice_same _ _ _ _ Hset) in HN. injection HN as <-.
    split; congruence.
  - rewrite (slice_set_slice_other _ _ _ _ _ Hset Hne) in HN. by apply (Hall k).
Qed.

Lemma mat_shape_zeros (r c : nat) : mat_shape (zeros r c : mat F) r c.
Proof. unfold mat_shape. split_all; [apply wf_zeros | done | done]. Qed.

Lemma mat_shape_set_row (M M' v : mat F) (i : Z) (r c : nat) :
  mat_shape M r c -> set_row M i v = Ok M' -> mat_shape M' r c.
Proof.
  intros (Hw & Hr & Hc) H. apply set_row_Ok in H as (_ & _ & _ & ->).
  unfold mat_shape. split_all; [apply wf_build | done | done].
Qed.

(** The loop keeps the shapes of the four histories. *)
Lemma filter_loop_shapes X tC tR A Q (nmiss : list nat) (n : nat) (lo hi : Z) st st'
    (r T T1 : nat) :
  mat_shape (st_FT st) T r -> mat_shape (st_PT st) T1 r ->
  cube_shape (st_PfT st) r r T -> cube_shape (st_PpT st) r r T1 ->
  for_loop lo hi (filter_step X tC tR A Q nmiss n) st = Ok st' ->
  mat_shape (st_FT st') T r /\ mat_shape (st_PT st') T1 r /\
  cube_shape (st_PfT st') r r T /\ cube_shape (st_PpT st') r r T1.
Proof.
  intros HF HP HPf HPp.
  apply (for_each_invariant (fun a =>
    mat_shape (st_FT a) T r /\ mat_shape (st_PT a) T1 r /\
    cube_shape (st_PfT a) r r T /\ cube_shape (st_PpT a) r r T1)); [|done].
  intros i a a' _ (HaF & HaP & HaPf & HaPp) Hstep.
  apply filter_step_Ok in Hstep as (C & R & S & xe & K & ff & Pf & Hfacts).
  destruct Hfacts as (Xt & Xs & _ & _ & _ & _ & _ & _ & _ & _ & _ & _ &
                      HsetP & HsetPp & HsetF & HsetPf & _).
  split_all.
  - by apply (mat_shape_set_row _ _ _ _ _ _ HaF HsetF).
  - by apply (mat_shape_set_row _ _ _ _ _ _ HaP HsetP).
  - by apply (cube_shape_set _ _ _ _ _ _ _ HaPf HsetPf).
  - by apply (cube_shape_set _ _ _ _ _ _ _ HaPp HsetPp).
Qed.

(** What slot [t] of the histories holds after the pass: what step [t]
    left there. *)
Lemma filter_loop_slot X tC tR A Q (nmiss : list nat) (n : nat) (T t : Z) st sT :
  (0 <= t < T)%Z ->
  for_loop 0 T (filter_step X tC tR A Q nmiss n) st = Ok sT ->
  exists s1 s2,
    for_loop 0 t (filter_step X tC tR A Q nmiss n) st = Ok s1 /\
    filter_step X tC tR A Q nmiss n t s1 = Ok s2 /\
    for_loop (t + 1) T (filter_step X tC tR A Q nmiss n) s2 = Ok sT /\
    row (st_PT sT) t = row (st_PT s2) t /\
    row (st_FT sT) t = row (st_FT s2) t /\
    slice (st_PpT sT) t = slice (st_PpT s2) t /\
    slice (st_PfT sT) t = slice (st_PfT s2) t.
Proof.
  intros Ht H.
  apply (for_loop_split 0 T t) in H as (s1 & s2 & H1 & Hstep & Hrest); [|done].
  exists s1, s2. split_all; try done;
    apply filter_loop_frame in Hrest as (Hframe & _);
    destruct (Hframe t) as (E1 & E2 & E3 & E4); try done; lia.
Qed.

(** The prediction a loop carries into its first step, when the loop starts
    from a well-formed mean. *)
Lemma filter_loop_wf_fp X tC tR A Q (nmiss : list nat) (n : nat) (lo hi : Z) st st' :
  wf (st_fp st) = true ->
  for_loop lo hi (filter_step X tC tR A Q nmiss n) st = Ok st' ->
  wf (st_fp st') = true.
Proof.
  intros Hfp.
  apply (for_each_invariant (fun a => wf (st_fp a) = true)); [|done].
  intros i a a' _ _ Hstep.
  by apply filter_step_frame in Hstep as (_ & _ & _ & _ & ? & ?).
Qed.

(** X2: the histories KalmanFilter returns have the shapes the declarations
    give them: F is T x rp and Pf has T slices, P is (T+1) x rp and Pp has
    T+1 slices, every slice is rp x rp; and the loop never writes the last
    slot of the predicted histories, which is still zero. *)
Theorem filter_history_shapes X C Q R A F0 P0 (out : filter_out F) :
  KalmanFilter X C Q R A F0 P0 = Ok out ->
  let T := n_rows X in
  let r := n_rows A in
  mat_shape (kf_F out) T r /\ mat_shape (kf_P out) (S T) r /\
  cube_shape (kf_Pf out) r r T /\ cube_shape (kf_Pp out) r r (S T) /\
  row (kf_P out) (Z.of_nat T) = Ok (zeros 1 r) /\
  slice (kf_Pp out) (Z.of_nat T) = Ok (zeros r r).
Proof.
  unfold KalmanFilter. intros H. apply bind_Ok in H as (st & Hpass & [= <-]).
  cbn [kf_F kf_P kf_Pf kf_Pp].
  destruct (filter_pass_last_slot _ _ _ _ _ _ _ _ Hpass) as (_ & _ & Hrow & Hslice).
  unfold filter_pass in Hpass. apply bind_Ok in Hpass as (A0 & _ & Hloop).
  apply (filter_loop_shapes _ _ _ _ _ _ _ _ _ _ _ (n_rows A) (n_rows X) (S (n_rows X)))
    in Hloop as (HF & HP & HPf & HPp).
  - done.
  - unfold filter_init. cbn [st_FT]. rewrite Nat2Z.id. apply mat_shape_zeros.
  - unfold filter_init. cbn [st_PT].
    replace (Z.to_nat (Z.of_nat (n_rows X) + 1)) with (S (n_rows X)) by lia.
    apply mat_shape_zeros.
  - unfold filter_init. cbn [st_PfT]. rewrite Nat2Z.id. apply cube_shape_zeros.
  - unfold filter_init. cbn [st_PpT].
    replace (Z.to_nat (Z.of_nat (n_rows X) + 1)) with (S (n_rows X)) by lia.
    apply cube_shape_zeros.
Qed.

(** X3: the predicted histories KalmanFilter returns start from the initial
    mean and covariance, and each later slot is the forecast from the
    filtered slot before it: P_{t+1} = A * F_t and
    Pp_{t+1} = A * Pf_t * A' + Q for every t with t+1 < T. *)
Theorem filter_prediction_recursion X C Q R A F0 P0 (out : filter_out F) :
  KalmanFilter X C Q R A F0 P0 = Ok out ->
  (1 <= n_rows X ->
   row (kf_P out) 0 = Ok (trans F0) /\ slice (kf_Pp out) 0 = Ok P0) /\
  (forall t, (0 <= t < Z.of_nat (n_rows X) - 1)%Z ->
     predicted_from_filtered A Q (kf_F out) (kf_P out) (kf_Pf out) (kf_Pp out) t).
Proof.
  unfold KalmanFilter. intros H. apply bind_Ok in H as (sT & Hpass & [= <-]).
  cbn [kf_F kf_P kf_Pf kf_Pp].
  unfold filter_pass in Hpass. apply bind_Ok in Hpass as (A0 & _ & Hloop).
  split.
  - intros HT.
    apply (filter_loop_slot _ _ _ _ _ _ _ _ 0) in Hloop
      as (s1 & s2 & H1 & Hstep & _ & EP & _ & EPp & _); [|lia].
    rewrite for_loop_empty in H1 by lia. apply Ok_inj in H1. subst s1.
    rewrite EP, EPp.
    apply filter_step_Ok in Hstep as (C' & R' & S & xe & K & ff & Pf & Hfacts).
    destruct Hfacts as (Xt & Xs & _ & _ & _ & _ & _ & _ & _ & _ & _ & _ &
                        HsetP & HsetPp & _).
    split.
    + eapply row_set_row_same; [exact HsetP | apply wf_trans].
    + eapply slice_set_slice_same. exact HsetPp.
  - intros t Ht.
    assert (0 <= t < Z.of_nat (n_rows X))%Z as Ht' by lia.
    destruct (filter_loop_slot _ _ _ _ _ _ _ _ t _ _ Ht' Hloop)
      as (s1 & s2 & _ & Hstep & Hrest & _ & EF & _ & EPf).
    apply filter_step_Ok in Hstep as (C' & R' & S & xe & K & ff & Pf & Hfacts).
    destruct Hfacts as (Xt & Xs & _ & _ & _ & _ & _ & _ & _ & Hff & _ & _ &
                        _ & _ & HsetF & HsetPf & Hfp & HPp & _).
    apply (for_loop_split (t + 1) _ (t + 1)) in Hrest
      as (sa & s3 & Ha & Hstep3 & Hrest3); [|lia].
    rewrite for_loop_empty in Ha by lia. apply Ok_inj in Ha. subst sa.
    apply filter_loop_frame in Hrest3 as (Hframe & _).
    destruct (Hframe (t + 1)%Z) as (EP3 & _ & EPp3 & _); [lia|].
    apply filter_step_Ok in Hstep3 as (C3 & R3 & S3 & xe3 & K3 & ff3 & Pf3 & Hfacts3).
    destruct Hfacts3 as (Xt3 & Xs3 & _ & _ & _ & _ & _ & _ & _ & _ & _ & _ &
                         HsetP3 & HsetPp3 & _).
    exists (trans ff), Pf. rewrite EF, EPf, EP3, EPp3. split_all.
    + eapply row_set_row_same; [exact HsetF | apply wf_trans].
    + eapply slice_set_slice_same. exact HsetPf.
    + rewrite (row_set_row_same _ _ _ _ HsetP3 (wf_trans _)).
      rewrite Hfp. rewrite trans_trans; [done|]. subst ff. apply wf_madd.
    + rewrite (slice_set_slice_same _ _ _ _ HsetPp3). by rewrite HPp.
Qed.

(** Slot [t] after the pass is the update of the prediction step [t]
    started from. *)
Lemma filter_loop_update X tC tR A Q (nmiss : list nat) (n : nat) (T t : Z) st sT :
  wf (st_fp st) = true -> (0 <= t < T)%Z ->
  for_loop 0 T (filter_step X tC tR A Q nmiss n) st = Ok sT ->
  updated_at X tC tR nmiss (st_FT sT) (st_PT sT) (st_PfT sT) (st_PpT sT) t.
Proof.
  intros Hwf Ht Hloop.
  destruct (filter_loop_slot _ _ _ _ _ _ _ _ t _ _ Ht Hloop)
    as (s1 & s2 & H1 & Hstep & _ & EP & EF & EPp & EPf).
  apply filter_loop_wf_fp in H1; [|exact Hwf].
  apply filter_step_Ok in Hstep as (C' & R' & S & xe & K & ff & Pf & Hfacts).
  destruct Hfacts as (Xt & Xs & HXt & HC & HR & HS & HXs & Hxe & HK & Hff & HPf & _ &
                      HsetP & HsetPp & HsetF & HsetPf & _).
  exists Xt, Xs, C', R', S, (trans (st_fp s1)), (st_Pp s1), (trans ff), Pf.
  rewrite EP, EF, EPp, EPf. split_all; try done.
  - eapply row_set_row_same; [exact HsetP | apply wf_trans].
  - eapply slice_set_slice_same. exact HsetPp.
  - eapply row_set_row_same; [exact HsetF | apply wf_trans].
  - eapply slice_set_slice_same. exact HsetPf.
  - rewrite (trans_trans (st_fp s1)) by done.
    rewrite trans_trans by (subst ff; apply wf_madd). by subst.
  - by subst.
Qed.

(** X4: every slot of the filtered histories KalmanFilter returns is the
    Kalman update of the same slot of the predicted histories by the channels
    observed at that time, with the loading and the observation-noise
    covariance restricted to those channels. *)
Theorem filter_update_equations X C Q R A F0 P0 (out : filter_out F) :
  KalmanFilter X C Q R A F0 P0 = Ok out -> wf F0 = true ->
  exists A0, row A 0 = Ok A0 /\
    forall t, (0 <= t < Z.of_nat (n_rows X))%Z ->
      updated_at X C R (find_finite A0)
        (kf_F out) (kf_P out) (kf_Pf out) (kf_Pp out) t.
Proof.
  unfold KalmanFilter. intros H HwF0. apply bind_Ok in H as (sT & Hpass & [= <-]).
  cbn [kf_F kf_P kf_Pf kf_Pp].
  unfold filter_pass in Hpass. apply bind_Ok in Hpass as (A0 & HA0 & Hloop).
  exists A0. split; [done|]. intros t Ht.
  by apply (filter_loop_update _ _ _ _ _ _ _ _ _ (filter_init X C R A F0 P0) _ HwF0 Ht Hloop).
Qed.

End FilterHistories.

(** ** What a pass that returned has checked *)

Section FilterValidation.
Context {F : Type} {SF : Scalar F} {LA : Lapack F}.
Implicit Types X C R A Q tC tR : mat F.
Implicit Types st : filter_state F.

Lemma filter_length_all {A : Type} (f : A -> bool) (l : list A) :
  length (List.filter f l) = length l -> forall x, In x l -> f x = true.
Proof.
  intros Hlen x Hin. destruct (f x) eqn:E; [done|].
  pose proof (filter_length_lt f l x Hin E). lia.
Qed.

(** The first step checks the shapes of the model against each other. *)
Lemma filter_pass_checks X C Q R A F0 P0 st :
  filter_pass X C Q R A F0 P0 = Ok st -> 1 <= n_rows X ->
  model_shapes C Q A F0 P0 (n_rows A) /\ first_row_finite A.
Proof.
  unfold filter_pass. intros H HT. apply bind_Ok in H as (A0 & HA0 & Hloop).
  apply (for_loop_split 0 _ 0) in Hloop as (s1 & s2 & H1 & Hstep & _); [|lia].
  rewrite for_loop_empty in H1 by lia. apply Ok_inj in H1. subst s1.
  apply filter_step_Ok in Hstep as (C' & R' & S & xe & K & ff & Pf & Hfacts).
  destruct Hfacts as (Xt & Xs & _ & HC & _ & _ & _ & _ & _ & _ & _ & _ &
                      HsetP & _ & _ & _ & _ & _ & _ & _ & Hshapes).
  unfold filter_init in *. cbn [st_fp st_Pp st_PT] in *.
  destruct Hshapes as (H1 & H2 & _ & _ & H5 & H6 & _ & _ & _ & H10 & H11 & H12 & H13).
  apply set_row_Ok in HsetP as (_ & _ & HcP & _). shapes. simpl in HcP.
  apply submat_Ok in HC as (_ & Hnm & ->). shapes.
  pose proof (row_Ok _ _ _ HA0) as (HA0r & _).
  assert (first_row_finite A) as Hfin.
  { intros j Hj.
    apply (filter_length_all (fun k => is_finite (elem A (Z.to_nat 0) k))
             (seq 0 (n_cols A))); [|apply in_seq; lia].
    rewrite <- (find_finite_row A 0 A0 HA0), length_seq. lia. }
  split; [|done].
  rewrite (find_finite_all_finite A 0 A0 HA0 Hfin) in Hnm.
  rewrite List.Forall_forall in Hnm.
  assert (n_rows A - 1 < n_cols C) by (apply Hnm, in_seq; lia).
  unfold model_shapes. split_all; lia.
Qed.

(** Step [t] checks that every channel observed at [t] is a row of the
    loading and a row and a column of the observation-noise covariance. *)
Lemma filter_pass_checks_channel X C Q R A F0 P0 st (t : Z) (j : nat) :
  filter_pass X C Q R A F0 P0 = Ok st ->
  (0 <= t < Z.of_nat (n_rows X))%Z -> j < n_cols X ->
  is_finite (elem X (Z.to_nat t) j) = true ->
  j < n_rows C /\ j < n_rows R /\ j < n_cols R.
Proof.
  unfold filter_pass. intros H Ht Hj Hfin. apply bind_Ok in H as (A0 & HA0 & Hloop).
  apply (for_loop_split 0 _ t) in Hloop as (s1 & s2 & _ & Hstep & _); [|lia].
  apply filter_step_Ok in Hstep as (C' & R' & S & xe & K & ff & Pf & Hfacts).
  destruct Hfacts as (Xt & Xs & HXt & HC & HR & _).
  assert (In j (find_finite Xt)) as Hin.
  { rewrite (find_finite_row X t Xt HXt). apply filter_In. split; [|done].
    apply in_seq. lia. }
  apply submat_Ok in HC as (HCr & _ & _), HR as (HRr & HRc & _).
  rewrite List.Forall_forall in HCr, HRr, HRc. auto.
Qed.

(** X5: KalmanFilter returns on a non-empty series only if the shapes of the
    model agree (A, Q and P0 are rp x rp, F0 is rp x 1, C has at least rp
    columns, rp at least one) and the first row of A is finite; and every
    channel observed at some time is a row of C and a row and a column of R.
    On any other input it raises. *)
Theorem filter_returns_only_on_consistent_model X C Q R A F0 P0 (out : filter_out F) :
  KalmanFilter X C Q R A F0 P0 = Ok out -> 1 <= n_rows X ->
  model_shapes C Q A F0 P0 (n_rows A) /\ first_row_finite A /\
  forall (t : Z) (j : nat),
    (0 <= t < Z.of_nat (n_rows X))%Z -> j < n_cols X ->
    is_finite (elem X (Z.to_nat t) j) = true ->
    j < n_rows C /\ j < n_rows R /\ j < n_cols R.
Proof.
  unfold KalmanFilter. intros H HT. apply bind_Ok in H as (st & Hpass & _).
  destruct (filter_pass_checks _ _ _ _ _ _ _ _ Hpass HT) as (Hshapes & Hfin).
  split; [done|]. split; [done|]. intros t j Ht Hj Hobs.
  by apply (filter_pass_checks_channel X C Q R A F0 P0 st t j).
Qed.

End FilterValidation.

(** ** Series too short to smooth *)

Section ShortSeries.
Context {F : Type} {SF : Scalar F} {LA : Lapack F}.
Implicit Types X C R A Q : mat F.

Lemma smoother_pass_short (T : Z) (rp n : nat) A C R (FT PT : mat F)
    (PfT PpT : cube F) :
  (T < 2)%Z -> exists e, smoother_pass T rp n A C R FT PT PfT PpT = Err e.
Proof.
  intros HT. destruct (smoother_pass T rp n A C R FT PT PfT PpT) as [s|e] eqn:E.
  - apply smoother_pass_Ok in E as (H2 & _). lia.
  - by exists e.
Qed.

Lemma fused_short X C Q R A F0 P0 :
  n_rows X < 2 -> exists e, KalmanFilterSmoother X C Q R A F0 P0 = Err e.
Proof.
  intros HT. unfold KalmanFilterSmoother.
  destruct (filter_pass X C Q R A F0 P0) as [st|e]; [|by exists e]. cbn [bind].
  destruct (smoother_pass_short (Z.of_nat (n_rows X)) (n_rows A) (n_cols X) A
              (st_C st) (st_R st) (st_FT st) (st_PT st) (st_PfT st) (st_PpT st))
    as (e & ->); [lia|].
  by exists e.
Qed.

(** X6: KalmanFilter accepts the empty series and returns the
    log-likelihood 0; KalmanSmoother, KalmanFilterSmoother and Estep raise on
    every series of fewer than two time steps, the smoother with an index out
    of bounds when there is no time step at all. *)
Theorem short_series_raise :
  (forall X C Q R A F0 P0,
     n_rows X = 0 -> 1 <= n_rows A ->
     exists out, KalmanFilter X C Q R A F0 P0 = Ok out /\ kf_loglik out = zero) /\
  (forall A C R (FT PT : mat F) (PfT PpT : cube F),
     n_rows FT < 2 ->
     (exists e, KalmanSmoother A C R FT PT PfT PpT = Err e) /\
     (n_rows FT = 0 -> KalmanSmoother A C R FT PT PfT PpT = Err IndexOutOfBounds)) /\
  (forall X C Q R A F0 P0,
     n_rows X < 2 ->
     (exists e, KalmanFilterSmoother X C Q R A F0 P0 = Err e) /\
     (exists e, Estep X C Q R A F0 P0 = Err e)).
Proof.
  split_all.
  - intros X C Q R A F0 P0 HT HA. unfold KalmanFilter, filter_pass.
    rewrite row_eq by lia. cbn [bind]. rewrite HT.
    rewrite for_loop_empty by (simpl; lia). cbn [bind]. eexists. split; reflexivity.
  - intros A C R FT PT PfT PpT HT. split.
    + unfold KalmanSmoother.
      destruct (smoother_pass_short (Z.of_nat (n_rows FT)) (n_rows A) (n_rows C) A C R
                  FT PT (array2cube PfT) (array2cube PpT)) as (e & ->); [lia|].
      by exists e.
    + intros H0. unfold KalmanSmoother, smoother_pass. rewrite H0. reflexivity.
  - intros X C Q R A F0 P0 HT.
    destruct (fused_short X C Q R A F0 P0 HT) as (e & He).
    split; [by exists e|]. exists e. unfold Estep. by rewrite He.
Qed.

End ShortSeries.

(** ** The fused function and the last row of the series *)

Section FusedLastRow.
Context {F : Type} {SF : Scalar F} {LA : Lapack F} {LL : LapackLaws F}.
Implicit Types X C R A Q : mat F.

Lemma inv_shape (M N : mat F) :
  inv M = Ok N -> n_rows N = n_rows M /\ n_cols N = n_rows M.
Proof.
  intros H. apply inv_Ok in H as (Hsq & [[H0 ->]|[Hne Hlap]]).
  - simpl. lia.
  - by apply lapack_inv_spec in Hlap as (_ & Hr & Hc & _).
Qed.

(** The backward pass stores the inverted innovation covariance in an
    n x n slice, so it returns only for a loading of [n] rows. *)
Lemma smoother_pass_loading_rows (T : Z) (rp n : nat) A C R (FT PT : mat F)
    (PfT PpT : cube F) (s : smoother_state F) :
  smoother_pass T rp n A C R FT PT PfT PpT = Ok s -> n_rows C = n.
Proof.
  unfold smoother_pass. intros H. inv_bind H.
  rename x into f, Hx into Hf, x3 into s1, Hx3 into H1, x4 into s2, Hx4 into H2,
    x5 into s3, Hx5 into H3.
  assert (1 <= T)%Z as HT1 by (apply row_Ok in Hf as [? _]; lia).
  apply gain_loop_Ok in H1 as (_ & HL1 & _). cbn [sm_L] in HL1.
  apply smooth_loop_Ok in H2 as (_ & _ & _ & _ & HL2 & _); [|done].
  unfold for_loop in H3. rewrite range_cons in H3 by lia. cbn [for_each] in H3.
  apply bind_Ok in H3 as (sa & Hstep & _).
  unfold innovation_step in Hstep. inv_bind Hstep.
  match goal with H : inv _ = Ok _ |- _ => apply inv_shape in H as (Hr & _) end.
  match goal with H : set_slice (sm_L s2) 0 _ = Ok _ |- _ =>
    apply set_slice_Ok in H as (_ & HLr & _) end.
  rewrite HL2, HL1 in HLr. cbn [c_rows cube_zeros] in HLr.
  inv_ops. shapes. lia.
Qed.

(** The fused function returns only when the last row of the series has no
    missing value: its backward pass runs on the loading as the last filter
    step restricted it. *)
Lemma fused_last_row_observed X C Q R A F0 P0 (st : filter_state F)
    (s : smoother_state F) :
  filter_pass X C Q R A F0 P0 = Ok st ->
  smoother_pass (Z.of_nat (n_rows X)) (n_rows A) (n_cols X) A (st_C st) (st_R st)
    (st_FT st) (st_PT st) (st_PfT st) (st_PpT st) = Ok s ->
  (2 <= Z.of_nat (n_rows X))%Z /\ row_observed X (Z.of_nat (n_rows X) - 1).
Proof.
  intros Hpass Hsm.
  pose proof (smoother_pass_loading_rows _ _ _ _ _ _ _ _ _ _ _ Hsm) as HCn.
  apply smoother_pass_Ok in Hsm as (HT & _). split; [done|].
  unfold filter_pass in Hpass. apply bind_Ok in Hpass as (A0 & HA0 & Hloop).
  apply (for_loop_split 0 _ (Z.of_nat (n_rows X) - 1)) in Hloop
    as (s1 & s2 & _ & Hstep & Hrest); [|lia].
  rewrite for_loop_empty in Hrest by lia. apply Ok_inj in Hrest. subst s2.
  apply filter_step_Ok in Hstep as (C' & R' & S & xe & K & ff & Pf & Hfacts).
  destruct Hfacts as (Xt & Xs & HXt & HC & _ & _ & _ & _ & _ & _ & _ & _ &
                      _ & _ & _ & _ & _ & _ & HstC & _).
  rewrite HstC in HCn. apply submat_Ok in HC as (_ & _ & ->). shapes.
  rewrite (find_finite_row X _ Xt HXt) in HCn.
  intros j Hj.
  apply (filter_length_all
           (fun k => is_finite (elem X (Z.to_nat (Z.of_nat (n_rows X) - 1)) k))
           (seq 0 (n_cols X))); [|apply in_seq; lia].
  by rewrite length_seq.
Qed.

(** X7: KalmanFilterSmoother, and Estep which calls it, raise on every
    series whose last row has a missing value. *)
Theorem fused_raises_on_incomplete_last_row X C Q R A F0 P0 (j : nat) :
  j < n_cols X ->
  is_finite (elem X (Z.to_nat (Z.of_nat (n_rows X) - 1)) j) = false ->
  (exists e, KalmanFilterSmoother X C Q R A F0 P0 = Err e) /\
  (exists e, Estep X C Q R A F0 P0 = Err e).
Proof.
  intros Hj Hmiss.
  assert (exists e, KalmanFilterSmoother X C Q R A F0 P0 = Err e) as (e & He).
  { unfold KalmanFilterSmoother.
    destruct (filter_pass X C Q R A F0 P0) as [st|e] eqn:Hpass; [|by exists e].
    cbn [bind].
    destruct (smoother_pass _ _ _ _ _ _ _ _ _ _) as [s|e] eqn:Hsm; [|by exists e].
    destruct (fused_last_row_observed _ _ _ _ _ _ _ _ _ Hpass Hsm) as (_ & Hobs).
    specialize (Hobs j Hj). congruence. }
  split; [by exists e|]. exists e. unfold Estep. by rewrite He.
Qed.

(** X8: on a model whose C is n x rp and whose R is n x n, whenever
    KalmanFilterSmoother returns, KalmanFilter followed by KalmanSmoother on
    the full C and R returns the same lists. *)
Theorem fused_refines_composition X C Q R A F0 P0 (out : fused_out F) :
  wf C = true -> wf R = true ->
  n_rows C = n_cols X -> n_cols C = n_cols A ->
  n_rows R = n_cols X -> n_cols R = n_cols X ->
  KalmanFilterSmoother X C Q R A F0 P0 = Ok out ->
  filter_then_smoother X C Q R A F0 P0 = Ok out.
Proof.
  intros HwC HwR HCr HCc HRr HRc H. unfold KalmanFilterSmoother in H.
  apply bind_Ok in H as (st & Hpass & H). apply bind_Ok in H as (s & Hsm & Hout).
  destruct (fused_last_row_observed _ _ _ _ _ _ _ _ _ Hpass Hsm) as (HT & Hobs).
  destruct (filter_pass_checks _ _ _ _ _ _ _ _ Hpass) as (_ & HA); [lia|].
  destruct (filter_pass_restores_C_R X C Q R A F0 P0 st HwC HwR HCr HCc HRr HRc
              HA Hobs Hpass) as (EC & ER & EFT).
  unfold filter_then_smoother, KalmanFilter, KalmanSmoother, array2cube.
  rewrite Hpass. cbn [bind kf_F kf_P kf_Pf kf_Pp kf_loglik].
  rewrite EC, ER in Hsm. rewrite EFT, HCr, Hsm. exact Hout.
Qed.

End FusedLastRow.

(** ** A series with nothing observed *)

Section AllMissingSeries.
Context {F : Type} {SF : Scalar F} {LA : Lapack F} {SL : ScalarLaws F}.
Implicit Types X C R A Q tC tR : mat F.
Implicit Types st : filter_state F.

Lemma pure_prediction_at_frame (Fh Fh' Ph Ph' : mat F) (Pfh Pfh' Pph Pph' : cube F)
    (t : Z) :
  pure_prediction_at Fh Ph Pfh Pph t ->
  row Fh' t = row Fh t -> row Ph' t = row Ph t ->
  slice Pfh' t = slice Pfh t -> slice Pph' t = slice Pph t ->
  pure_prediction_at Fh' Ph' Pfh' Pph' t.
Proof.
  intros (f & P & H) E1 E2 E3 E4. exists f, P. by rewrite E1, E2, E3, E4.
Qed.

(** One step of the loop at a row with nothing observed: it returns, keeps
    the shapes, adds the constant term and stores the prediction twice. *)
Lemma forecast_step X tC tR A Q (n r T : nat) (i : Z) st :
  n_rows X = T -> (0 <= i < Z.of_nat T)%Z ->
  mat_shape A r r -> mat_finite A = true ->
  mat_shape Q r r -> mat_finite Q = true -> r <= n_cols tC ->
  filter_state_ok r T st -> row_all_missing X i ->
  exists st',
    filter_step X tC tR A Q (seq 0 r) n i st = Ok st' /\
    filter_state_ok r T st' /\
    st_loglik st' = st_loglik st ⊕ all_missing_increment n /\
    pure_prediction_at (st_FT st') (st_PT st') (st_PfT st') (st_PpT st') i /\
    (forall k, k <> i ->
       row (st_PT st') k = row (st_PT st) k /\
       row (st_FT st') k = row (st_FT st) k /\
       slice (st_PpT st') k = slice (st_PpT st) k /\
       slice (st_PfT st') k = slice (st_PfT st) k).
Proof.
  intros HT Hi (HwA & HAr & HAc) HfA (HwQ & HQr & HQc) HfQ HCc
    ((Hwfp & Hfpr & Hfpc) & (HwPp & HPpr & HPpc) & HfPp & HF & HP & HPf & HPp) Hmiss.
  assert (step_ready X tC A Q (seq 0 r) i st) as Hready.
  { destruct HF as (_ & HFr & HFc), HP as (_ & HPr & HPc).
    destruct HPf as (HPf1 & HPf2 & HPf3 & _), HPp as (HPp1 & HPp2 & HPp3 & _).
    unfold step_ready. rewrite HPpr, length_seq.
    split_all; try lia.
    apply List.Forall_forall. intros j Hj. apply in_seq in Hj. lia. }
  destruct (all_missing_step_total X tC tR A Q (seq 0 r) n i st Hready Hmiss)
    as (st' & Hstep).
  exists st'. split; [exact Hstep|].
  destruct (filter_step_stores_prediction _ _ _ _ _ _ _ _ _ _ Hstep) as (HsP & HsPp).
  destruct (all_missing_step_stores _ _ _ _ _ _ _ _ _ _ Hmiss Hstep Hwfp HwPp HfPp)
    as (HsF & HsPf).
  pose proof (filter_step_frame _ _ _ _ _ _ _ _ _ _ Hstep) as (Hframe & _).
  apply filter_step_Ok in Hstep as (C & R & S & xe & K & ff & Pf & Hfacts).
  destruct (all_missing_update _ _ _ _ _ _ _ _ _ _ _ _ _ _ _ _ _
              Hmiss Hfacts Hwfp HwPp HfPp) as (Eff & EPf).
  destruct (all_missing_shapes _ _ _ _ _ _ _ _ _ _ _ _ _ _ _ _ _ Hmiss Hfacts)
    as (_ & ES & Hxr & Hxc).
  destruct Hfacts as (Xt & Xs & _ & _ & _ & _ & _ & _ & _ & _ & _ & Hll &
                      HsetP & HsetPp & HsetF & HsetPf & Efp & EPp & _).
  subst ff Pf S.
  split; [|split; [|split; [|exact Hframe]]].
  - unfold filter_state_ok. rewrite Efp, EPp.
    split; [|split; [|split; [|split; [|split; [|split]]]]].
    + unfold mat_shape. shapes. split_all; [apply wf_mmul | done | done].
    + unfold mat_shape. shapes. split_all; [apply wf_madd | done | done].
    + apply madd_finite; shapes; try done; try lia; [apply wf_mmul|].
      apply sandwich_finite; try done; lia.
    + by apply (mat_shape_set_row _ _ _ _ _ _ HF HsetF).
    + by apply (mat_shape_set_row _ _ _ _ _ _ HP HsetP).
    + by apply (cube_shape_set _ _ _ _ _ _ _ HPf HsetPf).
    + by apply (cube_shape_set _ _ _ _ _ _ _ HPp HsetPp).
  - rewrite loglik_update_empty in Hll by done. by apply Ok_inj in Hll.
  - exists (trans (st_fp st)), (st_Pp st). done.
Qed.

(** X9: on a model of consistent shapes with finite A, Q and P0, and a
    series in which no cell is observed, KalmanFilter returns; every filtered
    mean and covariance equals the predicted one of the same time, and the
    log-likelihood is the constant term -1/2 * (n * log(2 pi) - log 1 + 0)
    added once per time step. *)
Theorem all_missing_series_is_pure_forecast X C Q R A F0 P0 :
  model_shapes C Q A F0 P0 (n_rows A) -> first_row_finite A ->
  wf A = true -> mat_finite A = true -> wf Q = true -> mat_finite Q = true ->
  wf F0 = true -> wf P0 = true -> mat_finite P0 = true ->
  series_all_missing X ->
  exists out, KalmanFilter X C Q R A F0 P0 = Ok out /\
    kf_loglik out = sum_n (n_rows X) (fun _ => all_missing_increment (n_cols X)) /\
    forall t, (0 <= t < Z.of_nat (n_rows X))%Z ->
      pure_prediction_at (kf_F out) (kf_P out) (kf_Pf out) (kf_Pp out) t.
Proof.
  intros (Hr1 & _ & HAc & HQr & HQc & HP0r & HP0c & HF0r & HF0c & HCc)
    HA HwA HfA HwQ HfQ HwF0 HwP0 HfP0 Hmiss.
  unfold KalmanFilter, filter_pass.
  pose proof (row_eq A 0 ltac:(lia)) as HA0. rewrite HA0. cbn [bind].
  rewrite (find_finite_all_finite A 0 _ HA0 HA), HAc.
  set (r := n_rows A) in *. set (T := n_rows X).
  set (body := filter_step X C R A Q (seq 0 r) (n_cols X)).
  pose (P := fun (i : Z) (s : filter_state F) =>
    filter_state_ok r T s /\
    st_loglik s = sum_n (Z.to_nat i) (fun _ => all_missing_increment (n_cols X)) /\
    forall t, (0 <= t < i)%Z ->
      pure_prediction_at (st_FT s) (st_PT s) (st_PfT s) (st_PpT s) t).
  destruct (for_loop_total P 0 (Z.of_nat T) body) with (s := filter_init X C R A F0 P0)
    as (sT & Hrun & (_ & Hll & Hpure)).
  - lia.
  - intros i s Hi (Hok & Hll & Hpure).
    destruct (forecast_step X C R A Q (n_cols X) r T i s) as
      (s' & Hstep & Hok' & Hll' & Hat & Hframe); try done.
    { by apply Hmiss. }
    exists s'. split; [exact Hstep|]. split; [exact Hok'|]. split.
    + rewrite Hll', Hll. replace (Z.to_nat (i + 1)) with (S (Z.to_nat i)) by lia.
      reflexivity.
    + intros t Ht. destruct (decide (t = i)) as [->|Hne]; [exact Hat|].
      destruct (Hframe t Hne) as (E1 & E2 & E3 & E4).
      apply (pure_prediction_at_frame (st_FT s) _ (st_PT s) _ (st_PfT s) _ (st_PpT s));
        try done.
      apply Hpure. lia.
  - split; [|split; [reflexivity | intros; lia]].
    unfold filter_state_ok, filter_init. cbn [st_fp st_Pp st_FT st_PT st_PfT st_PpT].
    fold T. rewrite Nat2Z.id.
    replace (Z.to_nat (Z.of_nat T + 1)) with (S T) by lia.
    split_all; try done.
    + apply mat_shape_zeros.
    + apply mat_shape_zeros.
    + apply cube_shape_zeros.
    + apply cube_shape_zeros.
  - rewrite Hrun. cbn [bind]. eexists. split; [reflexivity|].
    cbn [kf_loglik kf_F kf_P kf_Pf kf_Pp]. rewrite Nat2Z.id in Hll. done.
Qed.

End AllMissingSeries.

(** ** The lag-one cross-covariances of the backward pass *)

Section LagOne.
Context {F : Type} {SF : Scalar F} {LA : Lapack F}.
Implicit Types A C R FT PT : mat F.
Implicit Types PfT PpT : cube F.
Implicit Types s : smoother_state F.

(** Lines 143-144 store the Kalman gain of time [i]. *)
Lemma innovation_step_gain C R PpT (i : Z) s s' :
  innovation_step C R PpT i s = Ok s' ->
  exists K, kalman_gain_at C R PpT i K /\ slice (sm_K s') i = Ok K.
Proof.
  unfold innovation_step. intros H. inv_bind H.
  match goal with
  | H1 : set_slice (sm_L s) i _ = Ok ?L, H2 : slice ?L i = Ok _ |- _ =>
      rewrite (slice_set_slice_same _ _ _ _ H1) in H2
  end.
  match goal with
  | H1 : set_slice (sm_K s) i _ = Ok _ |- _ =>
      pose proof (slice_set_slice_same _ _ _ _ H1) as HK
  end.
  inv_ops. cbn [sm_K]. eexists. split; [|exact HK].
  unfold kalman_gain_at. eauto.
Qed.

Lemma innovation_loop_last_gain C R PpT (T : Z) s s' :
  (1 <= T)%Z ->
  for_loop 0 T (innovation_step C R PpT) s = Ok s' ->
  exists K, kalman_gain_at C R PpT (T - 1) K /\ slice (sm_K s') (T - 1) = Ok K.
Proof.
  intros HT H.
  apply (for_loop_split 0 T (T - 1)) in H as (s1 & s2 & _ & Hstep & Hrest); [|lia].
  rewrite for_loop_empty in Hrest by lia. apply Ok_inj in Hrest. subst s2.
  by apply innovation_step_gain in Hstep.
Qed.

(** Line 147 *)
Lemma lag_one_seed_value (T : Z) (rp : nat) A C PfT s s' :
  lag_one_seed T rp A C PfT s = Ok s' ->
  exists KT Pf2,
    slice (sm_K s) (T - 1) = Ok KT /\ slice PfT (T - 2) = Ok Pf2 /\
    slice (sm_PsTm s') (T - 1) =
      Ok (mmul (mmul (msub (eye rp rp) (mmul KT C)) A) Pf2).
Proof.
  unfold lag_one_seed. intros H. inv_bind H.
  match goal with
  | H1 : set_slice (sm_PsTm s) _ _ = Ok _ |- _ =>
      pose proof (slice_set_slice_same _ _ _ _ H1) as HW
  end.
  inv_ops. cbn [sm_PsTm]. eauto.
Qed.

(** Lines 150-152 *)
Lemma lag_one_step_value (T : Z) A PfT (j : Z) s s' :
  lag_one_step T A PfT j s = Ok s' ->
  exists Pf Jp Jt W1,
    slice PfT (T - j) = Ok Pf /\ slice (sm_J s) (T - j - 1) = Ok Jp /\
    slice (sm_J s) (T - j) = Ok Jt /\ slice (sm_PsTm s) (T - j + 1) = Ok W1 /\
    set_slice (sm_PsTm s) (T - j)
      (madd (mmul Pf (trans Jp)) (mmul (mmul Jt (msub W1 (mmul A Pf))) (trans Jp)))
      = Ok (sm_PsTm s') /\
    sm_J s' = sm_J s.
Proof.
  unfold lag_one_step. intros H. inv_bind H. inv_ops. cbn [sm_PsTm sm_J].
  do 4 eexists. split_all; try eassumption. reflexivity.
Qed.

Lemma lag_at_frame A PfT (J W W' : cube F) (t : Z) :
  lag_at A PfT J W t ->
  slice W' t = slice W t -> slice W' (t + 1) = slice W (t + 1) ->
  lag_at A PfT J W' t.
Proof.
  intros (Pf & Jp & Jt & W1 & H) E1 E2. exists Pf, Jp, Jt, W1.
  by rewrite E1, E2.
Qed.

Lemma lag_one_loop_value (T : Z) A PfT s s' :
  for_loop 2 (T - 1) (lag_one_step T A PfT) s = Ok s' ->
  (forall t, (2 <= t <= T - 2)%Z -> lag_at A PfT (sm_J s) (sm_PsTm s') t) /\
  slice (sm_PsTm s') (T - 1) = slice (sm_PsTm s) (T - 1).
Proof.
  intros Hrun.
  pose (P := fun (j : Z) (a : smoother_state F) =>
    (forall t, (T - j + 1 <= t <= T - 2)%Z -> lag_at A PfT (sm_J s) (sm_PsTm a) t) /\
    slice (sm_PsTm a) (T - 1) = slice (sm_PsTm s) (T - 1) /\
    sm_J a = sm_J s).
  assert (P (Z.max 2 (T - 1)) s') as (Hlag & Hlast & _).
  { apply (for_loop_invariant_max P 2 (T - 1) (lag_one_step T A PfT)) with (s := s);
      [|split; [intros; lia | done]|done].
    intros j a a' Hj (Hlag & Hlast & HJ) Hstep.
    apply lag_one_step_value in Hstep
      as (Pf & Jp & Jt & W1 & HPf & HJp & HJt & HW1 & Hset & HJ').
    split; [|split; [|congruence]].
    - intros t Ht. destruct (decide (t = T - j)%Z) as [->|Hne].
      + exists Pf, Jp, Jt, W1. rewrite <- HJ. split_all; try done.
        * rewrite (slice_set_slice_other _ _ _ _ _ Hset) by lia. done.
        * by eapply slice_set_slice_same.
      + apply (lag_at_frame _ _ _ (sm_PsTm a)).
        * apply Hlag. lia.
        * apply (slice_set_slice_other _ _ _ _ _ Hset). lia.
        * apply (slice_set_slice_other _ _ _ _ _ Hset). lia.
    - rewrite (slice_set_slice_other _ _ _ _ _ Hset) by lia. done. }
  split; [|done]. intros t Ht. apply Hlag. lia.
Qed.

(** What the backward pass leaves in the lag-one history. *)
Lemma smoother_pass_lag_one (T : Z) (rp n : nat) A C R FT PT PfT PpT s :
  smoother_pass T rp n A C R FT PT PfT PpT = Ok s ->
  lag_one_last A C R PfT PpT rp T (sm_PsTm s) /\
  forall t, (2 <= t <= T - 2)%Z -> lag_one_at A PfT PpT (sm_PsTm s) t.
Proof.
  unfold smoother_pass. intros H. inv_bind H.
  rename x into f, Hx into Hf, x3 into s1, Hx3 into H1, x4 into s2, Hx4 into H2,
    x5 into s3, Hx5 into H3, x6 into s4, Hx6 into H4.
  assert (1 <= T)%Z as HT1 by (apply row_Ok in Hf as [? _]; lia).
  apply gain_loop_Ok in H1 as (HJ1 & _).
  apply smooth_loop_Ok in H2 as (_ & _ & _ & HJ2 & _); [|done].
  pose proof (innovation_loop_last_gain _ _ _ _ _ _ HT1 H3) as (K & HK & HsK).
  apply innovation_loop_Ok in H3 as (HJ3 & _).
  pose proof (lag_one_seed_value _ _ _ _ _ _ _ H4) as (KT & Pf2 & HKT & HPf2 & Hseed).
  apply lag_one_seed_Ok in H4 as (_ & HJ4 & _).
  apply lag_one_loop_value in H as (Hlag & Hlast).
  assert (KT = K) as -> by congruence.
  split.
  - exists K, Pf2. split; [done|]. split; [done|]. by rewrite Hlast.
  - intros t Ht. destruct (Hlag t Ht) as (Pf & Jp & Jt & W1 & HPf & HJp & HJt & HW).
    rewrite HJ4, HJ3, HJ2 in HJp, HJt.
    destruct (HJ1 (t - 1)%Z) as (Jp' & HJp' & Hgp); [lia|].
    destruct (HJ1 t) as (Jt' & HJt' & Hgt); [lia|].
    assert (Jp' = Jp) as -> by congruence.
    assert (Jt' = Jt) as -> by congruence.
    exists Pf, Jp, Jt, W1. done.
Qed.

(** X10: the lag-one cross-covariances KalmanSmoother returns: the last
    slice is (I - K * C) * A * Pf_{T-2} with the Kalman gain
    K = Pp_{T-1} * C' * (C * Pp_{T-1} * C' + R)^-1, and for t from T-2 down
    to 2, PsTm_t = Pf_t * J_{t-1}' + J_t * (PsTm_{t+1} - A * Pf_t) * J_{t-1}'
    with the smoother gains J_t = Pf_t * A' * (Pp_{t+1})^-1. *)
Theorem smoother_lag_one_recursion A C R FT PT PfT PpT (out : smoother_out F) :
  KalmanSmoother A C R FT PT PfT PpT = Ok out ->
  let T := Z.of_nat (n_rows FT) in
  lag_one_last A C R PfT PpT (n_rows A) T (ks_PsTm out) /\
  forall t, (2 <= t <= T - 2)%Z -> lag_one_at A PfT PpT (ks_PsTm out) t.
Proof.
  unfold KalmanSmoother, array2cube. intros H.
  apply bind_Ok in H as (s & Hpass & [= <-]). cbn [ks_PsTm].
  by apply smoother_pass_lag_one in Hpass.
Qed.

End LagOne.

(** ** The shapes of the smoothed histories *)

Section SmootherShapes.
Context {F : Type} {SF : Scalar F} {LA : Lapack F}.
Implicit Types A C R FT PT : mat F.
Implicit Types PfT PpT : cube F.
Implicit Types s : smoother_state F.

Lemma smoother_pass_shapes (T : Z) (rp n : nat) A C R FT PT PfT PpT s :
  smoother_pass T rp n A C R FT PT PfT PpT = Ok s ->
  mat_shape (sm_FsT s) (Z.to_nat T) rp /\
  cube_shape (sm_PsT s) rp rp (Z.to_nat T) /\
  cube_shape (sm_PsTm s) rp rp (Z.to_nat T).
Proof.
  unfold smoother_pass. intros H. inv_bind H.
  rename x into f, Hx into Hf, x0 into Fs0, Hx0 into HFs0, x1 into Pf, Hx1 into HPf,
    x2 into Ps0, Hx2 into HPs0, x3 into s1, Hx3 into H1, x4 into s2, Hx4 into H2,
    x5 into s3, Hx5 into H3, x6 into s4, Hx6 into H4.
  assert (mat_shape Fs0 (Z.to_nat T) rp) as HsF0
    by (eapply mat_shape_set_row; [apply mat_shape_zeros | exact HFs0]).
  assert (cube_shape Ps0 rp rp (Z.to_nat T)) as HsP0
    by (eapply cube_shape_set; [apply cube_shape_zeros | exact HPs0]).
  apply gain_loop_Ok in H1 as (_ & _ & _ & HW1 & HF1 & HP1).
  cbn [sm_PsTm sm_FsT sm_PsT] in HW1, HF1, HP1.
  assert (mat_shape (sm_FsT s2) (Z.to_nat T) rp /\
          cube_shape (sm_PsT s2) rp rp (Z.to_nat T) /\
          sm_PsTm s2 = sm_PsTm s1) as (HF2 & HP2 & HW2).
  { revert H2. apply (for_each_invariant (fun a =>
      mat_shape (sm_FsT a) (Z.to_nat T) rp /\
      cube_shape (sm_PsT a) rp rp (Z.to_nat T) /\
      sm_PsTm a = sm_PsTm s1)).
    - intros j a a' _ (HaF & HaP & HaW) Hstep.
      apply smooth_step_Ok in Hstep
        as (Jt & f' & fs & fs1 & p1 & Pf' & Pst & Ps1 & Pp1 & _ & _ & _ & _ & _ & _ & _ &
            _ & _ & _ & HsetF & HsetP & _ & _ & _ & HW').
      split; [|split; [|congruence]].
      + by apply (mat_shape_set_row _ _ _ _ _ _ HaF HsetF).
      + by apply (cube_shape_set _ _ _ _ _ _ _ HaP HsetP).
    - rewrite HF1, HP1. done. }
  apply innovation_loop_Ok in H3 as (_ & HW3 & HF3 & HP3).
  apply lag_one_seed_Ok in H4 as ((W & Pf2 & Hseed & _) & _ & HF4 & HP4).
  assert (cube_shape (sm_PsTm s4) rp rp (Z.to_nat T)) as HW4.
  { eapply cube_shape_set; [|exact Hseed]. rewrite HW3, HW2, HW1.
    apply cube_shape_zeros. }
  assert (cube_shape (sm_PsTm s) rp rp (Z.to_nat T) /\
          sm_FsT s = sm_FsT s4 /\ sm_PsT s = sm_PsT s4) as (HW5 & HF5 & HP5).
  { revert H. apply (for_each_invariant (fun a =>
      cube_shape (sm_PsTm a) rp rp (Z.to_nat T) /\
      sm_FsT a = sm_FsT s4 /\ sm_PsT a = sm_PsT s4)); [|done].
    intros j a a' _ (HaW & HaF & HaP) Hstep.
    apply lag_one_step_Ok in Hstep as ((W' & Hset) & _ & HF' & HP').
    split; [|split; congruence].
    by apply (cube_shape_set _ _ _ _ _ _ _ HaW Hset). }
  rewrite HF5, HF4, HF3, HP5, HP4, HP3. done.
Qed.

(** X11: the smoothed histories KalmanSmoother and KalmanFilterSmoother
    return have the shapes of their declarations: Fs is T x rp, Ps and PsTm
    have T slices, each rp x rp. *)
Theorem smoother_history_shapes :
  (forall A C R FT PT PfT PpT (out : smoother_out F),
     KalmanSmoother A C R FT PT PfT PpT = Ok out ->
     mat_shape (ks_Fs out) (n_rows FT) (n_rows A) /\
     cube_shape (ks_Ps out) (n_rows A) (n_rows A) (n_rows FT) /\
     cube_shape (ks_PsTm out) (n_rows A) (n_rows A) (n_rows FT)) /\
  (forall (X C Q R A F0 P0 : mat F) (out : fused_out F),
     KalmanFilterSmoother X C Q R A F0 P0 = Ok out ->
     mat_shape (kfs_Fs out) (n_rows X) (n_rows A) /\
     cube_shape (kfs_Ps out) (n_rows A) (n_rows A) (n_rows X) /\
     cube_shape (kfs_PsTm out) (n_rows A) (n_rows A) (n_rows X)).
Proof.
  split.
  - intros A C R FT PT PfT PpT out H. unfold KalmanSmoother, array2cube in H.
    apply bind_Ok in H as (s & Hpass & [= <-]). cbn [ks_Fs ks_Ps ks_PsTm].
    apply smoother_pass_shapes in Hpass. by rewrite Nat2Z.id in Hpass.
  - intros X C Q R A F0 P0 out H. unfold KalmanFilterSmoother in H.
    apply bind_Ok in H as (st & _ & H). apply bind_Ok in H as (s & Hpass & [= <-]).
    cbn [kfs_Fs kfs_Ps kfs_PsTm].
    apply smoother_pass_shapes in Hpass. by rewrite Nat2Z.id in Hpass.
Qed.

End SmootherShapes.

(** ** The E-step *)

Section EstepRuns.
Context {F : Type} {SF : Scalar F} {LA : Lapack F}.
Implicit Types X C R A Q : mat F.

Lemma slice_total (H : cube F) (r c s : nat) (t : Z) :
  cube_shape H r c s -> (0 <= t < Z.of_nat s)%Z ->
  exists M, slice H t = Ok M /\ n_rows M = r /\ n_cols M = c.
Proof.
  intros (_ & _ & Hs & Hall) Ht. unfold n_slices in Hs.
  destruct (slices H !! Z.to_nat t) as [M|] eqn:E.
  - assert (slice H t = Ok M) as HM by (apply slice_eq; [lia | done]).
    exists M. split; [done|]. by apply (Hall t).
  - apply lookup_ge_None in E. lia.
Qed.

(** One iteration of the loop at line 36 returns on accumulators and
    histories of the declared shapes, and keeps the shapes. *)
Lemma estep_step_total (X Fs : mat F) (Ps W : cube F) (n r T : nat) (t : Z)
    (acc : estep_acc F) :
  n_rows X = T -> n_cols X = n -> n_rows Fs = T -> n_cols Fs = r ->
  cube_shape Ps r r T -> cube_shape W r r T ->
  (0 <= t < Z.of_nat T)%Z ->
  mat_shape (acc_delta acc) n r -> mat_shape (acc_gamma acc) r r ->
  mat_shape (acc_beta acc) r r ->
  exists acc', estep_step X Fs Ps W t acc = Ok acc' /\
    mat_shape (acc_delta acc') n r /\ mat_shape (acc_gamma acc') r r /\
    mat_shape (acc_beta acc') r r.
Proof.
  intros HXr HXc HFr HFc HPs HW Ht (Hwd & Hdr & Hdc) (Hwg & Hgr & Hgc) (Hwb & Hbr & Hbc).
  destruct (slice_total Ps r r T t HPs Ht) as (Pst & HPst & HPr & HPc).
  destruct (slice_total W r r T t HW Ht) as (Wt & HWt & HWr & HWc).
  unfold estep_step.
  rewrite row_eq by lia. cbn [bind].
  rewrite row_eq by lia. cbn [bind].
  rewrite mtimes_eq by (shapes; simpl; lia). cbn [bind].
  rewrite mplus_eq by (shapes; simpl; lia). cbn [bind].
  rewrite mtimes_eq by (shapes; simpl; lia). cbn [bind].
  rewrite HPst. cbn [bind].
  rewrite mplus_eq by (shapes; simpl; lia). cbn [bind].
  rewrite mplus_eq by (shapes; simpl; lia). cbn [bind].
  destruct (t >? 0)%Z eqn:Et.
  - apply Z.gtb_lt in Et.
    rewrite row_eq by lia. cbn [bind].
    rewrite mtimes_eq by (shapes; simpl; lia). cbn [bind].
    rewrite HWt. cbn [bind].
    rewrite mplus_eq by (shapes; simpl; lia). cbn [bind].
    rewrite mplus_eq by (shapes; simpl; lia). cbn [bind].
    eexists. split; [reflexivity|]. cbn [acc_delta acc_gamma acc_beta].
    unfold mat_shape. shapes. split_all; try done; apply wf_madd.
  - cbn [bind]. eexists. split; [reflexivity|]. cbn [acc_delta acc_gamma acc_beta].
    unfold mat_shape. shapes. split_all; try done; apply wf_madd.
Qed.

(** X12: Estep adds no failure of its own: whenever KalmanFilterSmoother
    returns, Estep returns; it hands on the log-likelihood, the first
    smoothed mean (as a column) and the first smoothed covariance, and its
    moments have the shapes delta n x rp and beta, gamma, gamma1, gamma2
    rp x rp. *)
Theorem estep_returns_when_fused_returns X C Q R A F0 P0 (ks : fused_out F) :
  KalmanFilterSmoother X C Q R A F0 P0 = Ok ks ->
  exists out f0,
    Estep X C Q R A F0 P0 = Ok out /\
    es_loglik out = kfs_loglik ks /\
    row (kfs_Fs ks) 0 = Ok f0 /\ es_F0 out = trans f0 /\
    slice (kfs_Ps ks) 0 = Ok (es_P0 out) /\
    mat_shape (es_delta out) (n_cols X) (n_rows A) /\
    mat_shape (es_beta out) (n_rows A) (n_rows A) /\
    mat_shape (es_gamma out) (n_rows A) (n_rows A) /\
    mat_shape (es_gamma1 out) (n_rows A) (n_rows A) /\
    mat_shape (es_gamma2 out) (n_rows A) (n_rows A).
Proof.
  intros Hks. unfold Estep. rewrite Hks. cbn [bind]. unfold array2cube.
  unfold KalmanFilterSmoother in Hks.
  apply bind_Ok in Hks as (st & _ & Hks). apply bind_Ok in Hks as (s & Hpass & Hks).
  apply Ok_inj in Hks. subst ks. cbn [kfs_Fs kfs_Ps kfs_PsTm kfs_loglik].
  pose proof (smoother_pass_shapes _ _ _ _ _ _ _ _ _ _ _ Hpass)
    as ((HwFs & HFr & HFc) & HPs & HW).
  apply smoother_pass_Ok in Hpass as (HT & _).
  rewrite Nat2Z.id in HFr, HPs, HW.
  set (T := n_rows X) in *. set (r := n_rows A) in *. set (n := n_cols X) in *.
  set (Fs := sm_FsT s) in *. set (Ps := sm_PsT s) in *. set (W := sm_PsTm s) in *.
  pose (P := fun (_ : Z) (acc : estep_acc F) =>
    mat_shape (acc_delta acc) n r /\ mat_shape (acc_gamma acc) r r /\
    mat_shape (acc_beta acc) r r).
  destruct (for_loop_total P 0 (Z.of_nat T) (estep_step (zero_nonfinite X) Fs Ps W))
    with (s := EstepAcc (zeros n r) (zeros r r) (zeros r r))
    as (acc & Hrun & (Hd & (Hwg & Hgr & Hgc) & Hb)).
  - lia.
  - intros i a Hi (Had & Hag & Hab).
    by apply (estep_step_total (zero_nonfinite X) Fs Ps W n r T i a).
  - unfold P. cbn [acc_delta acc_gamma acc_beta]. split_all; apply mat_shape_zeros.
  - rewrite Hrun. cbn [bind].
    destruct (slice_total Ps r r T (Z.of_nat T - 1) HPs) as (PsL & HPsL & HLr & HLc);
      [lia|].
    destruct (slice_total Ps r r T 0 HPs) as (Ps0 & HPs0 & H0r & H0c); [lia|].
    rewrite row_eq by lia. cbn [bind].
    rewrite mtimes_eq by (shapes; simpl; lia). cbn [bind].
    rewrite mminus_eq by (shapes; simpl; lia). cbn [bind].
    rewrite HPsL. cbn [bind].
    rewrite mminus_eq by (shapes; simpl; lia). cbn [bind].
    rewrite row_eq by lia. cbn [bind].
    rewrite mtimes_eq by (shapes; simpl; lia). cbn [bind].
    rewrite mminus_eq by (shapes; simpl; lia). cbn [bind].
    rewrite HPs0. cbn [bind].
    rewrite mminus_eq by (shapes; simpl; lia). cbn [bind].
    do 2 eexists. split; [reflexivity|].
    cbn [es_loglik es_F0 es_P0 es_delta es_beta es_gamma es_gamma1 es_gamma2].
    split; [reflexivity|]. split; [reflexivity|]. split; [reflexivity|].
    split; [reflexivity|]. split; [exact Hd|]. split; [exact Hb|].
    split; [done|].
    unfold mat_shape. shapes. split_all; try done; apply wf_msub.
Qed.

End EstepRuns.

(** ** Symmetry of the moments of the E-step *)

Section EstepSymmetry.
Context {F : Type} {SF : Scalar F} {LA : Lapack F}.
Context {SL : ScalarLaws F} {LL : LapackLaws F}.
Implicit Types X C R A Q : mat F.

(** The outer product of a row with itself. *)
Lemma outer_symmetric (f : mat F) :
  wf f = true -> trans (mmul (trans f) f) = mmul (trans f) f.
Proof.
  intros Hw. rewrite trans_mmul by (by shapes). by rewrite trans_trans.
Qed.

Lemma estep_step_gamma_symmetric (X Fs : mat F) (Ps W : cube F) (t : Z)
    (acc acc' : estep_acc F) :
  cube_cov_ok Ps -> trans (acc_gamma acc) = acc_gamma acc ->
  estep_step X Fs Ps W t acc = Ok acc' ->
  trans (acc_gamma acc') = acc_gamma acc'.
Proof.
  intros HPs Hsym H. unfold estep_step in H. inv_bind H.
  match goal with H : slice Ps t = Ok _ |- _ => apply HPs in H as (HsP & _) end.
  match goal with H : row Fs t = Ok _ |- _ => apply row_Ok in H as (_ & Hrow) end.
  inv_ops. cbn [acc_gamma]. shapes.
  apply madd_symmetric; [done | | by shapes].
  apply madd_symmetric; [| done | by shapes].
  apply outer_symmetric. apply wf_build.
Qed.

(** X13: for a model with finite matrices and symmetric Q, R and P0, the
    second moments gamma, gamma1 and gamma2 that Estep returns are symmetric,
    and so is the covariance P0 it hands on. *)
Theorem estep_moments_symmetric X C Q R A F0 P0 (out : estep_out F) :
  model_ok C Q R A -> cov_ok P0 ->
  Estep X C Q R A F0 P0 = Ok out ->
  symmetric (es_gamma out) /\ symmetric (es_gamma1 out) /\
  symmetric (es_gamma2 out) /\ symmetric (es_P0 out).
Proof.
  intros Hmodel HP0 H. unfold Estep, array2cube in H.
  apply bind_Ok in H as (ks & Hks & H).
  assert (cube_cov_ok (kfs_Ps ks)) as HPs.
  { unfold KalmanFilterSmoother in Hks.
    apply bind_Ok in Hks as (st & Hpass & Hks).
    apply bind_Ok in Hks as (s & Hsm & [= <-]). cbn [kfs_Ps].
    destruct (filter_pass_cov_ok X C Q R A F0 P0 st Hmodel HP0 Hpass) as (HPp & HPf).
    destruct Hmodel as (_ & _ & HwA & HfA & _).
    by apply (smoother_pass_cov_ok _ _ _ _ _ _ _ _ _ _ s HwA HfA HPf HPp) in Hsm. }
  apply bind_Ok in H as (acc & Hloop & H).
  assert (trans (acc_gamma acc) = acc_gamma acc) as Hg.
  { revert Hloop. apply (for_each_invariant (fun a => trans (acc_gamma a) = acc_gamma a)).
    - intros i a a' _ Ha Hstep. by apply (estep_step_gamma_symmetric _ _ _ _ _ _ _ HPs Ha Hstep).
    - apply trans_zeros. }
  inv_bind H.
  repeat match goal with
         | H : slice (kfs_Ps ks) _ = Ok _ |- _ => apply HPs in H as (? & _)
         | H : row (kfs_Fs ks) _ = Ok _ |- _ => apply row_Ok in H as (_ & ?)
         end.
  inv_ops. cbn [es_gamma es_gamma1 es_gamma2 es_P0]. unfold symmetric.
  split; [done|]. split; [|split; [|done]].
  - apply msub_symmetric; [| done | by shapes].
    apply msub_symmetric; [done | | by shapes].
    apply outer_symmetric. apply wf_build.
  - apply msub_symmetric; [| done | by shapes].
    apply msub_symmetric; [done | | by shapes].
    apply outer_symmetric. apply wf_build.
Qed.

End EstepSymmetry.

(** ** The update at a row without missing values *)

Section ObservedRow.
Context {F : Type} {SF : Scalar F} {LA : Lapack F}.
Implicit Types X C R A Q : mat F.

(** The restriction of row [t] to every column is row [t]. *)
Lemma submat_whole_row X (t : Z) (Xt Xs : mat F) :
  row X t = Ok Xt -> submat X [Z.to_nat t] (seq 0 (n_cols X)) = Ok Xs -> Xs = Xt.
Proof.
  intros HXt HXs. apply row_Ok in HXt as (_ & ->).
  apply submat_Ok in HXs as (_ & _ & ->). rewrite length_seq. simpl.
  apply build_ext. intros i j Hi Hj. rewrite seq_nth by lia.
  by replace i with 0 by lia.
Qed.

(** X14: at a time whose row of X has no missing value, on a model whose C
    is n x rp and whose R is n x n, the filtered mean and covariance
    KalmanFilter returns are the textbook update of the predicted ones with
    the full C and R: with S = (C * Pp_t * C' + R)^-1 and K = Pp_t * C' * S,
    F_t = P_t + K * (x_t - C * P_t) and Pf_t = Pp_t - K * C * Pp_t. *)
Theorem filter_update_on_observed_row X C Q R A F0 P0 (out : filter_out F) (t : Z) :
  KalmanFilter X C Q R A F0 P0 = Ok out ->
  wf F0 = true -> wf C = true -> wf R = true ->
  n_rows C = n_cols X -> n_cols C = n_cols A ->
  n_rows R = n_cols X -> n_cols R = n_cols X ->
  (0 <= t < Z.of_nat (n_rows X))%Z -> row_observed X t ->
  full_update_at X C R (kf_F out) (kf_P out) (kf_Pf out) (kf_Pp out) t.
Proof.
  unfold KalmanFilter. intros H HwF0 HwC HwR HCr HCc HRr HRc Ht Hobs.
  apply bind_Ok in H as (sT & Hpass & [= <-]). cbn [kf_F kf_P kf_Pf kf_Pp].
  destruct (filter_pass_checks _ _ _ _ _ _ _ _ Hpass) as (_ & HA); [lia|].
  unfold filter_pass in Hpass. apply bind_Ok in Hpass as (A0 & HA0 & Hloop).
  destruct (filter_loop_update _ _ _ _ _ _ _ _ _ (filter_init X C R A F0 P0) _
              HwF0 Ht Hloop)
    as (Xt & Xs & C' & R' & S & p & Pp & f & Pf &
        HXt & HC & HR & HXs & Hp & HPp & Hf & HPf & HS & Hmean & Hcov).
  rewrite (find_finite_all_finite X t Xt HXt Hobs) in HC, HR, HXs.
  rewrite (find_finite_all_finite A 0 A0 HA0 HA) in HC.
  rewrite <- HCr, <- HCc, submat_full in HC by done. apply Ok_inj in HC. subst C'.
  rewrite <- HRr in HR at 1. rewrite <- HRc in HR.
  rewrite submat_full in HR by done. apply Ok_inj in HR. subst R'.
  rewrite (submat_whole_row X t Xt Xs HXt HXs) in Hmean.
  exists Xt, p, Pp, f, Pf, S. done.
Qed.

End ObservedRow.

(** ** The smoothed moments and the observation model *)

Section SmootherIgnoresObservationModel.
Context {F : Type} {SF : Scalar F} {LA : Lapack F}.
Implicit Types A C R FT PT : mat F.
Implicit Types PfT PpT : cube F.
Implicit Types s : smoother_state F.

(** Two runs of loops whose bodies keep a relation end in related states. *)
Lemma for_each_agree {St : Type} (Rel : St -> St -> Prop) (idx : list Z)
    (body1 body2 : Z -> St -> res St) :
  (forall i a b a' b', In i idx -> Rel a b ->
     body1 i a = Ok a' -> body2 i b = Ok b' -> Rel a' b') ->
  forall a b a' b', Rel a b ->
    for_each idx body1 a = Ok a' -> for_each idx body2 b = Ok b' -> Rel a' b'.
Proof.
  induction idx as [|i idx IH]; intros Hstep a b a' b' Hab Ha Hb; simpl in Ha, Hb.
  - congruence.
  - apply bind_Ok in Ha as (a1 & Ha1 & Ha). apply bind_Ok in Hb as (b1 & Hb1 & Hb).
    apply (IH (fun k x y x' y' Hk => Hstep k x y x' y' (or_intror Hk)) a1 b1); try done.
    apply (Hstep i a b); try done. by left.
Qed.

(** The gains and the smoothed histories: what the first two loops of the
    backward pass read and write. *)
Lemma gain_step_agree A PfT PpT (t : Z) (a b a' b' : smoother_state F) :
  sm_J a = sm_J b /\ sm_FsT a = sm_FsT b /\ sm_PsT a = sm_PsT b ->
  gain_step A PfT PpT t a = Ok a' -> gain_step A PfT PpT t b = Ok b' ->
  sm_J a' = sm_J b' /\ sm_FsT a' = sm_FsT b' /\ sm_PsT a' = sm_PsT b'.
Proof.
  intros (HJ & HF & HP) Ha Hb.
  apply gain_step_Ok in Ha as (Ja & (Pf & Pp1 & Pp1i & H1 & H2 & H3 & ->) & Hseta &
                               _ & _ & _ & HFa & HPa).
  apply gain_step_Ok in Hb as (Jb & (Pf' & Pp1' & Pp1i' & H1' & H2' & H3' & ->) & Hsetb &
                               _ & _ & _ & HFb & HPb).
  assert (Pf' = Pf) as -> by congruence.
  assert (Pp1' = Pp1) as -> by congruence.
  assert (Pp1i' = Pp1i) as -> by congruence.
  rewrite HJ in Hseta. split_all; congruence.
Qed.

Lemma smooth_step_agree (T : Z) FT PT PfT PpT (j : Z) (a b a' b' : smoother_state F) :
  sm_J a = sm_J b /\ sm_FsT a = sm_FsT b /\ sm_PsT a = sm_PsT b ->
  smooth_step T FT PT PfT PpT j a = Ok a' -> smooth_step T FT PT PfT PpT j b = Ok b' ->
  sm_J a' = sm_J b' /\ sm_FsT a' = sm_FsT b' /\ sm_PsT a' = sm_PsT b'.
Proof.
  intros (HJ & HF & HP) Ha Hb.
  apply smooth_step_Ok in Ha
    as (Jt & f & fs & fs1 & p1 & Pf & Pst & Ps1 & Pp1 & HJt & Hf & Hfs1 & Hp1 &
        HPf & HPs1 & HPp1 & Hwf & Hmean & Hcov & HsetF & HsetP & HJa & _).
  apply smooth_step_Ok in Hb
    as (Jt' & f' & fs' & fs1' & p1' & Pf' & Pst' & Ps1' & Pp1' & HJt' & Hf' & Hfs1' &
        Hp1' & HPf' & HPs1' & HPp1' & Hwf' & Hmean' & Hcov' & HsetF' & HsetP' & HJb & _).
  rewrite <- HJ in HJt'. rewrite <- HF in Hfs1', HsetF'. rewrite <- HP in HPs1', HsetP'.
  assert (Jt' = Jt) as -> by congruence.
  assert (f' = f) as -> by congruence.
  assert (fs1' = fs1) as -> by congruence.
  assert (p1' = p1) as -> by congruence.
  assert (Pf' = Pf) as -> by congruence.
  assert (Ps1' = Ps1) as -> by congruence.
  assert (Pp1' = Pp1) as -> by congruence.
  assert (fs' = fs) as ->.
  { rewrite <- (trans_trans fs), <- (trans_trans fs') by done. congruence. }
  subst Pst Pst'. split_all; congruence.
Qed.

Lemma smoother_pass_agree (T : Z) (rp n n' : nat) A C R C' R' FT PT PfT PpT
    (s s' : smoother_state F) :
  smoother_pass T rp n A C R FT PT PfT PpT = Ok s ->
  smoother_pass T rp n' A C' R' FT PT PfT PpT = Ok s' ->
  sm_FsT s' = sm_FsT s /\ sm_PsT s' = sm_PsT s.
Proof.
  unfold smoother_pass. intros H H'. inv_bind H. inv_bind H'.
  rename x3 into s1, Hx3 into H1, x4 into s2, Hx4 into H2, x5 into s3, Hx5 into H3,
    x6 into s4, Hx6 into H4.
  rename x11 into s1', Hx11 into H1', x12 into s2', Hx12 into H2',
    x13 into s3', Hx13 into H3', x14 into s4', Hx14 into H4'.
  assert (x7 = x) as -> by congruence.
  assert (x8 = x0) as -> by congruence.
  assert (x9 = x1) as -> by congruence.
  assert (x10 = x2) as -> by congruence.
  pose (Rel := fun a b : smoother_state F =>
    sm_J a = sm_J b /\ sm_FsT a = sm_FsT b /\ sm_PsT a = sm_PsT b).
  unfold for_loop in H1, H1', H2, H2'.
  assert (Rel s1 s1') as Hrel1.
  { eapply (for_each_agree Rel); [| |exact H1|exact H1'].
    - intros i a b a' b' _. apply gain_step_agree.
    - unfold Rel. cbn [sm_J sm_FsT sm_PsT]. done. }
  assert (Rel s2 s2') as (_ & HF & HP).
  { eapply (for_each_agree Rel); [|exact Hrel1|exact H2|exact H2'].
    intros i a b a' b' _. apply smooth_step_agree. }
  apply innovation_loop_Ok in H3 as (_ & _ & HF3 & HP3).
  apply innovation_loop_Ok in H3' as (_ & _ & HF3' & HP3').
  apply lag_one_seed_Ok in H4 as (_ & _ & HF4 & HP4).
  apply lag_one_seed_Ok in H4' as (_ & _ & HF4' & HP4').
  apply lag_one_loop_Ok in H as (_ & _ & HF5 & HP5).
  apply lag_one_loop_Ok in H' as (_ & _ & HF5' & HP5').
  split; congruence.
Qed.

(** X15: the smoothed means and covariances do not depend on the
    observation model: two calls of KalmanSmoother on the same A and the
    same filter histories that both return, return the same Fs and Ps,
    whatever C and R they were given. *)
Theorem smoothed_moments_ignore_observation_model A C R C' R' FT PT PfT PpT
    (out out' : smoother_out F) :
  KalmanSmoother A C R FT PT PfT PpT = Ok out ->
  KalmanSmoother A C' R' FT PT PfT PpT = Ok out' ->
  ks_Fs out' = ks_Fs out /\ ks_Ps out' = ks_Ps out.
Proof.
  unfold KalmanSmoother, array2cube. intros H H'.
  apply bind_Ok in H as (s & Hpass & [= <-]).
  apply bind_Ok in H' as (s' & Hpass' & [= <-]). cbn [ks_Fs ks_Ps].
  by apply (smoother_pass_agree _ _ _ _ _ _ _ _ _ _ _ _ _ _ _ Hpass Hpass').
Qed.

End SmootherIgnoresObservationModel.

(** ** The further properties on the example inputs *)

Module FurtherWitnesses.
Import Rat Examples RatFacts.

Lemma A1_first_row_finite : first_row_finite A1.
Proof. intros j Hj. destruct j; [reflexivity | simpl in Hj; lia]. Qed.

Lemma model1_shapes : model_shapes C1 Q1 A1 F01 P01 (n_rows A1).
Proof. unfold model_shapes. simpl. lia. Qed.

Lemma Xnan3_all_missing : series_all_missing Xnan3.
Proof.
  intros t Ht j Hj. simpl in Ht, Hj. replace j with 0 by lia.
  assert (t = 0 \/ t = 1 \/ t = 2)%Z as [->|[->| ->]] by lia; reflexivity.
Qed.

Lemma X4_row0_observed : row_observed X4 0.
Proof. intros j Hj. destruct j; [reflexivity | simpl in Hj; lia]. Qed.

Lemma filter_history_shapes_witness :
  exists out, KalmanFilter X4 C1 Q1 R1 A1 F01 P01 = Ok out /\
    mat_shape (kf_F out) 4 1 /\ mat_shape (kf_P out) 5 1 /\
    cube_shape (kf_Pf out) 1 1 4 /\ cube_shape (kf_Pp out) 1 1 5 /\
    row (kf_P out) 4 = Ok (zeros 1 1) /\ slice (kf_Pp out) 4 = Ok (zeros 1 1).
Proof.
  destruct (KalmanFilter X4 C1 Q1 R1 A1 F01 P01) as [out|e] eqn:E.
  - exists out. split; [reflexivity|].
    exact (filter_history_shapes X4 C1 Q1 R1 A1 F01 P01 out E).
  - vm_compute in E. discriminate E.
Defined.

Lemma filter_prediction_recursion_witness :
  exists out, KalmanFilter X4 C1 Q1 R1 A1 F01 P01 = Ok out /\
    (row (kf_P out) 0 = Ok (trans F01) /\ slice (kf_Pp out) 0 = Ok P01) /\
    predicted_from_filtered A1 Q1 (kf_F out) (kf_P out) (kf_Pf out) (kf_Pp out) 2.
Proof.
  destruct (KalmanFilter X4 C1 Q1 R1 A1 F01 P01) as [out|e] eqn:E.
  - exists out. split; [reflexivity|].
    destruct (filter_prediction_recursion X4 C1 Q1 R1 A1 F01 P01 out E) as (H0 & Hrec).
    split; [apply H0; simpl; lia | apply Hrec; simpl; lia].
  - vm_compute in E. discriminate E.
Defined.

Lemma filter_update_equations_witness :
  exists out A0, KalmanFilter X4 C1 Q1 R1 A1 F01 P01 = Ok out /\
    row A1 0 = Ok A0 /\
    updated_at X4 C1 R1 (find_finite A0)
      (kf_F out) (kf_P out) (kf_Pf out) (kf_Pp out) 1.
Proof.
  destruct (KalmanFilter X4 C1 Q1 R1 A1 F01 P01) as [out|e] eqn:E.
  - destruct (filter_update_equations X4 C1 Q1 R1 A1 F01 P01 out E) as (A0 & HA0 & H);
      [reflexivity|].
    exists out, A0. split; [reflexivity|]. split; [exact HA0|].
    apply H. simpl. lia.
  - vm_compute in E. discriminate E.
Defined.

Lemma filter_consistent_model_witness :
  exists out, KalmanFilter X4 C1 Q1 R1 A1 F01 P01 = Ok out /\
    model_shapes C1 Q1 A1 F01 P01 (n_rows A1) /\ first_row_finite A1 /\
    forall (t : Z) (j : nat),
      (0 <= t < Z.of_nat (n_rows X4))%Z -> j < n_cols X4 ->
      is_finite (elem X4 (Z.to_nat t) j) = true ->
      j < n_rows C1 /\ j < n_rows R1 /\ j < n_cols R1.
Proof.
  destruct (KalmanFilter X4 C1 Q1 R1 A1 F01 P01) as [out|e] eqn:E.
  - exists out. split; [reflexivity|].
    apply (filter_returns_only_on_consistent_model X4 C1 Q1 R1 A1 F01 P01 out E).
    simpl. lia.
  - vm_compute in E. discriminate E.
Defined.

Lemma short_series_witness :
  (exists out, KalmanFilter X0 C1 Q1 R1 A1 F01 P01 = Ok out /\ kf_loglik out = zero) /\
  (exists e, KalmanSmoother A1 C1 R1 FT1 PT1 PfT1 PpT1 = Err e) /\
  KalmanSmoother A1 C1 R1 X0 PT1 PfT1 PpT1 = Err IndexOutOfBounds /\
  (exists e, KalmanFilterSmoother X1 C1 Q1 R1 A1 F01 P01 = Err e) /\
  (exists e, Estep X1 C1 Q1 R1 A1 F01 P01 = Err e).
Proof.
  destruct (@short_series_raise dbl _ _) as (H1 & H2 & H3). split_all.
  - apply H1; [reflexivity | simpl; lia].
  - apply (H2 A1 C1 R1 FT1 PT1 PfT1 PpT1). simpl. lia.
  - apply (H2 A1 C1 R1 X0 PT1 PfT1 PpT1); [simpl; lia | reflexivity].
  - apply (H3 X1 C1 Q1 R1 A1 F01 P01). simpl. lia.
  - apply (H3 X1 C1 Q1 R1 A1 F01 P01). simpl. lia.
Defined.

Lemma fused_raises_witness :
  (exists e, KalmanFilterSmoother X2 C1 Q1 R1 A1 F01 P01 = Err e) /\
  (exists e, Estep X2 C1 Q1 R1 A1 F01 P01 = Err e).
Proof.
  apply (fused_raises_on_incomplete_last_row X2 C1 Q1 R1 A1 F01 P01 0);
    [simpl; lia | reflexivity].
Defined.

Lemma fused_refines_witness :
  exists out, KalmanFilterSmoother X4 C1 Q1 R1 A1 F01 P01 = Ok out /\
    filter_then_smoother X4 C1 Q1 R1 A1 F01 P01 = Ok out.
Proof.
  destruct (KalmanFilterSmoother X4 C1 Q1 R1 A1 F01 P01) as [out|e] eqn:E.
  - exists out. split; [reflexivity|].
    apply (fused_refines_composition X4 C1 Q1 R1 A1 F01 P01 out); try reflexivity.
    exact E.
  - vm_compute in E. discriminate E.
Defined.

Lemma all_missing_series_witness :
  exists out, KalmanFilter Xnan3 C1 Q1 R1 A1 F01 P01 = Ok out /\
    kf_loglik out = sum_n (n_rows Xnan3) (fun _ => all_missing_increment (n_cols Xnan3)) /\
    forall t, (0 <= t < Z.of_nat (n_rows Xnan3))%Z ->
      pure_prediction_at (kf_F out) (kf_P out) (kf_Pf out) (kf_Pp out) t.
Proof.
  apply (all_missing_series_is_pure_forecast Xnan3 C1 Q1 R1 A1 F01 P01).
  - exact model1_shapes.
  - exact A1_first_row_finite.
  - reflexivity.
  - reflexivity.
  - reflexivity.
  - reflexivity.
  - reflexivity.
  - reflexivity.
  - reflexivity.
  - exact Xnan3_all_missing.
Defined.

Lemma smoother_lag_one_witness :
  exists out, KalmanSmoother A1 C1 R1 FT4 PT4 PfT4 PpT4 = Ok out /\
    lag_one_last A1 C1 R1 PfT4 PpT4 (n_rows A1) 4 (ks_PsTm out) /\
    lag_one_at A1 PfT4 PpT4 (ks_PsTm out) 2.
Proof.
  destruct (KalmanSmoother A1 C1 R1 FT4 PT4 PfT4 PpT4) as [out|e] eqn:E.
  - exists out. split; [reflexivity|].
    destruct (smoother_lag_one_recursion A1 C1 R1 FT4 PT4 PfT4 PpT4 out E) as (H1 & H2).
    split; [exact H1 | apply H2; simpl; lia].
  - vm_compute in E. discriminate E.
Defined.

Lemma smoother_history_shapes_witness :
  (exists out, KalmanSmoother A1 C1 R1 FT4 PT4 PfT4 PpT4 = Ok out /\
     mat_shape (ks_Fs out) 4 1 /\ cube_shape (ks_Ps out) 1 1 4 /\
     cube_shape (ks_PsTm out) 1 1 4) /\
  (exists out, KalmanFilterSmoother X4 C1 Q1 R1 A1 F01 P01 = Ok out /\
     mat_shape (kfs_Fs out) 4 1 /\ cube_shape (kfs_Ps out) 1 1 4 /\
     cube_shape (kfs_PsTm out) 1 1 4).
Proof.
  split.
  - destruct (KalmanSmoother A1 C1 R1 FT4 PT4 PfT4 PpT4) as [out|e] eqn:E.
    + exists out. split; [reflexivity|].
      exact (proj1 smoother_history_shapes A1 C1 R1 FT4 PT4 PfT4 PpT4 out E).
    + vm_compute in E. discriminate E.
  - destruct (KalmanFilterSmoother X4 C1 Q1 R1 A1 F01 P01) as [out|e] eqn:E.
    + exists out. split; [reflexivity|].
      exact (proj2 smoother_history_shapes X4 C1 Q1 R1 A1 F01 P01 out E).
    + vm_compute in E. discriminate E.
Defined.

Lemma estep_returns_witness :
  exists ks out f0,
    KalmanFilterSmoother X4 C1 Q1 R1 A1 F01 P01 = Ok ks /\
    Estep X4 C1 Q1 R1 A1 F01 P01 = Ok out /\
    es_loglik out = kfs_loglik ks /\
    row (kfs_Fs ks) 0 = Ok f0 /\ es_F0 out = trans f0 /\
    slice (kfs_Ps ks) 0 = Ok (es_P0 out) /\
    mat_shape (es_delta out) 1 1 /\ mat_shape (es_beta out) 1 1 /\
    mat_shape (es_gamma out) 1 1 /\ mat_shape (es_gamma1 out) 1 1 /\
    mat_shape (es_gamma2 out) 1 1.
Proof.
  destruct (KalmanFilterSmoother X4 C1 Q1 R1 A1 F01 P01) as [ks|e] eqn:E.
  - destruct (estep_returns_when_fused_returns X4 C1 Q1 R1 A1 F01 P01 ks E)
      as (out & f0 & H).
    exists ks, out, f0. split; [reflexivity | exact H].
  - vm_compute in E. discriminate E.
Defined.

Lemma estep_moments_symmetric_witness :
  exists out, Estep X22 I2 I2 I2 A2 F02 I2 = Ok out /\
    symmetric (es_gamma out) /\ symmetric (es_gamma1 out) /\
    symmetric (es_gamma2 out) /\ symmetric (es_P0 out).
Proof.
  destruct (Estep X22 I2 I2 I2 A2 F02 I2) as [out|e] eqn:E.
  - exists out. split; [reflexivity|].
    exact (estep_moments_symmetric X22 I2 I2 I2 A2 F02 I2 out
             SymmetryWitnesses.model2_ok SymmetryWitnesses.I2_cov_ok E).
  - vm_compute in E. discriminate E.
Defined.

Lemma filter_update_on_observed_row_witness :
  exists out, KalmanFilter X4 C1 Q1 R1 A1 F01 P01 = Ok out /\
    full_update_at X4 C1 R1 (kf_F out) (kf_P out) (kf_Pf out) (kf_Pp out) 0.
Proof.
  destruct (KalmanFilter X4 C1 Q1 R1 A1 F01 P01) as [out|e] eqn:E.
  - exists out. split; [reflexivity|].
    apply (filter_update_on_observed_row X4 C1 Q1 R1 A1 F01 P01 out 0 E);
      try reflexivity; [simpl; lia | exact X4_row0_observed].
  - vm_compute in E. discriminate E.
Defined.

Lemma smoothed_moments_witness :
  exists out out',
    KalmanSmoother A1 C1 R1 FT4 PT4 PfT4 PpT4 = Ok out /\
    KalmanSmoother A1 C1b R1b FT4 PT4 PfT4 PpT4 = Ok out' /\
    ks_Fs out' = ks_Fs out /\ ks_Ps out' = ks_Ps out.
Proof.
  destruct (KalmanSmoother A1 C1 R1 FT4 PT4 PfT4 PpT4) as [out|e] eqn:E.
  - destruct (KalmanSmoother A1 C1b R1b FT4 PT4 PfT4 PpT4) as [out'|e] eqn:E'.
    + exists out, out'. split; [reflexivity|]. split; [reflexivity|].
      exact (smoothed_moments_ignore_observation_model A1 C1 R1 C1b R1b
               FT4 PT4 PfT4 PpT4 out out' E E').
    + vm_compute in E'. discriminate E'.
  - vm_compute in E. discriminate E.
Defined.

End FurtherWitnesses.

(** ** The fused function smooths the filter's histories *)

Section FusedSmoothing.
Context {F : Type} {SF : Scalar F} {LA : Lapack F}.
Implicit Types X C R A Q : mat F.

Lemma filter_pass_FT_rows X C Q R A F0 P0 (st : filter_state F) :
  filter_pass X C Q R A F0 P0 = Ok st -> n_rows (st_FT st) = n_rows X.
Proof.
  unfold filter_pass. intros H. apply bind_Ok in H as (A0 & _ & H).
  apply filter_loop_FT_rows in H. unfold filter_init in H. cbn [st_FT] in H.
  rewrite H. simpl. lia.
Qed.

(** X16: whenever KalmanFilterSmoother returns, KalmanFilter returns on the
    same input with the same log-likelihood, and the smoothed means and
    covariances are the Rauch-Tung-Striebel smoothing of the filter's
    histories: equal to the filtered ones at T-1, and
    Fs_t = F_t + J_t * (Fs_{t+1} - P_{t+1}),
    Ps_t = Pf_t + J_t * (Ps_{t+1} - Pp_{t+1}) * J_t' with
    J_t = Pf_t * A' * (Pp_{t+1})^-1 for every earlier t. *)
Theorem fused_smooths_filter_histories X C Q R A F0 P0 (out : fused_out F) :
  KalmanFilterSmoother X C Q R A F0 P0 = Ok out ->
  exists kf, KalmanFilter X C Q R A F0 P0 = Ok kf /\
    kfs_loglik out = kf_loglik kf /\
    smoothed_by_rts A (kf_F kf) (kf_P kf) (kf_Pf kf) (kf_Pp kf)
      (kfs_Fs out) (kfs_Ps out).
Proof.
  unfold KalmanFilterSmoother. intros H.
  apply bind_Ok in H as (st & Hpass & H). apply bind_Ok in H as (s & Hsm & [= <-]).
  exists (FilterOut (st_FT st) (st_PfT st) (st_PT st) (st_PpT st) (st_loglik st)).
  split; [unfold KalmanFilter; by rewrite Hpass|]. split; [reflexivity|].
  cbn [kf_F kf_P kf_Pf kf_Pp kfs_Fs kfs_Ps].
  apply smoother_pass_Ok in Hsm as (HT & Hlast & Hlastcov & Hrts & _).
  unfold smoothed_by_rts. rewrite (filter_pass_FT_rows _ _ _ _ _ _ _ _ Hpass).
  split; [done|]. split; [done|].
  intros t Ht. destruct (Hrts t Ht) as ((Jt & HJt & Hgain) & Hat).
  by eapply rts_equations_intro.
Qed.

End FusedSmoothing.

(** ** The log-likelihood of a run *)

Section LoglikSum.
Context {F : Type} {SF : Scalar F} {LA : Lapack F}.
Implicit Types X C R A Q tC tR : mat F.
Implicit Types st : filter_state F.

Lemma for_loop_snoc {St : Type} (lo hi : Z) (body : Z -> St -> res St) (s s1 s2 : St) :
  (lo <= hi)%Z -> for_loop lo hi body s = Ok s1 -> body hi s1 = Ok s2 ->
  for_loop lo (hi + 1) body s = Ok s2.
Proof.
  intros Hle H1 H2. unfold for_loop in *. rewrite range_snoc by done.
  rewrite for_each_app, H1. simpl. by rewrite H2.
Qed.

Lemma filter_step_loglik X tC tR A Q (nmiss : list nat) (t : Z) st st'
    (Ph : mat F) (Pph : cube F) :
  wf (st_fp st) = true ->
  filter_step X tC tR A Q nmiss (n_cols X) t st = Ok st' ->
  row Ph t = Ok (trans (st_fp st)) -> slice Pph t = Ok (st_Pp st) ->
  loglik_step_at X tC tR nmiss Ph Pph t (st_loglik st) (st_loglik st').
Proof.
  intros Hwf H HP HPp.
  apply filter_step_Ok in H as (C & R & S & xe & K & ff & Pf & Hfacts).
  destruct Hfacts as (Xt & Xs & HXt & HC & HR & HS & HXs & Hxe & _ & _ & _ & Hll & _).
  apply loglik_update_Ok in Hll as (d & Hd & Hcases).
  exists Xt, Xs, C, R, S, (trans (st_fp st)), (st_Pp st), d.
  rewrite trans_trans by done. subst xe. split_all; done.
Qed.

(** X17: the log-likelihood KalmanFilter returns is built up from 0 one
    time step at a time: step t adds
    -1/2 * (n * log(2 pi) - log det S_t + xe_t' * S_t * xe_t) when
    det S_t > 0 and leaves the running value alone otherwise, where S_t is
    the inverse of the innovation covariance of the channels observed at t,
    taken at the predicted covariance the function returns for t, and xe_t
    is their innovation from the predicted mean it returns for t. *)
Theorem filter_loglik_is_sum_of_increments X C Q R A F0 P0 (out : filter_out F) :
  KalmanFilter X C Q R A F0 P0 = Ok out -> wf F0 = true ->
  exists A0 (ll : nat -> F),
    row A 0 = Ok A0 /\ ll 0 = zero /\ ll (n_rows X) = kf_loglik out /\
    forall t, t < n_rows X ->
      loglik_step_at X C R (find_finite A0) (kf_P out) (kf_Pp out)
        (Z.of_nat t) (ll t) (ll (S t)).
Proof.
  unfold KalmanFilter. intros H HwF0. apply bind_Ok in H as (sT & Hpass & [= <-]).
  cbn [kf_P kf_Pp kf_loglik].
  unfold filter_pass in Hpass. apply bind_Ok in Hpass as (A0 & HA0 & Hloop).
  set (body := filter_step X C R A Q (find_finite A0) (n_cols X)) in *.
  set (st0 := filter_init X C R A F0 P0) in *.
  exists A0, (fun t => match for_loop 0 (Z.of_nat t) body st0 with
                       | Ok s => st_loglik s
                       | Err _ => zero
                       end).
  split; [done|]. split; [by rewrite for_loop_empty by lia|].
  split; [by rewrite Hloop|].
  intros t Ht.
  assert (0 <= Z.of_nat t < Z.of_nat (n_rows X))%Z as Ht' by lia.
  destruct (filter_loop_slot _ _ _ _ _ _ _ _ _ _ _ Ht' Hloop)
    as (s1 & s2 & H1 & Hstep & _ & EP & _ & EPp & _).
  fold body in H1, Hstep. rewrite H1.
  rewrite Nat2Z.inj_succ. unfold Z.succ.
  rewrite (for_loop_snoc 0 (Z.of_nat t) body st0 s1 s2 ltac:(lia) H1 Hstep).
  destruct (filter_step_stores_prediction _ _ _ _ _ _ _ _ _ _ Hstep) as (HsP & HsPp).
  apply filter_loop_wf_fp in H1; [|exact HwF0].
  apply (filter_step_loglik X C R A Q (find_finite A0) _ s1 s2); try done;
    congruence.
Qed.

End LoglikSum.

(** ** The moments of the E-step, cell by cell *)

Section EstepSums.
Context {F : Type} {SF : Scalar F} {LA : Lapack F} {SL : ScalarLaws F}.
Implicit Types X C R A Q : mat F.

(** The outer product of two rows. *)
Lemma elem_outer (u v : mat F) (i j : nat) :
  n_rows u = 1 -> i < n_cols u -> j < n_cols v ->
  elem (mmul (trans u) v) i j = elem u 0 i ⊗ elem v 0 j.
Proof.
  intros Hu Hi Hj. rewrite elem_mmul by (shapes; lia). shapes. rewrite Hu. simpl.
  rewrite add_0_l. by rewrite elem_trans by lia.
Qed.

Lemma elem_row (M v : mat F) (t : Z) (j : nat) :
  row M t = Ok v -> j < n_cols M -> elem v 0 j = elem M (Z.to_nat t) j.
Proof. intros H Hj. apply row_Ok in H as (_ & ->). by rewrite elem_build by lia. Qed.

Lemma elem_madd (M N : mat F) (i j : nat) :
  i < n_rows M -> j < n_cols M -> elem (madd M N) i j = elem M i j ⊕ elem N i j.
Proof. intros Hi Hj. unfold madd. by rewrite elem_build. Qed.

Lemma cube_elem_slice (H : cube F) (t : Z) (M : mat F) (i j : nat) :
  slice H t = Ok M -> cube_elem H (Z.to_nat t) i j = elem M i j.
Proof. intros HM. apply slice_Ok in HM as (_ & HM). unfold cube_elem. by rewrite HM. Qed.

(** One iteration of the loop at line 36, with the shapes its sums have
    checked. *)
Lemma estep_step_Ok (X Fs : mat F) (Ps W : cube F) (t : Z) (acc acc' : estep_acc F) :
  estep_step X Fs Ps W t acc = Ok acc' ->
  exists Xt Fst Pst,
    row X t = Ok Xt /\ row Fs t = Ok Fst /\ slice Ps t = Ok Pst /\
    acc_delta acc' = madd (acc_delta acc) (mmul (trans Xt) Fst) /\
    acc_gamma acc' = madd (acc_gamma acc) (madd (mmul (trans Fst) Fst) Pst) /\
    n_rows (acc_delta acc) = n_cols X /\ n_cols (acc_delta acc) = n_cols Fs /\
    n_rows (acc_gamma acc) = n_cols Fs /\ n_cols (acc_gamma acc) = n_cols Fs /\
    ((0 < t)%Z /\
     (exists Fsp Wt, row Fs (t - 1) = Ok Fsp /\ slice W t = Ok Wt /\
        acc_beta acc' = madd (acc_beta acc) (madd (mmul (trans Fst) Fsp) Wt) /\
        n_rows (acc_beta acc) = n_cols Fs /\ n_cols (acc_beta acc) = n_cols Fs) \/
     (t <= 0)%Z /\ acc_beta acc' = acc_beta acc).
Proof.
  unfold estep_step. intros H. inv_bind H.
  match goal with H : row X t = Ok _ |- _ => pose proof (row_Ok _ _ _ H) as (_ & HXt) end.
  match goal with H : row Fs t = Ok _ |- _ => pose proof (row_Ok _ _ _ H) as (_ & HFst) end.
  destruct (t >? 0)%Z eqn:Et.
  - apply Z.gtb_lt in Et.
    match goal with H : bind _ _ = Ok _ |- _ => inv_bind H end.
    match goal with H : row Fs (t - 1) = Ok _ |- _ =>
      pose proof (row_Ok _ _ _ H) as (_ & ?) end.
    inv_ops. cbn [acc_delta acc_gamma acc_beta].
    do 3 eexists.
    split_all; try eassumption; try reflexivity; try (shapes; simpl in *; lia).
    left. split; [done|]. do 2 eexists.
    split_all; try eassumption; try reflexivity; try (shapes; simpl in *; lia).
  - assert (t <= 0)%Z as Et' by (destruct (Z.gtb_spec t 0); [discriminate | lia]).
    inv_ops. cbn [acc_delta acc_gamma acc_beta].
    do 3 eexists.
    split_all; try eassumption; try reflexivity; try (shapes; simpl in *; lia).
    right. done.
Qed.

(** What the loop has accumulated before iteration [i]. *)
Lemma estep_loop_sums (X Fs : mat F) (Ps W : cube F) (n r : nat) (T : Z)
    (acc : estep_acc F) :
  (0 <= T)%Z -> n_cols X = n -> n_cols Fs = r ->
  for_loop 0 T (estep_step X Fs Ps W) (EstepAcc (zeros n r) (zeros r r) (zeros r r))
    = Ok acc ->
  (forall c j, c < n -> j < r ->
     elem (acc_delta acc) c j =
     sum_n (Z.to_nat T) (fun t => elem X t c ⊗ elem Fs t j)) /\
  (forall i j, i < r -> j < r ->
     elem (acc_gamma acc) i j =
     sum_n (Z.to_nat T) (fun t => elem Fs t i ⊗ elem Fs t j ⊕ cube_elem Ps t i j)) /\
  (forall i j, i < r -> j < r ->
     elem (acc_beta acc) i j =
     sum_n (Z.to_nat T - 1)
       (fun k => elem Fs (S k) i ⊗ elem Fs k j ⊕ cube_elem W (S k) i j)).
Proof.
  intros HT Hn Hr.
  apply (for_loop_invariant (fun (i : Z) (a : estep_acc F) =>
    (forall c j, c < n -> j < r ->
       elem (acc_delta a) c j =
       sum_n (Z.to_nat i) (fun t => elem X t c ⊗ elem Fs t j)) /\
    (forall i' j, i' < r -> j < r ->
       elem (acc_gamma a) i' j =
       sum_n (Z.to_nat i) (fun t => elem Fs t i' ⊗ elem Fs t j ⊕ cube_elem Ps t i' j)) /\
    (forall i' j, i' < r -> j < r ->
       elem (acc_beta a) i' j =
       sum_n (Z.to_nat i - 1)
         (fun k => elem Fs (S k) i' ⊗ elem Fs k j ⊕ cube_elem W (S k) i' j)))
    0 T); [done| |].
  - intros i a a' Hi (Hd & Hg & Hb) Hstep.
    apply estep_step_Ok in Hstep
      as (Xt & Fst & Pst & HXt & HFst & HPst & Ed & Eg & Hdr & Hdc & Hgr & Hgc & Hbeta).
    pose proof (row_Ok _ _ _ HXt) as (_ & HXt').
    pose proof (row_Ok _ _ _ HFst) as (_ & HFst').
    assert (n_rows Xt = 1 /\ n_cols Xt = n) as (HXr & HXc) by (by rewrite HXt').
    assert (n_rows Fst = 1 /\ n_cols Fst = r) as (HFr & HFc) by (by rewrite HFst').
    replace (Z.to_nat (i + 1)) with (S (Z.to_nat i)) by lia.
    split_all.
    + intros c j Hc Hj. rewrite Ed, elem_madd by lia. cbn [sum_n].
      rewrite Hd by done. f_equal.
      rewrite elem_outer by lia.
      by rewrite (elem_row X Xt i c HXt), (elem_row Fs Fst i j HFst) by lia.
    + intros a1 b1 Ha1 Hb1. rewrite Eg, elem_madd by lia. cbn [sum_n].
      rewrite Hg by done. f_equal.
      rewrite elem_madd by (shapes; lia).
      rewrite elem_outer by lia.
      rewrite !(elem_row Fs Fst i _ HFst) by lia.
      by rewrite (cube_elem_slice Ps i Pst _ _ HPst).
    + intros a1 b1 Ha1 Hb1.
      destruct Hbeta as [(Hpos & Fsp & Wt & HFsp & HWt & Eb & Hbr & Hbc)|(Hle & Eb)].
      * pose proof (row_Ok _ _ _ HFsp) as (_ & HFsp').
        assert (n_cols Fsp = r) as HFpc by (by rewrite HFsp').
        replace (S (Z.to_nat i) - 1) with (S (Z.to_nat i - 1)) by lia.
        rewrite Eb, elem_madd by lia. cbn [sum_n].
        rewrite Hb by done. f_equal.
        rewrite elem_madd by (shapes; lia).
        rewrite elem_outer by lia.
        rewrite (elem_row Fs Fst i _ HFst), (elem_row Fs Fsp (i - 1) _ HFsp) by lia.
        rewrite <- (cube_elem_slice W i Wt _ _ HWt).
        replace (S (Z.to_nat i - 1)) with (Z.to_nat i) by lia.
        by replace (Z.to_nat (i - 1)) with (Z.to_nat i - 1) by lia.
      * rewrite Eb, Hb by done. by replace (S (Z.to_nat i) - 1) with (Z.to_nat i - 1) by lia.
  - cbn [acc_delta acc_gamma acc_beta]. unfold zeros.
    split_all; intros a b Ha Hb; by rewrite elem_build.
Qed.

(** X18: the moments Estep returns, cell by cell, in terms of the smoothed
    histories Fs, Ps and PsTm of KalmanFilterSmoother (exact arithmetic):
    delta(c, j) is the sum over all t of x(t, c) * Fs(t, j) with a missing
    x(t, c) counted as 0; gamma(i, j) is the sum over all t of
    Fs(t, i) * Fs(t, j) + Ps_t(i, j); beta(i, j) is the sum over t from 1 to
    T-1 of Fs(t, i) * Fs(t-1, j) + PsTm_t(i, j). *)
Theorem estep_moments_are_sums X C Q R A F0 P0 (out : estep_out F) :
  Estep X C Q R A F0 P0 = Ok out ->
  exists ks, KalmanFilterSmoother X C Q R A F0 P0 = Ok ks /\
    (forall c j, c < n_cols X -> j < n_rows A ->
       elem (es_delta out) c j =
       sum_n (n_rows X)
         (fun t => (if is_finite (elem X t c) then elem X t c else zero)
                   ⊗ elem (kfs_Fs ks) t j)) /\
    (forall i j, i < n_rows A -> j < n_rows A ->
       elem (es_gamma out) i j =
       sum_n (n_rows X)
         (fun t => elem (kfs_Fs ks) t i ⊗ elem (kfs_Fs ks) t j
                   ⊕ cube_elem (kfs_Ps ks) t i j)) /\
    (forall i j, i < n_rows A -> j < n_rows A ->
       elem (es_beta out) i j =
       sum_n (n_rows X - 1)
         (fun k => elem (kfs_Fs ks) (S k) i ⊗ elem (kfs_Fs ks) k j
                   ⊕ cube_elem (kfs_PsTm ks) (S k) i j)).
Proof.
  unfold Estep, array2cube. intros H. apply bind_Ok in H as (ks & Hks & H).
  exists ks. split; [done|].
  apply bind_Ok in H as (acc & Hloop & H).
  assert (n_cols (kfs_Fs ks) = n_rows A) as HFc.
  { unfold KalmanFilterSmoother in Hks.
    apply bind_Ok in Hks as (st & _ & Hks). apply bind_Ok in Hks as (s & Hpass & [= <-]).
    by apply smoother_pass_shapes in Hpass as ((_ & _ & ?) & _). }
  apply (estep_loop_sums _ _ _ _ (n_cols X) (n_rows A)) in Hloop
    as (Hd & Hg & Hb); [|lia|done|done].
  rewrite Nat2Z.id in Hd, Hg, Hb.
  inv_bind H. inv_ops. cbn [es_delta es_gamma es_beta].
  split; [|split; [exact Hg | exact Hb]].
  intros c j Hc Hj. rewrite Hd by done. apply sum_n_ext. intros t Ht.
  unfold zero_nonfinite. by rewrite elem_build by lia.
Qed.

End EstepSums.

(** ** Missing cells are never read *)

Section MissingCells.
Context {F : Type} {SF : Scalar F} {LA : Lapack F}.
Implicit Types X C R A Q tC tR : mat F.
Implicit Types st : filter_state F.

Lemma for_each_ext {St : Type} (idx : list Z) (body1 body2 : Z -> St -> res St) (s : St) :
  (forall i a, In i idx -> body1 i a = body2 i a) ->
  for_each idx body1 s = for_each idx body2 s.
Proof.
  revert s. induction idx as [|i idx IH]; intros s H; simpl; [done|].
  rewrite (H i s) by (by left). destruct (body2 i s) as [s1|e]; simpl; [|done].
  apply IH. intros k a Hk. apply H. by right.
Qed.

Lemma same_observations_row X X' (t : Z) (Xt Xt' : mat F) :
  same_observations X X' -> row X t = Ok Xt -> row X' t = Ok Xt' ->
  find_finite Xt' = find_finite Xt.
Proof.
  intros (Hr & Hc & Hcell) HXt HXt'.
  rewrite (find_finite_row X t Xt HXt), (find_finite_row X' t Xt' HXt'), Hc.
  apply row_Ok in HXt as (Ht & _).
  apply filter_ext_in. intros j Hj. apply in_seq in Hj.
  apply Hcell; lia.
Qed.

Lemma same_observations_submat X X' (t : Z) (Xt : mat F) :
  same_observations X X' -> row X t = Ok Xt ->
  submat X' [Z.to_nat t] (find_finite Xt) = submat X [Z.to_nat t] (find_finite Xt).
Proof.
  intros (Hr & Hc & Hcell) HXt. unfold submat. rewrite Hr, Hc.
  destruct (_ && _) eqn:E; [|done]. f_equal.
  pose proof (find_finite_row X t Xt HXt) as Hmiss.
  apply row_Ok in HXt as (Ht & _).
  apply build_ext. intros i j Hi Hj. simpl in Hi. replace i with 0 by lia. simpl.
  assert (In (nth j (find_finite Xt) 0) (find_finite Xt)) as Hin by (apply nth_In; lia).
  rewrite Hmiss in Hin at 2. apply filter_In in Hin as (Hin & Hfin).
  apply in_seq in Hin. apply Hcell; [lia | lia | exact Hfin].
Qed.

(** A step reads the finite cells of its row and nothing else of [X]. *)
Lemma same_observations_step X X' tC tR A Q (nmiss : list nat) (n : nat) (t : Z) st :
  same_observations X X' ->
  filter_step X' tC tR A Q nmiss n t st = filter_step X tC tR A Q nmiss n t st.
Proof.
  intros Hsame. unfold filter_step.
  destruct (row X t) as [Xt|e] eqn:HXt.
  - pose proof (row_Ok _ _ _ HXt) as (Ht & _).
    destruct Hsame as (Hr & Hc & Hcell).
    pose proof (row_eq X' t ltac:(lia)) as HXt'. rewrite HXt'. cbn [bind].
    rewrite (same_observations_row X X' t Xt _ (conj Hr (conj Hc Hcell)) HXt HXt').
    by rewrite (same_observations_submat X X' t Xt (conj Hr (conj Hc Hcell)) HXt).
  - destruct Hsame as (Hr & _). unfold row in *. rewrite Hr.
    destruct (_ && _); [discriminate|]. injection HXt as <-. reflexivity.
Qed.

Lemma same_observations_pass X X' C Q R A F0 P0 :
  same_observations X X' ->
  filter_pass X' C Q R A F0 P0 = filter_pass X C Q R A F0 P0.
Proof.
  intros Hsame. pose proof Hsame as (Hr & Hc & _).
  unfold filter_pass, filter_init. rewrite Hr, Hc.
  destruct (row A 0) as [A0|e]; [|done]. cbn [bind].
  apply for_each_ext. intros i a _. by apply same_observations_step.
Qed.

Lemma same_observations_zero_nonfinite X X' :
  same_observations X X' -> zero_nonfinite X' = zero_nonfinite X.
Proof.
  intros (Hr & Hc & Hcell). unfold zero_nonfinite. rewrite Hr, Hc.
  apply build_ext. intros i j Hi Hj. destruct (Hcell i j Hi Hj) as (E1 & E2).
  rewrite E1. destruct (is_finite (elem X i j)); [by apply E2 | done].
Qed.

(** X19: a non-finite cell of X is only ever tested, never read: two series
    of the same shape with the same finite cells and non-finite cells in the
    same places (not-a-number in one, an infinity in the other, say) give
    the same result, or the same error, in KalmanFilter,
    KalmanFilterSmoother and Estep. *)
Theorem missing_cells_are_never_read X X' C Q R A F0 P0 :
  same_observations X X' ->
  KalmanFilter X' C Q R A F0 P0 = KalmanFilter X C Q R A F0 P0 /\
  KalmanFilterSmoother X' C Q R A F0 P0 = KalmanFilterSmoother X C Q R A F0 P0 /\
  Estep X' C Q R A F0 P0 = Estep X C Q R A F0 P0.
Proof.
  intros Hsame. pose proof Hsame as (Hr & Hc & _).
  pose proof (same_observations_pass X X' C Q R A F0 P0 Hsame) as Hpass.
  assert (KalmanFilterSmoother X' C Q R A F0 P0 = KalmanFilterSmoother X C Q R A F0 P0)
    as Hfused by (unfold KalmanFilterSmoother; by rewrite Hpass, Hr, Hc).
  split_all.
  - unfold KalmanFilter. by rewrite Hpass.
  - exact Hfused.
  - unfold Estep.
    by rewrite Hfused, (same_observations_zero_nonfinite X X' Hsame), Hr, Hc.
Qed.

End MissingCells.

Module RunWitnesses.
Import Rat Examples RatFacts.

Lemma fused_smooths_witness :
  exists out kf,
    KalmanFilterSmoother X4 C1 Q1 R1 A1 F01 P01 = Ok out /\
    KalmanFilter X4 C1 Q1 R1 A1 F01 P01 = Ok kf /\
    kfs_loglik out = kf_loglik kf /\
    smoothed_by_rts A1 (kf_F kf) (kf_P kf) (kf_Pf kf) (kf_Pp kf)
      (kfs_Fs out) (kfs_Ps out).
Proof.
  destruct (KalmanFilterSmoother X4 C1 Q1 R1 A1 F01 P01) as [out|e] eqn:E.
  - destruct (fused_smooths_filter_histories X4 C1 Q1 R1 A1 F01 P01 out E) as (kf & H).
    exists out, kf. split; [reflexivity | exact H].
  - vm_compute in E. discriminate E.
Defined.

Lemma filter_loglik_witness :
  exists out A0 (ll : nat -> dbl),
    KalmanFilter X4 C1 Q1 R1 A1 F01 P01 = Ok out /\
    row A1 0 = Ok A0 /\ ll 0 = zero /\ ll 4 = kf_loglik out /\
    loglik_step_at X4 C1 R1 (find_finite A0) (kf_P out) (kf_Pp out) 2 (ll 2) (ll 3).
Proof.
  destruct (KalmanFilter X4 C1 Q1 R1 A1 F01 P01) as [out|e] eqn:E.
  - destruct (filter_loglik_is_sum_of_increments X4 C1 Q1 R1 A1 F01 P01 out E)
      as (A0 & ll & HA0 & H0 & HT & Hstep); [reflexivity|].
    exists out, A0, ll. split; [reflexivity|]. split; [exact HA0|].
    split; [exact H0|]. split; [exact HT|]. apply (Hstep 2). simpl. lia.
  - vm_compute in E. discriminate E.
Defined.

Lemma estep_sums_witness :
  exists out ks,
    Estep X4 C1 Q1 R1 A1 F01 P01 = Ok out /\
    KalmanFilterSmoother X4 C1 Q1 R1 A1 F01 P01 = Ok ks /\
    elem (es_delta out) 0 0 =
      sum_n 4 (fun t => (if is_finite (elem X4 t 0) then elem X4 t 0 else zero)
                        ⊗ elem (kfs_Fs ks) t 0) /\
    elem (es_gamma out) 0 0 =
      sum_n 4 (fun t => elem (kfs_Fs ks) t 0 ⊗ elem (kfs_Fs ks) t 0
                        ⊕ cube_elem (kfs_Ps ks) t 0 0) /\
    elem (es_beta out) 0 0 =
      sum_n 3 (fun k => elem (kfs_Fs ks) (S k) 0 ⊗ elem (kfs_Fs ks) k 0
                        ⊕ cube_elem (kfs_PsTm ks) (S k) 0 0).
Proof.
  destruct (Estep X4 C1 Q1 R1 A1 F01 P01) as [out|e] eqn:E.
  - destruct (estep_moments_are_sums X4 C1 Q1 R1 A1 F01 P01 out E)
      as (ks & Hks & Hd & Hg & Hb).
    exists out, ks. split; [reflexivity|]. split; [exact Hks|].
    split; [apply Hd; simpl; lia|]. split; [apply Hg; simpl; lia|].
    apply Hb; simpl; lia.
  - vm_compute in E. discriminate E.
Defined.

End RunWitnesses.

Module MissingCellWitness.
Import Ext ExtExamples.

Lemma X4nan_X4inf_same : same_observations X4nan X4inf.
Proof.
  unfold same_observations. split; [reflexivity|]. split; [reflexivity|].
  intros i j Hi Hj. simpl in Hi, Hj. replace j with 0 by lia.
  destruct i as [|[|[|[|i]]]]; try lia; split; try reflexivity; discriminate.
Qed.

Lemma missing_cells_witness :
  same_observations X4nan X4inf /\
  (exists out, KalmanFilter X4nan C1 Q1 R1 A1 F01 P01 = Ok out /\
               KalmanFilter X4inf C1 Q1 R1 A1 F01 P01 = Ok out) /\
  KalmanFilterSmoother X4inf C1 Q1 R1 A1 F01 P01 =
    KalmanFilterSmoother X4nan C1 Q1 R1 A1 F01 P01 /\
  Estep X4inf C1 Q1 R1 A1 F01 P01 = Estep X4nan C1 Q1 R1 A1 F01 P01.
Proof.
  split; [exact X4nan_X4inf_same|].
  destruct (missing_cells_are_never_read X4nan X4inf C1 Q1 R1 A1 F01 P01
              X4nan_X4inf_same) as (H1 & H2 & H3).
  split; [|split; [exact H2 | exact H3]].
  destruct (KalmanFilter X4nan C1 Q1 R1 A1 F01 P01) as [out|e] eqn:E.
  - exists out. split; [reflexivity | exact H1].
  - vm_compute in E. discriminate E.
Defined.

End MissingCellWitness.

(** ** No non-finite value leaks into the results *)

Section FiniteAlgebra.
Context {F : Type} {SF : Scalar F} {SL : ScalarLaws F}.
Implicit Types M N A B : mat F.

Lemma mat_ok_mmul A B : mat_ok A -> mat_ok B -> n_cols A = n_rows B -> mat_ok (mmul A B).
Proof.
  intros (HwA & HfA) (HwB & HfB) H. split; [apply wf_mmul | by apply mmul_finite].
Qed.

Lemma mat_ok_madd A B :
  mat_ok A -> mat_ok B -> n_rows A = n_rows B -> n_cols A = n_cols B ->
  mat_ok (madd A B).
Proof.
  intros (HwA & HfA) (HwB & HfB) Hr Hc. split; [apply wf_madd | by apply madd_finite].
Qed.

Lemma mat_ok_msub A B :
  mat_ok A -> mat_ok B -> n_rows A = n_rows B -> n_cols A = n_cols B ->
  mat_ok (msub A B).
Proof.
  intros (HwA & HfA) (HwB & HfB) Hr Hc. split; [apply wf_msub | by apply msub_finite].
Qed.

Lemma mat_ok_trans A : mat_ok A -> mat_ok (trans A).
Proof. intros (Hw & Hf). split; [apply wf_trans | by apply trans_finite]. Qed.

Lemma mat_ok_zeros (r c : nat) : mat_ok (zeros r c : mat F).
Proof. split; [apply wf_zeros | apply zeros_finite]. Qed.

Lemma mat_ok_eye (r c : nat) : mat_ok (eye r c : mat F).
Proof.
  split; [apply wf_eye|]. apply mat_finite_build. intros i j _ _.
  destruct (i =? j); [apply finite_one | apply finite_zero].
Qed.

Lemma mat_ok_row M (t : Z) (v : mat F) : mat_ok M -> row M t = Ok v -> mat_ok v.
Proof.
  intros (Hw & Hf) H. apply row_Ok in H as (Ht & ->). split; [apply wf_build|].
  apply mat_finite_build. intros i j _ Hj. apply mat_finite_elem; try done. lia.
Qed.

Lemma mat_ok_set_row M M' (t : Z) (v : mat F) :
  mat_ok M -> mat_ok v -> set_row M t v = Ok M' -> mat_ok M'.
Proof.
  intros (Hw & Hf) (Hwv & Hfv) H. apply set_row_Ok in H as (Ht & Hr & Hc & ->).
  split; [apply wf_build|]. apply mat_finite_build. intros i j Hi Hj.
  destruct (i =? Z.to_nat t); apply mat_finite_elem; try done; lia.
Qed.

Lemma mat_ok_submat M (ri ci : list nat) N :
  mat_ok M -> submat M ri ci = Ok N -> mat_ok N.
Proof.
  intros (Hw & Hf) H. split; [by apply submat_wf in H | by apply (submat_finite M ri ci)].
Qed.

(** The observed cells of a row. *)
Lemma observed_cells_ok (X : mat F) (t : Z) (Xt Xs : mat F) :
  row X t = Ok Xt -> submat X [Z.to_nat t] (find_finite Xt) = Ok Xs -> mat_ok Xs.
Proof.
  intros HXt HXs. pose proof (find_finite_row X t Xt HXt) as Hmiss.
  apply submat_Ok in HXs as (_ & _ & ->). split; [apply wf_build|].
  apply mat_finite_build. intros i j Hi Hj. simpl in Hi. replace i with 0 by lia.
  assert (In (nth j (find_finite Xt) 0) (find_finite Xt)) as Hin by (apply nth_In; lia).
  rewrite Hmiss in Hin at 2. by apply filter_In in Hin as (_ & Hfin).
Qed.

(** [M(find_nonfinite(M)).zeros()] leaves no non-finite cell. *)
Lemma zero_nonfinite_ok M : mat_ok (zero_nonfinite M).
Proof.
  split; [apply wf_build|]. apply mat_finite_build. intros i j _ _.
  destruct (is_finite (elem M i j)) eqn:E; [exact E | apply finite_zero].
Qed.

Lemma cube_finite_set (H H' : cube F) (i : Z) M :
  cube_finite H -> mat_ok M -> set_slice H i M = Ok H' -> cube_finite H'.
Proof.
  intros HH HM Hset k N HN. destruct (decide (k = i)) as [->|Hne].
  - rewrite (slice_set_slice_same _ _ _ _ Hset) in HN. by injection HN as <-.
  - rewrite (slice_set_slice_other _ _ _ _ _ Hset Hne) in HN. by apply (HH k).
Qed.

Lemma cube_finite_slice (H : cube F) (i : Z) M :
  cube_finite H -> slice H i = Ok M -> mat_ok M.
Proof. intros HH HM. by apply (HH i). Qed.

Lemma cube_finite_zeros_ok (r c s : nat) : cube_finite (cube_zeros r c s : cube F).
Proof.
  intros k M H. apply slice_Ok in H as (_ & H). simpl in H.
  apply lookup_replicate in H as [-> _]. apply mat_ok_zeros.
Qed.

End FiniteAlgebra.

(** Sums, products and transposes of well-formed finite matrices. *)
Ltac fin_step :=
  first [ assumption
        | apply mat_ok_trans
        | apply mat_ok_zeros
        | apply mat_ok_eye
        | apply mat_ok_mmul
        | apply mat_ok_madd
        | apply mat_ok_msub ].

Ltac fin := repeat fin_step; try (shapes; simpl in *; lia).

(** What a run has read: every slice of a finite history, every row of a
    finite matrix and every inverse is well formed and finite. *)
Ltac fin_reads :=
  repeat match goal with
         | H : slice ?Q _ = Ok ?M |- _ =>
             lazymatch goal with
             | _ : mat_ok M |- _ => fail
             | _ => assert (mat_ok M) by (eapply cube_finite_slice; [|exact H]; eassumption)
             end
         | H : row ?N _ = Ok ?v |- _ =>
             lazymatch goal with
             | _ : mat_ok v |- _ => fail
             | _ => assert (mat_ok v) by (eapply mat_ok_row; [|exact H]; eassumption)
             end
         end.

Section FinitePasses.
Context {F : Type} {SF : Scalar F} {LA : Lapack F}.
Context {SL : ScalarLaws F} {LL : LapackLaws F}.
Implicit Types X C R A Q tC tR FT PT : mat F.
Implicit Types PfT PpT : cube F.
Implicit Types st : filter_state F.
Implicit Types s : smoother_state F.

Lemma mat_ok_inv (M N : mat F) :
  inv M = Ok N -> mat_ok N /\ n_rows N = n_rows M /\ n_cols N = n_rows M.
Proof. intros H. apply inv_finite in H as (Hw & Hf & Hr & Hc). by repeat split. Qed.

(** *** The forward pass *)

Lemma filter_step_finite X tC tR A Q (nmiss : list nat) (n : nat) (t : Z) st st' :
  mat_ok tC -> mat_ok tR -> mat_ok A -> mat_ok Q ->
  filter_state_finite st ->
  filter_step X tC tR A Q nmiss n t st = Ok st' ->
  filter_state_finite st'.
Proof.
  intros HtC HtR HA HQ (Hfp & HPp & _ & _ & HFT & HPT & HPfT & HPpT) Hstep.
  apply filter_step_Ok in Hstep as (C & R & S & xe & K & ff & Pf & Hfacts).
  destruct Hfacts as (Xt & Xs & HXt & HsC & HsR & HS & HXs & Hxe & HK & Hff & HPf & _ &
                      HsetP & HsetPp & HsetF & HsetPf & Efp & EPp & EC & ER & Hshapes).
  destruct Hshapes as (H1 & H2 & H3 & H4 & H5 & H6 & H7 & H8 & H9 & H10 & H11 &
                       H12 & H13).
  assert (mat_ok C) as HC by (eapply mat_ok_submat; [exact HtC | exact HsC]).
  assert (mat_ok R) as HR by (eapply mat_ok_submat; [exact HtR | exact HsR]).
  assert (mat_ok Xs) as HXs' by (by apply (observed_cells_ok X t Xt Xs)).
  apply mat_ok_inv in HS as (HSok & HSr & HSc).
  assert (n_rows Xs = 1 /\ n_cols Xs = n_rows C) as (HXr & HXc).
  { apply submat_Ok in HXs as (_ & _ & ->), HsC as (_ & _ & ->). done. }
  assert (mat_ok K) as HKok by (subst K; fin).
  assert (mat_ok xe) as Hxeok by (subst xe; fin).
  assert (mat_ok ff) as Hffok by (subst ff xe K; fin).
  assert (mat_ok Pf) as HPfok by (subst Pf K; fin).
  unfold filter_state_finite. rewrite Efp, EPp, EC, ER.
  split_all; try done.
  - subst ff xe K. fin.
  - subst Pf K. fin.
  - eapply mat_ok_set_row; [exact HFT | | exact HsetF]. fin.
  - eapply mat_ok_set_row; [exact HPT | | exact HsetP]. fin.
  - by eapply cube_finite_set; [exact HPfT | | exact HsetPf].
  - by eapply cube_finite_set; [exact HPpT | | exact HsetPp].
Qed.

Lemma filter_pass_finite X C Q R A F0 P0 st :
  model_finite C Q R A F0 P0 ->
  filter_pass X C Q R A F0 P0 = Ok st -> filter_state_finite st.
Proof.
  intros (HC & HQ & HR & HA & HF0 & HP0) H. unfold filter_pass in H.
  apply bind_Ok in H as (A0 & _ & H). revert H.
  apply (for_each_invariant filter_state_finite).
  - intros i a a' _ Ha Hstep. by apply (filter_step_finite _ _ _ _ _ _ _ _ _ _ HC HR HA HQ Ha) in Hstep.
  - unfold filter_state_finite, filter_init. cbn [st_fp st_Pp st_C st_R st_FT st_PT st_PfT st_PpT].
    split_all; try done; try apply mat_ok_zeros; apply cube_finite_zeros_ok.
Qed.


(** *** The backward pass *)

Lemma gain_step_keeps_finite A PfT PpT (t : Z) s s' :
  mat_ok A -> cube_finite PfT -> cube_finite PpT ->
  smoother_state_finite s -> gain_step A PfT PpT t s = Ok s' ->
  smoother_state_finite s'.
Proof.
  intros HA HPfT HPpT (HJ & HL & HK & HW & HF & HP) H.
  unfold gain_step in H. inv_bind H. fin_reads.
  match goal with H : inv _ = Ok _ |- _ => apply mat_ok_inv in H as (? & ? & ?) end.
  inv_ops. unfold smoother_state_finite. cbn [sm_J sm_L sm_K sm_PsTm sm_FsT sm_PsT].
  split_all; try done.
  eapply cube_finite_set; [exact HJ | | eassumption]. fin.
Qed.

Lemma smooth_step_keeps_finite (T : Z) FT PT PfT PpT (j : Z) s s' :
  mat_ok FT -> mat_ok PT -> cube_finite PfT -> cube_finite PpT ->
  smoother_state_finite s -> smooth_step T FT PT PfT PpT j s = Ok s' ->
  smoother_state_finite s'.
Proof.
  intros HFT HPT HPfT HPpT (HJ & HL & HK & HW & HF & HP) H.
  unfold smooth_step in H. inv_bind H. fin_reads.
  inv_ops. unfold smoother_state_finite. cbn [sm_J sm_L sm_K sm_PsTm sm_FsT sm_PsT].
  split_all; try done.
  - eapply mat_ok_set_row; [exact HF | | eassumption]. fin.
  - eapply cube_finite_set; [exact HP | | eassumption]. fin.
Qed.

Lemma innovation_step_keeps_finite C R PpT (i : Z) s s' :
  mat_ok C -> mat_ok R -> cube_finite PpT ->
  smoother_state_finite s -> innovation_step C R PpT i s = Ok s' ->
  smoother_state_finite s'.
Proof.
  intros HC HR HPpT (HJ & HL & HK & HW & HF & HP) H.
  unfold innovation_step in H. inv_bind H.
  match goal with
  | H1 : set_slice (sm_L s) i _ = Ok ?L, H2 : slice ?L i = Ok _ |- _ =>
      rewrite (slice_set_slice_same _ _ _ _ H1) in H2; apply Ok_inj in H2; subst
  end.
  fin_reads.
  match goal with H : inv _ = Ok _ |- _ => apply mat_ok_inv in H as (? & ? & ?) end.
  inv_ops. unfold smoother_state_finite. cbn [sm_J sm_L sm_K sm_PsTm sm_FsT sm_PsT].
  split_all; try done.
  - by eapply cube_finite_set; [exact HL | | eassumption].
  - eapply cube_finite_set; [exact HK | | eassumption]. fin.
Qed.

Lemma lag_one_seed_keeps_finite (T : Z) (rp : nat) A C PfT s s' :
  mat_ok A -> mat_ok C -> cube_finite PfT ->
  smoother_state_finite s -> lag_one_seed T rp A C PfT s = Ok s' ->
  smoother_state_finite s'.
Proof.
  intros HA HC HPfT (HJ & HL & HK & HW & HF & HP) H.
  unfold lag_one_seed in H. inv_bind H. fin_reads.
  inv_ops. unfold smoother_state_finite. cbn [sm_J sm_L sm_K sm_PsTm sm_FsT sm_PsT].
  split_all; try done.
  eapply cube_finite_set; [exact HW | | eassumption]. fin.
Qed.

Lemma lag_one_step_keeps_finite (T : Z) A PfT (j : Z) s s' :
  mat_ok A -> cube_finite PfT ->
  smoother_state_finite s -> lag_one_step T A PfT j s = Ok s' ->
  smoother_state_finite s'.
Proof.
  intros HA HPfT (HJ & HL & HK & HW & HF & HP) H.
  unfold lag_one_step in H. inv_bind H. fin_reads.
  inv_ops. unfold smoother_state_finite. cbn [sm_J sm_L sm_K sm_PsTm sm_FsT sm_PsT].
  split_all; try done.
  eapply cube_finite_set; [exact HW | | eassumption]. fin.
Qed.

Lemma smoother_pass_finite (T : Z) (rp n : nat) A C R FT PT PfT PpT s :
  mat_ok A -> mat_ok C -> mat_ok R -> mat_ok FT -> mat_ok PT ->
  cube_finite PfT -> cube_finite PpT ->
  smoother_pass T rp n A C R FT PT PfT PpT = Ok s ->
  smoother_state_finite s.
Proof.
  intros HA HC HR HFT HPT HPfT HPpT H. unfold smoother_pass in H. inv_bind H.
  rename x into f, Hx into Hf, x0 into Fs0, Hx0 into HFs0, x1 into Pf, Hx1 into HPf,
    x2 into Ps0, Hx2 into HPs0, x3 into s1, Hx3 into H1, x4 into s2, Hx4 into H2,
    x5 into s3, Hx5 into H3, x6 into s4, Hx6 into H4.
  fin_reads.
  assert (smoother_state_finite s1) as Hs1.
  { revert H1. apply (for_each_invariant smoother_state_finite).
    - intros i a a' _ Ha. by apply gain_step_keeps_finite.
    - unfold smoother_state_finite. cbn [sm_J sm_L sm_K sm_PsTm sm_FsT sm_PsT].
      split_all; try apply cube_finite_zeros_ok.
      + eapply mat_ok_set_row; [apply mat_ok_zeros | | exact HFs0]. done.
      + eapply cube_finite_set; [apply cube_finite_zeros_ok | | exact HPs0]. done. }
  assert (smoother_state_finite s2) as Hs2.
  { revert H2. apply (for_each_invariant smoother_state_finite); [|done].
    intros i a a' _ Ha. by apply smooth_step_keeps_finite. }
  assert (smoother_state_finite s3) as Hs3.
  { revert H3. apply (for_each_invariant smoother_state_finite); [|done].
    intros i a a' _ Ha. by apply innovation_step_keeps_finite. }
  assert (smoother_state_finite s4) as Hs4
    by (by apply (lag_one_seed_keeps_finite T rp A C PfT s3 s4)).
  revert H. apply (for_each_invariant smoother_state_finite); [|done].
  intros i a a' _ Ha. by apply lag_one_step_keeps_finite.
Qed.

Lemma fused_finite X C Q R A F0 P0 (out : fused_out F) :
  model_finite C Q R A F0 P0 ->
  KalmanFilterSmoother X C Q R A F0 P0 = Ok out ->
  mat_ok (kfs_Fs out) /\ cube_finite (kfs_Ps out) /\ cube_finite (kfs_PsTm out).
Proof.
  intros Hmodel H. unfold KalmanFilterSmoother in H.
  apply bind_Ok in H as (st & Hpass & H). apply bind_Ok in H as (s & Hsm & [= <-]).
  cbn [kfs_Fs kfs_Ps kfs_PsTm].
  pose proof (filter_pass_finite X C Q R A F0 P0 st Hmodel Hpass)
    as (_ & _ & HC & HR & HFT & HPT & HPfT & HPpT).
  destruct Hmodel as (_ & _ & _ & HA & _).
  by apply (smoother_pass_finite _ _ _ A _ _ _ _ _ _ s) in Hsm
    as (_ & _ & _ & ? & ? & ?).
Qed.


(** *** The E-step *)

Lemma estep_step_keeps_finite (X Fs : mat F) (Ps W : cube F) (t : Z)
    (acc acc' : estep_acc F) :
  mat_ok X -> mat_ok Fs -> cube_finite Ps -> cube_finite W ->
  estep_acc_finite acc -> estep_step X Fs Ps W t acc = Ok acc' ->
  estep_acc_finite acc'.
Proof.
  intros HX HFs HPs HW (Hd & Hg & Hb) H. unfold estep_step in H. inv_bind H.
  destruct (t >? 0)%Z.
  - match goal with H : bind _ _ = Ok _ |- _ => inv_bind H end.
    fin_reads. inv_ops. unfold estep_acc_finite. cbn [acc_delta acc_gamma acc_beta].
    split_all; fin.
  - fin_reads. inv_ops. unfold estep_acc_finite. cbn [acc_delta acc_gamma acc_beta].
    split_all; fin.
Qed.


End FinitePasses.

Lemma cube_finite_Forall {F : Type} {SF : Scalar F} (H : cube F) :
  Forall mat_ok (slices H) -> cube_finite H.
Proof.
  intros Hall k M HM. apply slice_Ok in HM as (_ & HM).
  rewrite List.Forall_forall in Hall. apply Hall.
  apply list_elem_of_In. by apply (list_elem_of_lookup_2 _ (Z.to_nat k)).
Qed.

Module FiniteWitnesses.
Import Rat Examples RatFacts.

Lemma model1_finite : model_finite C1 Q1 R1 A1 F01 P01.
Proof. unfold model_finite, mat_ok. split_all; reflexivity. Qed.

Lemma PfT4_finite : cube_finite PfT4.
Proof. apply cube_finite_Forall. repeat constructor. Qed.

Lemma PpT4_finite : cube_finite PpT4.
Proof. apply cube_finite_Forall. repeat constructor. Qed.




End FiniteWitnesses.

(** ** The covariances do not depend on the observed values *)

(** Two runs of one computation on the same arguments have read the same
    values. *)
Ltac same_reads :=
  repeat match goal with
         | H1 : ?e = Ok ?x, H2 : ?e = Ok ?y |- _ =>
             rewrite H1 in H2; apply Ok_inj in H2; subst y
         end.

Section CovariancesAndValues.
Context {F : Type} {SF : Scalar F} {LA : Lapack F}.
Implicit Types X C R A Q tC tR FT PT : mat F.
Implicit Types PfT PpT : cube F.

Lemma same_pattern_row X X' (t : Z) (Xt Xt' : mat F) :
  same_pattern X X' -> row X t = Ok Xt -> row X' t = Ok Xt' ->
  find_finite Xt' = find_finite Xt.
Proof.
  intros (Hr & Hc & Hcell) HXt HXt'.
  rewrite (find_finite_row X t Xt HXt), (find_finite_row X' t Xt' HXt'), Hc.
  apply row_Ok in HXt as (Ht & _).
  apply filter_ext_in. intros j Hj. apply in_seq in Hj.
  apply Hcell; lia.
Qed.

Lemma filter_step_cov_agree X X' tC tR A Q (nmiss : list nat) (n n' : nat) (t : Z)
    (a b a' b' : filter_state F) :
  same_pattern X X' -> same_covariances a b ->
  filter_step X tC tR A Q nmiss n t a = Ok a' ->
  filter_step X' tC tR A Q nmiss n' t b = Ok b' ->
  same_covariances a' b'.
Proof.
  intros Hsame (HPp & HC & HR & HPpT & HPfT) Ha Hb. unfold filter_step in Ha, Hb.
  rewrite <- HPp, <- HPpT, <- HPfT in Hb.
  apply bind_Ok in Ha as (Xt & HXt & Ha). apply bind_Ok in Hb as (Xt' & HXt' & Hb).
  rewrite (same_pattern_row X X' t Xt Xt' Hsame HXt HXt') in Hb.
  inv_bind Ha. inv_bind Hb. same_reads.
  injection Ha as <-. injection Hb as <-.
  unfold same_covariances. cbn [st_Pp st_C st_R st_PpT st_PfT]. done.
Qed.

Lemma filter_pass_cov_agree X X' C Q R A F0 F0' P0 (st st' : filter_state F) :
  same_pattern X X' ->
  filter_pass X C Q R A F0 P0 = Ok st -> filter_pass X' C Q R A F0' P0 = Ok st' ->
  same_covariances st st'.
Proof.
  intros Hsame H H'. pose proof Hsame as (Hr & Hc & _).
  unfold filter_pass in H, H'. rewrite Hr in H'.
  apply bind_Ok in H as (A0 & HA0 & H). apply bind_Ok in H' as (A0' & HA0' & H').
  assert (A0' = A0) as -> by congruence.
  unfold for_loop in H, H'.
  eapply (for_each_agree same_covariances); [| |exact H|exact H'].
  - intros i a b a' b' _. by apply filter_step_cov_agree.
  - unfold same_covariances, filter_init. cbn [st_Pp st_C st_R st_PpT st_PfT].
    by rewrite Hr.
Qed.

Lemma gain_step_cov_agree A PfT PpT (t : Z) (a b a' b' : smoother_state F) :
  same_smoothed_covariances a b ->
  gain_step A PfT PpT t a = Ok a' -> gain_step A PfT PpT t b = Ok b' ->
  same_smoothed_covariances a' b'.
Proof.
  intros (HJ & HL & HK & HW & HP) Ha Hb. unfold gain_step in Ha, Hb.
  rewrite <- HJ, <- HL, <- HK, <- HW, <- HP in Hb.
  inv_bind Ha. inv_bind Hb. same_reads.
  injection Ha as <-. injection Hb as <-.
  unfold same_smoothed_covariances. cbn [sm_J sm_L sm_K sm_PsTm sm_PsT]. done.
Qed.

Lemma smooth_step_cov_agree (T : Z) FT FT' PT PT' PfT PpT (j : Z)
    (a b a' b' : smoother_state F) :
  same_smoothed_covariances a b ->
  smooth_step T FT PT PfT PpT j a = Ok a' ->
  smooth_step T FT' PT' PfT PpT j b = Ok b' ->
  same_smoothed_covariances a' b'.
Proof.
  intros (HJ & HL & HK & HW & HP) Ha Hb. unfold smooth_step in Ha, Hb.
  rewrite <- HJ, <- HL, <- HK, <- HW, <- HP in Hb.
  inv_bind Ha. inv_bind Hb. same_reads.
  injection Ha as <-. injection Hb as <-.
  unfold same_smoothed_covariances. cbn [sm_J sm_L sm_K sm_PsTm sm_PsT]. done.
Qed.

Lemma innovation_step_cov_agree C R PpT (i : Z) (a b a' b' : smoother_state F) :
  same_smoothed_covariances a b ->
  innovation_step C R PpT i a = Ok a' -> innovation_step C R PpT i b = Ok b' ->
  same_smoothed_covariances a' b'.
Proof.
  intros (HJ & HL & HK & HW & HP) Ha Hb. unfold innovation_step in Ha, Hb.
  rewrite <- HJ, <- HL, <- HK, <- HW, <- HP in Hb.
  inv_bind Ha. inv_bind Hb. same_reads.
  injection Ha as <-. injection Hb as <-.
  unfold same_smoothed_covariances. cbn [sm_J sm_L sm_K sm_PsTm sm_PsT]. done.
Qed.

Lemma lag_one_seed_cov_agree (T : Z) (rp : nat) A C PfT (a b a' b' : smoother_state F) :
  same_smoothed_covariances a b ->
  lag_one_seed T rp A C PfT a = Ok a' -> lag_one_seed T rp A C PfT b = Ok b' ->
  same_smoothed_covariances a' b'.
Proof.
  intros (HJ & HL & HK & HW & HP) Ha Hb. unfold lag_one_seed in Ha, Hb.
  rewrite <- HJ, <- HL, <- HK, <- HW, <- HP in Hb.
  inv_bind Ha. inv_bind Hb. same_reads.
  injection Ha as <-. injection Hb as <-.
  unfold same_smoothed_covariances. cbn [sm_J sm_L sm_K sm_PsTm sm_PsT]. done.
Qed.

Lemma lag_one_step_cov_agree (T : Z) A PfT (j : Z) (a b a' b' : smoother_state F) :
  same_smoothed_covariances a b ->
  lag_one_step T A PfT j a = Ok a' -> lag_one_step T A PfT j b = Ok b' ->
  same_smoothed_covariances a' b'.
Proof.
  intros (HJ & HL & HK & HW & HP) Ha Hb. unfold lag_one_step in Ha, Hb.
  rewrite <- HJ, <- HL, <- HK, <- HW, <- HP in Hb.
  inv_bind Ha. inv_bind Hb. same_reads.
  injection Ha as <-. injection Hb as <-.
  unfold same_smoothed_covariances. cbn [sm_J sm_L sm_K sm_PsTm sm_PsT]. done.
Qed.

Lemma smoother_pass_cov_agree (T : Z) (rp n : nat) A C R FT FT' PT PT' PfT PpT
    (s s' : smoother_state F) :
  smoother_pass T rp n A C R FT PT PfT PpT = Ok s ->
  smoother_pass T rp n A C R FT' PT' PfT PpT = Ok s' ->
  same_smoothed_covariances s s'.
Proof.
  unfold smoother_pass. intros H H'. inv_bind H. inv_bind H'.
  rename x3 into s1, Hx3 into H1, x4 into s2, Hx4 into H2, x5 into s3, Hx5 into H3,
    x6 into s4, Hx6 into H4.
  rename x11 into s1', Hx11 into H1', x12 into s2', Hx12 into H2',
    x13 into s3', Hx13 into H3', x14 into s4', Hx14 into H4'.
  assert (x9 = x1) as -> by congruence.
  assert (x10 = x2) as -> by congruence.
  unfold for_loop in *.
  assert (same_smoothed_covariances s1 s1') as Hrel1.
  { eapply (for_each_agree same_smoothed_covariances); [| |exact H1|exact H1'].
    - intros i a b a' b' _. apply gain_step_cov_agree.
    - unfold same_smoothed_covariances. cbn [sm_J sm_L sm_K sm_PsTm sm_PsT]. done. }
  assert (same_smoothed_covariances s2 s2') as Hrel2.
  { eapply (for_each_agree same_smoothed_covariances); [|exact Hrel1|exact H2|exact H2'].
    intros i a b a' b' _. apply smooth_step_cov_agree. }
  assert (same_smoothed_covariances s3 s3') as Hrel3.
  { eapply (for_each_agree same_smoothed_covariances); [|exact Hrel2|exact H3|exact H3'].
    intros i a b a' b' _. apply innovation_step_cov_agree. }
  assert (same_smoothed_covariances s4 s4') as Hrel4
    by (by eapply lag_one_seed_cov_agree; [exact Hrel3 | exact H4 | exact H4']).
  eapply (for_each_agree same_smoothed_covariances); [|exact Hrel4|exact H|exact H'].
  intros i a b a' b' _. apply lag_one_step_cov_agree.
Qed.

(** X23: the covariances depend on which cells of X are observed, not on
    the values observed nor on the initial mean: two series of the same shape
    with missing cells in the same places, filtered with the same C, Q, R, A
    and P0, give the same Pf and Pp in KalmanFilter and the same Ps and PsTm
    in KalmanFilterSmoother, whenever both calls return. *)
Theorem covariances_ignore_observed_values X X' C Q R A F0 F0' P0 :
  same_pattern X X' ->
  (forall out out' : filter_out F,
     KalmanFilter X C Q R A F0 P0 = Ok out ->
     KalmanFilter X' C Q R A F0' P0 = Ok out' ->
     kf_Pf out' = kf_Pf out /\ kf_Pp out' = kf_Pp out) /\
  (forall out out' : fused_out F,
     KalmanFilterSmoother X C Q R A F0 P0 = Ok out ->
     KalmanFilterSmoother X' C Q R A F0' P0 = Ok out' ->
     kfs_Ps out' = kfs_Ps out /\ kfs_PsTm out' = kfs_PsTm out).
Proof.
  intros Hsame. pose proof Hsame as (Hr & Hc & _). split.
  - intros out out' H H'. unfold KalmanFilter in H, H'.
    apply bind_Ok in H as (st & Hpass & [= <-]).
    apply bind_Ok in H' as (st' & Hpass' & [= <-]). cbn [kf_Pf kf_Pp].
    by destruct (filter_pass_cov_agree _ _ _ _ _ _ _ _ _ _ _ Hsame Hpass Hpass')
      as (_ & _ & _ & -> & ->).
  - intros out out' H H'. unfold KalmanFilterSmoother in H, H'.
    apply bind_Ok in H as (st & Hpass & H). apply bind_Ok in H as (s & Hsm & [= <-]).
    apply bind_Ok in H' as (st' & Hpass' & H').
    apply bind_Ok in H' as (s' & Hsm' & [= <-]). cbn [kfs_Ps kfs_PsTm].
    destruct (filter_pass_cov_agree _ _ _ _ _ _ _ _ _ _ _ Hsame Hpass Hpass')
      as (_ & EC & ER & EPp & EPf).
    rewrite Hr, Hc, <- EC, <- ER, <- EPp, <- EPf in Hsm'.
    by destruct (smoother_pass_cov_agree _ _ _ _ _ _ _ _ _ _ _ _ _ _ Hsm Hsm')
      as (_ & _ & _ & -> & ->).
Qed.

End CovariancesAndValues.

(** ** The filter is causal *)

Section Causality.
Context {F : Type} {SF : Scalar F} {LA : Lapack F}.
Implicit Types X C R A Q tC tR : mat F.
Implicit Types st : filter_state F.

(** A step before [k] reads the same row in both series. *)
Lemma same_rows_step X X' tC tR A Q (nmiss : list nat) (n : nat) (k t : Z) st :
  same_rows_before X X' k -> (t < k)%Z ->
  filter_step X' tC tR A Q nmiss n t st = filter_step X tC tR A Q nmiss n t st.
Proof.
  intros (Hr & Hc & Hcell) Htk. unfold filter_step.
  destruct (row X t) as [Xt|e] eqn:HXt.
  - pose proof (find_finite_row_bound X t Xt HXt) as Hbound.
    rewrite List.Forall_forall in Hbound.
    pose proof (row_Ok _ _ _ HXt) as (Ht & EXt).
    assert (row X' t = Ok Xt) as ->.
    { rewrite row_eq by lia. rewrite EXt, Hc. f_equal. apply build_ext.
      intros i j _ Hj. apply Hcell; lia. }
    cbn [bind].
    assert (submat X' [Z.to_nat t] (find_finite Xt) =
            submat X [Z.to_nat t] (find_finite Xt)) as ->; [|done].
    unfold submat. rewrite Hr, Hc. destruct (_ && _); [|done]. f_equal.
    apply build_ext. intros i j Hi Hj. simpl in Hi. replace i with 0 by lia. simpl.
    apply Hcell; [lia | lia |]. apply Hbound, nth_In. lia.
  - unfold row in *. rewrite Hr.
    destruct (_ && _); [discriminate|]. injection HXt as <-. reflexivity.
Qed.

Lemma same_rows_loop X X' tC tR A Q (nmiss : list nat) (n : nat) (k t : Z) st :
  same_rows_before X X' k -> (t <= k)%Z ->
  for_loop 0 t (filter_step X' tC tR A Q nmiss n) st =
  for_loop 0 t (filter_step X tC tR A Q nmiss n) st.
Proof.
  intros Hsame Htk. apply for_each_ext. intros i a Hi. apply in_range in Hi.
  apply (same_rows_step X X' _ _ _ _ _ _ k); [done | lia].
Qed.

(** X24: the filter is causal: what KalmanFilter returns for a time depends
    on the rows of X up to that time only.  For two series of the same shape
    that agree on their first k rows, the filtered means and covariances of
    every time before k are the same, and so are the predicted means and
    covariances of every time up to k (the one-step forecast included),
    whenever both calls return. *)
Theorem filter_is_causal X X' C Q R A F0 P0 (k : Z) (out out' : filter_out F) :
  same_rows_before X X' k ->
  KalmanFilter X C Q R A F0 P0 = Ok out ->
  KalmanFilter X' C Q R A F0 P0 = Ok out' ->
  (forall t, (0 <= t < k)%Z -> (t < Z.of_nat (n_rows X))%Z ->
     row (kf_F out') t = row (kf_F out) t /\
     slice (kf_Pf out') t = slice (kf_Pf out) t) /\
  (forall t, (0 <= t <= k)%Z -> (t < Z.of_nat (n_rows X))%Z ->
     row (kf_P out') t = row (kf_P out) t /\
     slice (kf_Pp out') t = slice (kf_Pp out) t).
Proof.
  intros Hsame H H'. pose proof Hsame as (Hr & Hc & _).
  unfold KalmanFilter in H, H'.
  apply bind_Ok in H as (sT & Hpass & [= <-]).
  apply bind_Ok in H' as (sT' & Hpass' & [= <-]). cbn [kf_F kf_P kf_Pf kf_Pp].
  unfold filter_pass, filter_init in Hpass, Hpass'. rewrite Hr, Hc in Hpass'.
  apply bind_Ok in Hpass as (A0 & HA0 & Hloop).
  apply bind_Ok in Hpass' as (A0' & HA0' & Hloop').
  assert (A0' = A0) as -> by congruence.
  split.
  - intros t Ht HtT.
    assert (0 <= t < Z.of_nat (n_rows X))%Z as Ht' by lia.
    destruct (filter_loop_slot _ _ _ _ _ _ _ _ t _ _ Ht' Hloop)
      as (s1 & s2 & H1 & Hstep & _ & _ & EF & _ & EPf).
    destruct (filter_loop_slot _ _ _ _ _ _ _ _ t _ _ Ht' Hloop')
      as (s1' & s2' & H1' & Hstep' & _ & _ & EF' & _ & EPf').
    rewrite (same_rows_loop X X' _ _ _ _ _ _ k t _ Hsame) in H1' by lia.
    assert (s1' = s1) as -> by congruence.
    rewrite (same_rows_step X X' _ _ _ _ _ _ k t _ Hsame) in Hstep' by lia.
    assert (s2' = s2) as -> by congruence.
    by rewrite EF, EF', EPf, EPf'.
  - intros t Ht HtT.
    assert (0 <= t < Z.of_nat (n_rows X))%Z as Ht' by lia.
    destruct (filter_loop_slot _ _ _ _ _ _ _ _ t _ _ Ht' Hloop)
      as (s1 & s2 & H1 & Hstep & _ & EP & _ & EPp & _).
    destruct (filter_loop_slot _ _ _ _ _ _ _ _ t _ _ Ht' Hloop')
      as (s1' & s2' & H1' & Hstep' & _ & EP' & _ & EPp' & _).
    rewrite (same_rows_loop X X' _ _ _ _ _ _ k t _ Hsame) in H1' by lia.
    assert (s1' = s1) as -> by congruence.
    destruct (filter_step_stores_prediction _ _ _ _ _ _ _ _ _ _ Hstep) as (HsP & HsPp).
    destruct (filter_step_stores_prediction _ _ _ _ _ _ _ _ _ _ Hstep') as (HsP' & HsPp').
    by rewrite EP, EP', EPp, EPp', HsP, HsP', HsPp, HsPp'.
Qed.

End Causality.

Module RelationalWitnesses.
Import Rat Examples RatFacts.

Lemma X4_X4b_same_pattern : same_pattern X4 X4b.
Proof.
  unfold same_pattern. split; [reflexivity|]. split; [reflexivity|].
  intros i j Hi Hj. simpl in Hi, Hj. replace j with 0 by lia.
  destruct i as [|[|[|[|i]]]]; try lia; reflexivity.
Qed.

Lemma X4_X4c_same_rows : same_rows_before X4 X4c 3.
Proof.
  unfold same_rows_before. split; [reflexivity|]. split; [reflexivity|].
  intros i j Hk Hi Hj. simpl in Hi, Hj. replace j with 0 by lia.
  destruct i as [|[|[|i]]]; try lia; reflexivity.
Qed.

Lemma covariances_witness :
  same_pattern X4 X4b /\
  (exists out out',
     KalmanFilter X4 C1 Q1 R1 A1 F01 P01 = Ok out /\
     KalmanFilter X4b C1 Q1 R1 A1 F01b P01 = Ok out' /\
     kf_Pf out' = kf_Pf out /\ kf_Pp out' = kf_Pp out) /\
  (exists out out',
     KalmanFilterSmoother X4 C1 Q1 R1 A1 F01 P01 = Ok out /\
     KalmanFilterSmoother X4b C1 Q1 R1 A1 F01b P01 = Ok out' /\
     kfs_Ps out' = kfs_Ps out /\ kfs_PsTm out' = kfs_PsTm out).
Proof.
  split; [exact X4_X4b_same_pattern|].
  destruct (covariances_ignore_observed_values X4 X4b C1 Q1 R1 A1 F01 F01b P01
              X4_X4b_same_pattern) as (H1 & H2).
  split.
  - destruct (KalmanFilter X4 C1 Q1 R1 A1 F01 P01) as [out|e] eqn:E.
    + destruct (KalmanFilter X4b C1 Q1 R1 A1 F01b P01) as [out'|e] eqn:E'.
      * exists out, out'. split; [reflexivity|]. split; [reflexivity|].
        by apply H1.
      * vm_compute in E'. discriminate E'.
    + vm_compute in E. discriminate E.
  - destruct (KalmanFilterSmoother X4 C1 Q1 R1 A1 F01 P01) as [out|e] eqn:E.
    + destruct (KalmanFilterSmoother X4b C1 Q1 R1 A1 F01b P01) as [out'|e] eqn:E'.
      * exists out, out'. split; [reflexivity|]. split; [reflexivity|].
        by apply H2.
      * vm_compute in E'. discriminate E'.
    + vm_compute in E. discriminate E.
Defined.

Lemma filter_is_causal_witness :
  same_rows_before X4 X4c 3 /\
  exists out out',
    KalmanFilter X4 C1 Q1 R1 A1 F01 P01 = Ok out /\
    KalmanFilter X4c C1 Q1 R1 A1 F01 P01 = Ok out' /\
    (row (kf_F out') 2 = row (kf_F out) 2 /\
     slice (kf_Pf out') 2 = slice (kf_Pf out) 2) /\
    (row (kf_P out') 3 = row (kf_P out) 3 /\
     slice (kf_Pp out') 3 = slice (kf_Pp out) 3).
Proof.
  split; [exact X4_X4c_same_rows|].
  destruct (KalmanFilter X4 C1 Q1 R1 A1 F01 P01) as [out|e] eqn:E.
  - destruct (KalmanFilter X4c C1 Q1 R1 A1 F01 P01) as [out'|e] eqn:E'.
    + exists out, out'. split; [reflexivity|]. split; [reflexivity|].
      destruct (filter_is_causal X4 X4c C1 Q1 R1 A1 F01 P01 3 out out'
                  X4_X4c_same_rows E E') as (H1 & H2).
      split; [apply H1; simpl; lia | apply H2; simpl; lia].
    + vm_compute in E'. discriminate E'.
  - vm_compute in E. discriminate E.
Defined.

End RelationalWitnesses.
